(** * SpectraSync numeric core: alignment, smoothing, normalization, metrics

    A shallow embedding of [utils/mathUtils.ts] (the numeric core) and of the
    [similarityMatrix] computation of [App.tsx].

    The TypeScript code computes on JavaScript numbers.  Every function below
    is written once, over an abstract arithmetic [Arith], in the shape of the
    source, and is then read in three number models:

    - [ExactR]: exact real arithmetic (the model of the algebraic laws);
    - [Checked]: exact reals where a division by zero, a square root of a
      negative number or a logarithm of a non-positive number yields no
      number at all (the model of "every division is guarded");
    - [Binary64]: IEEE-754 binary64, the arithmetic a JavaScript engine
      really performs for [+ - * /] and [Math.sqrt]. *)

From Stdlib Require Import Reals Lra Lia List ZArith Bool.
From Stdlib Require String.
Import String.StringSyntax.
Local Open Scope string_scope.
Local Open Scope list_scope.
From Stdlib Require Import PrimFloat Uint63.
Import ListNotations.

Declare Scope num_scope.
Delimit Scope num_scope with num.

(** ** The arithmetic the code is written against *)

Record Arith : Type := {
  num : Type;
  zero : num;                       (* the literal 0 *)
  step : num;                       (* the literal 0.5 *)
  epsilon : num;                    (* the literal 1e-10 *)
  of_nat : nat -> num;              (* an array length or a counter as a number *)
  add : num -> num -> num;
  sub : num -> num -> num;
  mul : num -> num -> num;
  div : num -> num -> num;
  Math_pow2 : num -> num;                (* Math.pow(v, 2) *)
  Math_abs : num -> num;                 (* Math.abs *)
  Math_sqrt : num -> num;                (* Math.sqrt *)
  Math_max : num -> num -> num;          (* Math.max on two arguments *)
  Math_min : num -> num -> num;          (* Math.min on two arguments *)
  eqb : num -> num -> bool;         (* === *)
  leb : num -> num -> bool          (* <= *)
}.

Inductive NormalizationMethod : Type := none | area | minmax.

Definition NormalizationMethod_eqb (a b : NormalizationMethod) : bool :=
  match a, b with
  | none, none | area, area | minmax, minmax => true
  | _, _ => false
  end.

(** The integers [lo, lo+1, ..., hi] visited by [for (j = lo; j <= hi; j++)]. *)
Definition Zrange (lo hi : Z) : list Z :=
  map (fun k => (lo + Z.of_nat k)%Z) (seq 0 (Z.to_nat (hi - lo + 1))).

(** [Array.prototype.findIndex]: the first index whose element satisfies the
    predicate, [-1] when there is none. *)
Fixpoint findIndexFrom {T : Type} (P : T -> bool) (i : Z) (l : list T) : Z :=
  match l with
  | [] => (-1)%Z
  | p :: rest => if P p then i else findIndexFrom P (i + 1)%Z rest
  end.

Definition findIndex {T : Type} (P : T -> bool) (l : list T) : Z :=
  findIndexFrom P 0%Z l.

Section Core.

Variable A : Arith.

Local Notation "'number'" := (num A).
Local Infix "+" := (add A) : num_scope.
Local Infix "-" := (sub A) : num_scope.
Local Infix "*" := (mul A) : num_scope.
Local Infix "/" := (div A) : num_scope.
Local Infix "===" := (eqb A) (at level 70, no associativity) : num_scope.
Local Infix "<=?" := (leb A) : num_scope.
Local Notation "a >=? b" := (leb A b a) (at level 70, no associativity) : num_scope.
Local Open Scope num_scope.

(** *** types.ts *)

Record DataPoint : Type := { wavelength : number; absorption : number }.

Record WaterSample : Type := {
  id : String.string;
  name : String.string;
  data : list DataPoint;
  color : String.string
}.

Record AlignedPair : Type := { x : number; yA : number; yB : number }.

Record SimilarityResult : Type := {
  sampleA : String.string;
  sampleB : String.string;
  pearson : number;
  rmse : number;
  euclidean : number;
  cosine : number;
  sid : number
}.

(** *** applyMovingAverage *)

(** One round of the inner loop: [if (j >= 0 && j < values.length)
    { sum += values[j]; count++; }]. *)
Definition windowStep (values : list number) (acc : number * nat) (j : Z)
  : number * nat :=
  if ((0 <=? j)%Z && (j <? Z.of_nat (length values))%Z)%bool
  then (fst acc + nth (Z.to_nat j) values (zero A), S (snd acc))
  else acc.

(** [window] is the integer window size of the caller. *)
Definition applyMovingAverage (values : list number) (window : Z) : list number :=
  if ((window <=? 1)%Z || (length values =? 0)%nat)%bool then values
  else
    let half := (window / 2)%Z in
    map (fun i : Z =>
           let acc := fold_left (windowStep values)
                                (Zrange (i - half) (i + half)) (zero A, 0%nat) in
           fst acc / of_nat A (snd acc))
        (Zrange 0 (Z.of_nat (length values) - 1)).

(** *** getOverlapData *)

(** [data[i]]; the two callers only index inside the array (the empty array
    is excluded by the guard at the head of [getOverlapData]). *)
Definition point_at (data : list DataPoint) (i : Z) : DataPoint :=
  nth (Z.to_nat i) data {| wavelength := zero A; absorption := zero A |}.

Definition interpolate (data : list DataPoint) (targetW : number) : number :=
  let idx := findIndex (fun p => wavelength p >=? targetW) data in
  if (idx <=? 0)%Z then absorption (point_at data 0)
  else if (idx >=? Z.of_nat (length data))%Z
       then absorption (point_at data (Z.of_nat (length data) - 1))
       else
         let p1 := point_at data (idx - 1) in
         let p2 := point_at data idx in
         let t := (targetW - wavelength p1) / (wavelength p2 - wavelength p1) in
         absorption p1 + t * (absorption p2 - absorption p1).

(** [for (let w = minW; w <= maxW; w += step) common.push(...)].  The loop
    is not structurally bounded, so it runs on fuel: [None] means that the
    fuel ran out before the loop condition failed. *)
Fixpoint alignLoop (fuel : nat) (dataA dataB : list DataPoint)
         (maxW w : number) {struct fuel} : option (list AlignedPair) :=
  if w <=? maxW then
    match fuel with
    | O => None
    | S fuel' =>
        match alignLoop fuel' dataA dataB maxW (w + step A) with
        | None => None
        | Some rest =>
            Some ({| x := w; yA := interpolate dataA w; yB := interpolate dataB w |}
                  :: rest)
        end
    end
  else Some [].

Definition getOverlapData (fuel : nat) (dataA dataB : list DataPoint)
  : option (list AlignedPair) :=
  match dataA, dataB with
  | [], _ | _, [] => Some []
  | a0 :: _, b0 :: _ =>
      let minW := Math_max A (wavelength a0) (wavelength b0) in
      let maxW := Math_min A (wavelength (last dataA a0)) (wavelength (last dataB b0)) in
      alignLoop fuel dataA dataB maxW minW
  end.

(** *** normalizeValues *)

(** [Math.min(...values)] and [Math.max(...values)] on a non-empty array. *)
Definition minOf (v0 : number) (vs : list number) : number := fold_left (Math_min A) vs v0.
Definition maxOf (v0 : number) (vs : list number) : number := fold_left (Math_max A) vs v0.

Definition normalizeValues (values : list number) (method : NormalizationMethod)
  : list number :=
  match method, values with
  | none, _ => values
  | _, [] => values
  | area, _ =>
      let sum := fold_left (fun a b => a + Math_abs A b) values (zero A) in
      if sum === zero A then values else map (fun v => v / sum) values
  | minmax, v0 :: vs =>
      let min := minOf v0 vs in
      let max := maxOf v0 vs in
      let range := max - min in
      if range === zero A then map (fun _ => zero A) values
      else map (fun v => (v - min) / range) values
  end.

(** *** The metrics *)

Definition calculatePearson (common : list AlignedPair) : number :=
  let n := length common in
  if (n <? 2)%nat then zero A
  else
    let sumA := fold_left (fun s p => s + yA p) common (zero A) in
    let sumB := fold_left (fun s p => s + yB p) common (zero A) in
    let sumASq := fold_left (fun s p => s + yA p * yA p) common (zero A) in
    let sumBSq := fold_left (fun s p => s + yB p * yB p) common (zero A) in
    let sumProd := fold_left (fun s p => s + yA p * yB p) common (zero A) in
    let num := of_nat A n * sumProd - sumA * sumB in
    let den := Math_sqrt A ((of_nat A n * sumASq - sumA * sumA)
                       * (of_nat A n * sumBSq - sumB * sumB)) in
    if den === zero A then zero A else num / den.

Definition calculateRMSE (common : list AlignedPair) (method : NormalizationMethod)
  : number :=
  let n := length common in
  if (n =? 0)%nat then zero A
  else
    let normA := normalizeValues (map yA common) method in
    let normB := normalizeValues (map yB common) method in
    let sumSq :=
      fold_left (fun s i => s + Math_pow2 A (nth i normA (zero A) - nth i normB (zero A)))
                (seq 0 n) (zero A) in
    Math_sqrt A (sumSq / of_nat A n).

Definition calculateEuclidean (common : list AlignedPair) (method : NormalizationMethod)
  : number :=
  if (length common =? 0)%nat then zero A
  else
    let normA := normalizeValues (map yA common) method in
    let normB := normalizeValues (map yB common) method in
    let sumSqDiff :=
      fold_left (fun s vi => s + Math_pow2 A (fst vi - nth (snd vi) normB (zero A)))
                (combine normA (seq 0 (length normA))) (zero A) in
    Math_sqrt A sumSqDiff.

Definition calculateCosineSimilarity (common : list AlignedPair) : number :=
  let dotProduct := fold_left (fun s p => s + yA p * yB p) common (zero A) in
  let magA := Math_sqrt A (fold_left (fun s p => s + yA p * yA p) common (zero A)) in
  let magB := Math_sqrt A (fold_left (fun s p => s + yB p * yB p) common (zero A)) in
  if ((magA === zero A) || (magB === zero A))%bool then zero A
  else dotProduct / (magA * magB).

(** [Math.log]. *)
Variable ln : number -> number.

Definition calculateSID (common : list AlignedPair) : number :=
  let p := normalizeValues (map (fun cp => Math_max A (epsilon A) (yA cp)) common) area in
  let q := normalizeValues (map (fun cp => Math_max A (epsilon A) (yB cp)) common) area in
  fold_left (fun sid i =>
               sid + (nth i p (zero A) - nth i q (zero A))
                     * (ln (nth i p (zero A)) - ln (nth i q (zero A))))
            (seq 0 (length p)) (zero A).

(** *** similarityMatrix (App.tsx) *)

Definition MAX_ALLOWED_WAVELENGTH : number := of_nat A 300.

(** The caller's settings the report is computed from. *)
Record Settings : Type := {
  rangeMin : number;
  rangeMax : number;
  normMethod : NormalizationMethod;
  smoothingEnabled : bool;
  smoothingWindow : Z
}.

Definition filterCommon (cfg : Settings) (common : list AlignedPair)
  : list AlignedPair :=
  filter (fun p => ((x p >=? rangeMin cfg)
                    && (x p <=? Math_min A (rangeMax cfg) MAX_ALLOWED_WAVELENGTH))%bool)
         common.

Definition calcMethod (cfg : Settings) : NormalizationMethod :=
  if NormalizationMethod_eqb (normMethod cfg) none then area else normMethod cfg.

(** [filteredCommon.map((p, idx) => ({...p, yA: yA[idx], yB: yB[idx]}))]. *)
Definition rePair (filteredCommon : list AlignedPair) (ysA ysB : list number)
  : list AlignedPair :=
  map (fun pi => {| x := x (fst pi);
                    yA := nth (snd pi) ysA (zero A);
                    yB := nth (snd pi) ysB (zero A) |})
      (combine filteredCommon (seq 0 (length filteredCommon))).

Definition smoothedFilteredCommon (cfg : Settings) (filteredCommon : list AlignedPair)
  : list AlignedPair :=
  let ysA := map yA filteredCommon in
  let ysB := map yB filteredCommon in
  let ysA' := if smoothingEnabled cfg
              then applyMovingAverage ysA (smoothingWindow cfg) else ysA in
  let ysB' := if smoothingEnabled cfg
              then applyMovingAverage ysB (smoothingWindow cfg) else ysB in
  rePair filteredCommon ysA' ysB'.

(** The body of the inner loop for the pair [(sA, sB)]: the entries it pushes
    onto [results] (none or one). *)
Definition pairEntries (cfg : Settings) (sA sB : WaterSample)
           (common : list AlignedPair) : list SimilarityResult :=
  let filteredCommon := filterCommon cfg common in
  if (0 <? length filteredCommon)%nat then
    let sfc := smoothedFilteredCommon cfg filteredCommon in
    [ {| sampleA := name sA;
         sampleB := name sB;
         pearson := calculatePearson sfc;
         rmse := calculateRMSE sfc (calcMethod cfg);
         euclidean := calculateEuclidean sfc (calcMethod cfg);
         cosine := calculateCosineSimilarity sfc;
         sid := calculateSID sfc |} ]
  else [].

(** [for (let j = i + 1; j < samples.length; j++)] for a fixed [samples[i]]. *)
Fixpoint innerLoop (fuel : nat) (cfg : Settings) (sA : WaterSample)
         (later : list WaterSample) : option (list SimilarityResult) :=
  match later with
  | [] => Some []
  | sB :: later' =>
      match getOverlapData fuel (data sA) (data sB) with
      | None => None
      | Some common =>
          match innerLoop fuel cfg sA later' with
          | None => None
          | Some more => Some (pairEntries cfg sA sB common ++ more)
          end
      end
  end.

(** [for (let i = 0; i < samples.length; i++)]. *)
Fixpoint similarityMatrix (fuel : nat) (cfg : Settings) (samples : list WaterSample)
  : option (list SimilarityResult) :=
  match samples with
  | [] => Some []
  | sA :: later =>
      match innerLoop fuel cfg sA later with
      | None => None
      | Some row =>
          match similarityMatrix fuel cfg later with
          | None => None
          | Some more => Some (row ++ more)
          end
      end
  end.

End Core.

Arguments wavelength {A} _.
Arguments absorption {A} _.
Arguments x {A} _.
Arguments yA {A} _.
Arguments yB {A} _.
Arguments data {A} _.
Arguments name {A} _.
Arguments rmse {A} _.
Arguments euclidean {A} _.
Arguments rangeMin {A} _.
Arguments rangeMax {A} _.
Arguments normMethod {A} _.
Arguments smoothingEnabled {A} _.
Arguments smoothingWindow {A} _.

(** ** Exact real arithmetic *)

Definition Req_bool (a b : R) : bool := if Req_dec_T a b then true else false.
Definition Rle_bool (a b : R) : bool := if Rle_dec a b then true else false.

Definition ExactR : Arith := {|
  num := R;
  zero := 0%R;
  step := (/ 2)%R;
  epsilon := (/ 10 ^ 10)%R;
  of_nat := INR;
  add := Rplus;
  sub := Rminus;
  mul := Rmult;
  div := Rdiv;
  Math_pow2 := fun v => (v ^ 2)%R;
  Math_abs := Rabs;
  Math_sqrt := R_sqrt.sqrt;
  Math_max := Rmax;
  Math_min := Rmin;
  eqb := Req_bool;
  leb := Rle_bool
|}.

(** ** Exact reals with checked partial operations

    [None] stands for every value that is not a finite real: the [NaN] and
    the infinities that JavaScript yields for [x / 0], for [Math.sqrt] of a
    negative number and for [Math.log] of a number that is not positive.
    It is absorbed by every operation and compares false with everything. *)

Definition lift1 (f : R -> R) (a : option R) : option R :=
  match a with
  | Some u => Some (f u)
  | None => None
  end.

Definition lift2 (f : R -> R -> R) (a b : option R) : option R :=
  match a, b with
  | Some u, Some v => Some (f u v)
  | _, _ => None
  end.

Definition liftb (f : R -> R -> bool) (a b : option R) : bool :=
  match a, b with
  | Some u, Some v => f u v
  | _, _ => false
  end.

Definition checked_div (a b : option R) : option R :=
  match a, b with
  | Some u, Some v => if Req_bool v 0 then None else Some (u / v)%R
  | _, _ => None
  end.

Definition checked_sqrt (a : option R) : option R :=
  match a with
  | Some u => if Rle_bool 0 u then Some (R_sqrt.sqrt u) else None
  | None => None
  end.

Definition checked_ln (a : option R) : option R :=
  match a with
  | Some u => if Rle_bool u 0 then None else Some (ln u)
  | None => None
  end.

Definition Checked : Arith := {|
  num := option R;
  zero := Some 0%R;
  step := Some (/ 2)%R;
  epsilon := Some (/ 10 ^ 10)%R;
  of_nat := fun n => Some (INR n);
  add := lift2 Rplus;
  sub := lift2 Rminus;
  mul := lift2 Rmult;
  div := checked_div;
  Math_pow2 := lift1 (fun v => v ^ 2)%R;
  Math_abs := lift1 Rabs;
  Math_sqrt := checked_sqrt;
  Math_max := lift2 Rmax;
  Math_min := lift2 Rmin;
  eqb := liftb Req_bool;
  leb := liftb Rle_bool
|}.

(** A finite aligned pair, as a value of the checked model. *)
Definition finite (p : AlignedPair ExactR) : AlignedPair Checked :=
  Build_AlignedPair Checked (Some (x p)) (Some (yA p)) (Some (yB p)).

(** ** IEEE-754 binary64 *)

(** [Math.max] and [Math.min] of two numbers: [NaN] if either is, and
    [-0] counts as smaller than [+0]. *)
Definition float_max (a b : float) : float :=
  if (PrimFloat.is_nan a || PrimFloat.is_nan b)%bool then PrimFloat.nan
  else if PrimFloat.ltb a b then b
  else if PrimFloat.ltb b a then a
  else match PrimFloat.classify a with FloatClass.NZero => b | _ => a end.

Definition float_min (a b : float) : float :=
  if (PrimFloat.is_nan a || PrimFloat.is_nan b)%bool then PrimFloat.nan
  else if PrimFloat.ltb a b then a
  else if PrimFloat.ltb b a then b
  else match PrimFloat.classify a with FloatClass.NZero => a | _ => b end.

#[local] Set Warnings "-inexact-float".

(** The decimal literals denote the nearest binary64 value, as in the source.
    [Math.pow(v, 2)] is taken as [v * v]. *)
Definition Binary64 : Arith := {|
  num := float;
  zero := 0%float;
  step := 0.5%float;
  epsilon := 1e-10%float;
  of_nat := fun n => PrimFloat.of_uint63 (Uint63.of_Z (Z.of_nat n));
  add := PrimFloat.add;
  sub := PrimFloat.sub;
  mul := PrimFloat.mul;
  div := PrimFloat.div;
  Math_pow2 := fun v => PrimFloat.mul v v;
  Math_abs := PrimFloat.abs;
  Math_sqrt := PrimFloat.sqrt;
  Math_max := float_max;
  Math_min := float_min;
  eqb := PrimFloat.eqb;
  leb := PrimFloat.leb
|}.

(** A value is finite when it is neither [NaN] nor an infinity. *)
Definition float_finite (f : float) : bool :=
  negb (PrimFloat.is_nan f || PrimFloat.is_infinity f).

(** A flat spectrum and a rising one on the grid 200, 201, and the three
    aligned points they give at 200, 200.5 and 201. *)
Definition flat_spectrum : list (DataPoint Binary64) :=
  [ Build_DataPoint Binary64 200%float 0.07%float;
    Build_DataPoint Binary64 201%float 0.07%float ].
Definition rising_spectrum : list (DataPoint Binary64) :=
  [ Build_DataPoint Binary64 200%float 0%float;
    Build_DataPoint Binary64 201%float 0.2%float ].
Definition flat_against_rising : list (AlignedPair Binary64) :=
  [ Build_AlignedPair Binary64 200%float 0.07%float 0%float;
    Build_AlignedPair Binary64 200.5%float 0.07%float 0.1%float;
    Build_AlignedPair Binary64 201%float 0.07%float 0.2%float ].

(** The settings after these two files are loaded: range [200, 300], raw
    data, no smoothing. *)
Definition initial_settings : Settings Binary64 :=
  Build_Settings Binary64 200%float 300%float none false 5%Z.

(** One aligned point with the values 1 and 3. *)
Definition one_against_three : list (AlignedPair Binary64) :=
  [ Build_AlignedPair Binary64 200%float 1%float 3%float ].

#[local] Set Warnings "+inexact-float".

(** ** Specification-side notions *)

(** The sum of a list of reals. *)
Definition Rsum (l : list R) : R := fold_right Rplus 0%R l.

(** The L1 norm: the sum of the absolute values. *)
Definition l1norm (v : list R) : R := Rsum (map Rabs v).

(** The mean of the elements of [v] that exist at the indices of
    [[i - h, i + h]], the interval being clipped to the bounds of [v]. *)
Definition clippedMean (v : list R) (h i : Z) : R :=
  let lo := Z.max 0 (i - h) in
  let hi := Z.min (Z.of_nat (length v) - 1) (i + h) in
  (Rsum (map (fun k => nth (Z.to_nat k) v 0%R) (Zrange lo hi)) / IZR (hi - lo + 1))%R.

(** Exchanging the two series of an aligned sequence. *)
Definition swapSeries {A : Arith} (common : list (AlignedPair A)) : list (AlignedPair A) :=
  map (fun p => Build_AlignedPair A (x p) (yB p) (yA p)) common.

(** The settings [cfg] with another normalization policy. *)
Definition withMethod {A : Arith} (cfg : Settings A) (m : NormalizationMethod)
  : Settings A :=
  Build_Settings A (rangeMin cfg) (rangeMax cfg) m
                 (smoothingEnabled cfg) (smoothingWindow cfg).

(** The policy the two distance metrics are to run under when the caller
    selected [m]. *)
Definition distancePolicy (m : NormalizationMethod) : NormalizationMethod :=
  match m with
  | none => area
  | area => area
  | minmax => minmax
  end.

(** The spectra of the non-overlap scenario: [(200, 0.1), (210, 0.3)] against
    [(250, 0.2), (260, 0.4)]. *)
Definition spectrum_200_210 : list (DataPoint ExactR) :=
  [ Build_DataPoint ExactR 200%R (1 / 10)%R;
    Build_DataPoint ExactR 210%R (3 / 10)%R ].
Definition spectrum_250_260 : list (DataPoint ExactR) :=
  [ Build_DataPoint ExactR 250%R (2 / 10)%R;
    Build_DataPoint ExactR 260%R (4 / 10)%R ].
Definition sample_low : WaterSample ExactR :=
  Build_WaterSample ExactR "s1" "low" spectrum_200_210 "#2563eb".
Definition sample_high : WaterSample ExactR :=
  Build_WaterSample ExactR "s2" "high" spectrum_250_260 "#dc2626".
Definition default_settings : Settings ExactR :=
  Build_Settings ExactR 0%R 300%R none false 5%Z.

(** [m] is the least, respectively the greatest, element of [v]. *)
Definition isMin (v : list R) (m : R) : Prop :=
  In m v /\ forall t, In t v -> (m <= t)%R.
Definition isMax (v : list R) (m : R) : Prop :=
  In m v /\ forall t, In t v -> (t <= m)%R.

(** [n * sum(t^2) - sum(t)^2], the variance of the series up to the factor
    [n^2]. *)
Definition spread (l : list R) : R :=
  (INR (length l) * Rsum (map (fun t => t * t) l) - Rsum l * Rsum l)%R.

(** The index test of the inner loop of the smoother. *)
Definition inBounds (n : nat) (j : Z) : bool :=
  ((0 <=? j)%Z && (j <? Z.of_nat n)%Z)%bool.

(** The value of [calculatePearson] in terms of the number of points and of
    the five sums, and of [calculateCosineSimilarity] in terms of its three
    sums. *)
Definition pearsonFormula (n : nat) (sA sB sAA sBB sAB : R) : R :=
  if (n <? 2)%nat then 0%R
  else
    let den := R_sqrt.sqrt ((INR n * sAA - sA * sA) * (INR n * sBB - sB * sB)) in
    if Req_bool den 0 then 0%R else ((INR n * sAB - sA * sB) / den)%R.

Definition cosineFormula (sAA sBB sAB : R) : R :=
  if (Req_bool (R_sqrt.sqrt sAA) 0 || Req_bool (R_sqrt.sqrt sBB) 0)%bool then 0%R
  else (sAB / (R_sqrt.sqrt sAA * R_sqrt.sqrt sBB))%R.

(** Two aligned points on which the two series coincide. *)
Definition identical_series : list (AlignedPair ExactR) :=
  [ Build_AlignedPair ExactR 200%R 0%R 0%R;
    Build_AlignedPair ExactR (401 / 2)%R 1%R 1%R ].

(** ** Further specification-side notions *)

(** The number of grid points [minW, minW + 0.5, ...] that do not exceed
    [maxW]: [floor(2 * (maxW - minW)) + 1] when [minW <= maxW], else 0
    ([up r] is the integer with [r < up r <= r + 1]). *)
Definition gridSize (minW maxW : R) : nat := Z.to_nat (up (2 * (maxW - minW))).

(** The aligned point at wavelength [w], and the first [n] points of the
    grid that starts at [minW]. *)
Definition gridPoint (dataA dataB : list (DataPoint ExactR)) (w : R)
  : AlignedPair ExactR :=
  Build_AlignedPair ExactR w (interpolate ExactR dataA w) (interpolate ExactR dataB w).

Definition gridPoints (dataA dataB : list (DataPoint ExactR)) (minW : R) (n : nat)
  : list (AlignedPair ExactR) :=
  map (fun k => gridPoint dataA dataB (minW + INR k * / 2)%R) (seq 0 n).

(** The wavelengths of [data] increase strictly. *)
Definition strictlyIncreasing (data : list (DataPoint ExactR)) : Prop :=
  forall i j : nat, (i < j < length data)%nat ->
    (wavelength (point_at ExactR data (Z.of_nat i))
     < wavelength (point_at ExactR data (Z.of_nat j)))%R.

(** A spectrum on the grid 200, 201, 202. *)
Definition spectrum_200_202 : list (DataPoint ExactR) :=
  [ Build_DataPoint ExactR 200%R (1 / 10)%R;
    Build_DataPoint ExactR 201%R (3 / 10)%R;
    Build_DataPoint ExactR 202%R (2 / 10)%R ].

(** The sum of the squared differences of the first [n] entries of two
    sequences. *)
Definition sumSquaredDiff (a b : list R) (n : nat) : R :=
  Rsum (map (fun i => (nth i a 0 - nth i b 0) ^ 2)%R (seq 0 n)).

(** The first series of an aligned sequence under a gain [c] and an offset
    [d]. *)
Definition gainOffset (c d : R) (common : list (AlignedPair ExactR))
  : list (AlignedPair ExactR) :=
  map (fun p : AlignedPair ExactR =>
         Build_AlignedPair ExactR (x p) (c * yA p + d)%R (yB p)) common.

(** Three aligned points: 1, 2, 4 against 2, 1, 5. *)
Definition three_points : list (AlignedPair ExactR) :=
  [ Build_AlignedPair ExactR 200%R 1%R 2%R;
    Build_AlignedPair ExactR (401 / 2)%R 2%R 1%R;
    Build_AlignedPair ExactR 201%R 4%R 5%R ].

Arguments sampleA {A} _.
Arguments sampleB {A} _.
Arguments pearson {A} _.
Arguments cosine {A} _.
Arguments sid {A} _.
Arguments color {A} _.

(** Sample [sA] stands strictly before sample [sB] in [samples]. *)
Definition standsBefore {A : Arith} (samples : list (WaterSample A))
           (sA sB : WaterSample A) : Prop :=
  exists l1 l2 l3, samples = l1 ++ sA :: l2 ++ sB :: l3.

(** Finite points, samples, settings and results as values of the checked
    model. *)
Definition finitePoint (p : DataPoint ExactR) : DataPoint Checked :=
  Build_DataPoint Checked (Some (wavelength p)) (Some (absorption p)).

Definition finiteSample (s : WaterSample ExactR) : WaterSample Checked :=
  Build_WaterSample Checked (id ExactR s) (name s) (map finitePoint (data s)) (color s).

Definition finiteSettings (cfg : Settings ExactR) : Settings Checked :=
  Build_Settings Checked (Some (rangeMin cfg)) (Some (rangeMax cfg)) (normMethod cfg)
                 (smoothingEnabled cfg) (smoothingWindow cfg).

Definition finiteResult (e : SimilarityResult ExactR) : SimilarityResult Checked :=
  Build_SimilarityResult Checked (sampleA e) (sampleB e) (Some (pearson e))
                         (Some (rmse e)) (Some (euclidean e)) (Some (cosine e))
                         (Some (sid e)).

(** ** The data summary of getAIAnalysis (services/geminiService.ts) *)

Section Summary.

Variable A : Arith.

(** [Math.max(...s.data.map(d => d.absorption))]; [None] stands for the
    [-Infinity] that [Math.max] yields on no argument. *)
Definition maxAbsorption (data : list (DataPoint A)) : option (num A) :=
  match map absorption data with
  | [] => None
  | a0 :: rest => Some (maxOf A a0 rest)
  end.

(** [s.data.find(d => d.absorption === maxAbs)?.wavelength]; [None] stands
    for [undefined]. *)
Definition peakWavelength (data : list (DataPoint A)) : option (num A) :=
  match maxAbsorption data with
  | None => None
  | Some maxAbs =>
      option_map wavelength (find (fun d => eqb A (absorption d) maxAbs) data)
  end.

End Summary.

(** ** mergedChartData (App.tsx), read in exact arithmetic

    The wavelength axis and the series of one sample.  The rows, objects
    keyed by the sample names, are not modelled. *)

(** [Array.from(new Set(ws))]: the values in the order of their first
    occurrence. *)
Definition setOf (ws : list R) : list R :=
  fold_left (fun acc w => if existsb (Req_bool w) acc then acc else acc ++ [w]) ws [].

(** [.sort((a, b) => a - b)]: the ascending order of the numbers; the result
    of the built-in sort is this one whatever algorithm the engine uses. *)
Fixpoint insertSorted (w : R) (l : list R) : list R :=
  match l with
  | [] => [w]
  | v :: rest => if Rle_bool w v then w :: l else v :: insertSorted w rest
  end.

Definition sortNumbers (l : list R) : list R := fold_right insertSorted [] l.

Definition allWavelengths (cfg : Settings ExactR) (samples : list (WaterSample ExactR))
  : list R :=
  sortNumbers
    (filter (fun w => (Rle_bool (rangeMin cfg) w
                       && Rle_bool w (Rmin (rangeMax cfg) (MAX_ALLOWED_WAVELENGTH ExactR)))%bool)
            (setOf (flat_map (fun s : WaterSample ExactR => map wavelength (data s))
                             samples))).

(** The value charted for sample [s] at wavelength [w]: the absorption of
    the first point of [s] at exactly [w], and 0 when there is none. *)
Definition chartValue (s : WaterSample ExactR) (w : R) : R :=
  match find (fun d : DataPoint ExactR => Req_bool (wavelength d) w) (data s) with
  | Some found => absorption found
  | None => 0%R
  end.

Definition chartSeries (cfg : Settings ExactR) (allW : list R) (s : WaterSample ExactR)
  : list R :=
  let absValues := map (chartValue s) allW in
  let absValues := if smoothingEnabled cfg
                   then applyMovingAverage ExactR absValues (smoothingWindow cfg)
                   else absValues in
  if NormalizationMethod_eqb (normMethod cfg) none then absValues
  else normalizeValues ExactR absValues (normMethod cfg).

(** Every element is smaller than all the elements after it. *)
Fixpoint strictlyAscending (l : list R) : Prop :=
  match l with
  | [] => True
  | a :: rest => (forall b, In b rest -> (a < b)%R) /\ strictlyAscending rest
  end.

(** Two samples on the grids 200, 201, 202 and 201, 203. *)
Definition sample_a : WaterSample ExactR :=
  Build_WaterSample ExactR "a1" "a" spectrum_200_202 "#2563eb".
Definition sample_b : WaterSample ExactR :=
  Build_WaterSample ExactR "b1" "b"
    [ Build_DataPoint ExactR 201%R (5 / 10)%R;
      Build_DataPoint ExactR 203%R (6 / 10)%R ] "#dc2626".

(** Aligned sequences with a single point, with a first series that is
    identically 0, and with a second series that is identically 0. *)
Definition single_point : list (AlignedPair ExactR) :=
  [ Build_AlignedPair ExactR 200%R 1%R 2%R ].
Definition zero_first : list (AlignedPair ExactR) :=
  [ Build_AlignedPair ExactR 200%R 0%R 2%R;
    Build_AlignedPair ExactR 201%R 0%R 5%R ].
Definition zero_second : list (AlignedPair ExactR) :=
  [ Build_AlignedPair ExactR 200%R 2%R 0%R;
    Build_AlignedPair ExactR 201%R 5%R 0%R ].

(** * Properties *)

(** Reading the operations of [ExactR] as the operations of [R]. *)
Ltac exact_arith :=
  cbn [ExactR num zero step epsilon of_nat add sub mul div Math_pow2 Math_abs
       Math_sqrt Math_max Math_min eqb leb] in *.

(** Likewise for [Checked]. *)
Ltac checked_arith :=
  cbn [Checked num zero step epsilon of_nat add sub mul div Math_pow2 Math_abs
       Math_sqrt Math_max Math_min eqb leb lift1 lift2 liftb] in *.

(** ** The embedding runs

    A few evaluations in binary64. *)

Example applyMovingAverage_runs :
  applyMovingAverage Binary64 [1; 3; 5; 7]%float 3 = [2; 3; 5; 6]%float.
Proof. vm_compute. reflexivity. Qed.

Example normalizeValues_runs :
  normalizeValues Binary64 [1; -3]%float area = [0.25; -0.75]%float
  /\ normalizeValues Binary64 [1; 3; 2]%float minmax = [0; 1; 0.5]%float
  /\ normalizeValues Binary64 [2; 2]%float minmax = [0; 0]%float
  /\ normalizeValues Binary64 [0; 0]%float area = [0; 0]%float.
Proof. repeat split; vm_compute; reflexivity. Qed.

(** [calculateRMSE] and [calculateEuclidean] themselves run on the raw
    values under [none]: the substitution of [area] is made by their caller,
    [similarityMatrix]. *)
Example distance_metrics_raw_under_none :
  calculateRMSE Binary64 one_against_three none = 2%float
  /\ calculateRMSE Binary64 one_against_three area = 0%float
  /\ calculateEuclidean Binary64 one_against_three none = 2%float
  /\ calculateEuclidean Binary64 one_against_three area = 0%float.
Proof. repeat split; vm_compute; reflexivity. Qed.

(** ** Index ranges *)

Lemma Zrange_nil (lo hi : Z) : (hi < lo)%Z -> Zrange lo hi = [].
Proof.
  intros H. unfold Zrange.
  replace (Z.to_nat (hi - lo + 1)) with 0%nat by lia. reflexivity.
Qed.

Lemma Zrange_cons (lo hi : Z) :
  (lo <= hi)%Z -> Zrange lo hi = lo :: Zrange (lo + 1) hi.
Proof.
  intros H. unfold Zrange.
  replace (Z.to_nat (hi - lo + 1)) with (S (Z.to_nat (hi - (lo + 1) + 1))) by lia.
  rewrite <- cons_seq, <- seq_shift, map_cons, map_map.
  f_equal; [lia|].
  apply map_ext. intros k. lia.
Qed.

Lemma Zrange_length (lo hi : Z) : length (Zrange lo hi) = Z.to_nat (hi - lo + 1).
Proof. unfold Zrange. now rewrite length_map, length_seq. Qed.

Lemma Zrange_nth (lo hi : Z) (k : nat) (d : Z) :
  (k < Z.to_nat (hi - lo + 1))%nat -> nth k (Zrange lo hi) d = (lo + Z.of_nat k)%Z.
Proof.
  intros H. unfold Zrange.
  rewrite nth_indep with (d' := (lo + Z.of_nat 0)%Z) by now rewrite length_map, length_seq.
  rewrite (map_nth (fun k => (lo + Z.of_nat k)%Z)), seq_nth by assumption.
  reflexivity.
Qed.

(** ** The smoother *)

Section Smoother.

Variable A : Arith.

Lemma applyMovingAverage_length (values : list (num A)) (window : Z) :
  length (applyMovingAverage A values window) = length values.
Proof.
  unfold applyMovingAverage.
  destruct ((window <=? 1)%Z || (length values =? 0)%nat)%bool; [reflexivity|].
  rewrite length_map, Zrange_length. lia.
Qed.

Lemma applyMovingAverage_small_window (values : list (num A)) (window : Z) :
  (window <= 1)%Z -> applyMovingAverage A values window = values.
Proof.
  intros H. unfold applyMovingAverage.
  replace (window <=? 1)%Z with true by (symmetry; now apply Z.leb_le).
  reflexivity.
Qed.

Lemma applyMovingAverage_empty (window : Z) :
  applyMovingAverage A [] window = [].
Proof. unfold applyMovingAverage. now rewrite orb_true_r. Qed.

Lemma even_window_half (w : Z) : Z.even w = true -> ((w + 1) / 2 = w / 2)%Z.
Proof.
  intros H. apply Z.even_spec in H. destruct H as [k ->].
  replace (2 * k + 1)%Z with (1 + k * 2)%Z by lia.
  replace (2 * k)%Z with (0 + k * 2)%Z by lia.
  now rewrite !Z.div_add.
Qed.

End Smoother.

(** C10: an even window size of at least 2 is accepted and smooths exactly
    like the next odd size, in every number model: the half-width is
    [floor(window / 2)]. *)
Theorem applyMovingAverage_even_window
  (A : Arith) (values : list (num A)) (w : Z) :
  Z.even w = true -> (2 <= w)%Z ->
  applyMovingAverage A values w = applyMovingAverage A values (w + 1).
Proof.
  intros Heven Hw. unfold applyMovingAverage.
  replace (w <=? 1)%Z with false by (symmetry; apply Z.leb_gt; lia).
  replace (w + 1 <=? 1)%Z with false by (symmetry; apply Z.leb_gt; lia).
  now rewrite even_window_half.
Qed.

(** ** Sums of reals *)

Lemma fold_left_Rsum {T : Type} (f : T -> R) (l : list T) (s : R) :
  fold_left (fun a p => a + f p)%R l s = (s + Rsum (map f l))%R.
Proof.
  revert s. induction l as [|p l IH]; intros s; simpl.
  - lra.
  - rewrite IH. lra.
Qed.

Lemma Rsum_nonneg (l : list R) : Forall (fun v => 0 <= v)%R l -> (0 <= Rsum l)%R.
Proof.
  induction 1 as [|a l Ha _ IH]; simpl; [lra | lra].
Qed.

Lemma Rsum_zero (l : list R) : Forall (fun v => v = 0%R) l -> Rsum l = 0%R.
Proof.
  induction 1 as [|a l Ha _ IH]; simpl; [reflexivity | lra].
Qed.

Lemma Rsum_nonneg_zero (l : list R) :
  Forall (fun v => 0 <= v)%R l -> Rsum l = 0%R -> Forall (fun v => v = 0%R) l.
Proof.
  induction 1 as [|a l Ha Hl IH]; simpl; intros Hs; constructor.
  - pose proof (Rsum_nonneg l Hl). lra.
  - apply IH. pose proof (Rsum_nonneg l Hl). lra.
Qed.

Lemma Rsum_map_scale (c : R) (l : list R) :
  Rsum (map (fun v => v * c)%R l) = (Rsum l * c)%R.
Proof. induction l as [|a l IH]; simpl; [lra | rewrite IH; lra]. Qed.

(** ** The smoother in exact arithmetic *)

Lemma windowStep_fold (values : list R) (l : list Z) (s : R) (c : nat) :
  fold_left (windowStep ExactR values) l (s, c) =
  ((s + Rsum (map (fun j => nth (Z.to_nat j) values 0%R)
                  (filter (inBounds (length values)) l)))%R,
   (c + length (filter (inBounds (length values)) l))%nat).
Proof.
  revert s c. induction l as [|j l IH]; intros s c.
  - simpl. f_equal; [lra | lia].
  - cbn [fold_left filter].
    replace (windowStep ExactR values (s, c) j)
      with (if inBounds (length values) j
            then ((s + nth (Z.to_nat j) values 0)%R, S c) else (s, c))
      by reflexivity.
    destruct (inBounds (length values) j); rewrite IH; simpl; f_equal; try lra; lia.
Qed.

Lemma filter_inBounds_Zrange (n : nat) (lo hi : Z) :
  filter (inBounds n) (Zrange lo hi) =
  Zrange (Z.max 0 lo) (Z.min (Z.of_nat n - 1) hi).
Proof.
  remember (Z.to_nat (hi - lo + 1)) as k eqn:Hk.
  revert lo Hk. induction k as [|k IH]; intros lo Hk.
  - rewrite (Zrange_nil lo hi) by lia. simpl.
    symmetry. apply Zrange_nil. lia.
  - rewrite (Zrange_cons lo hi) by lia. simpl.
    rewrite (IH (lo + 1)%Z) by lia.
    unfold inBounds.
    destruct (Z.leb_spec 0 lo); destruct (Z.ltb_spec lo (Z.of_nat n)); simpl.
    + rewrite (Zrange_cons (Z.max 0 lo)) by lia.
      f_equal; [lia | f_equal; lia].
    + rewrite !Zrange_nil by lia. reflexivity.
    + f_equal; lia.
    + f_equal; lia.
Qed.

Lemma nth_map_Zrange {T : Type} (f : Z -> T) (lo hi : Z) (k : nat) (d : T) :
  (k < Z.to_nat (hi - lo + 1))%nat ->
  nth k (map f (Zrange lo hi)) d = f (lo + Z.of_nat k)%Z.
Proof.
  intros H.
  rewrite nth_indep with (d' := f 0%Z) by now rewrite length_map, Zrange_length.
  now rewrite map_nth, Zrange_nth.
Qed.

Lemma windowed_element (v : list R) (h i : Z) :
  let acc := fold_left (windowStep ExactR v) (Zrange (i - h) (i + h)) (0%R, 0%nat) in
  (0 <= h)%Z -> (0 <= i < Z.of_nat (length v))%Z ->
  (fst acc / INR (snd acc))%R = clippedMean v h i.
Proof.
  intros acc Hh Hi. subst acc.
  rewrite windowStep_fold, filter_inBounds_Zrange. simpl fst. simpl snd.
  unfold clippedMean. rewrite Zrange_length, Rplus_0_l.
  rewrite INR_IZR_INZ, Z2Nat.id by lia. reflexivity.
Qed.

(** C6: the smoother keeps the length; for a window size that is not
    negative, element [i] is the mean of the elements that exist at the
    indices of [[i - floor(window/2), i + floor(window/2)]], clipped to the
    bounds of the sequence; a window of at most 1 and the empty input leave
    the input as it is. *)
Theorem applyMovingAverage_clipped_mean (v : list R) (window : Z) :
  length (applyMovingAverage ExactR v window) = length v
  /\ ((0 <= window)%Z ->
      forall i : nat, (i < length v)%nat ->
        nth i (applyMovingAverage ExactR v window) 0%R
        = clippedMean v (window / 2) (Z.of_nat i))
  /\ ((window <= 1)%Z -> applyMovingAverage ExactR v window = v)
  /\ applyMovingAverage ExactR [] window = [].
Proof.
  split; [apply applyMovingAverage_length|].
  split; [|split; [apply applyMovingAverage_small_window
                  | apply applyMovingAverage_empty]].
  intros Hw i Hi.
  destruct (Z.leb_spec window 1) as [Hsmall|Hbig].
  - rewrite applyMovingAverage_small_window by assumption.
    assert (Hh : (window / 2 = 0)%Z) by (apply Z.div_small; lia).
    rewrite Hh. unfold clippedMean.
    replace (Z.max 0 (Z.of_nat i - 0)) with (Z.of_nat i) by lia.
    replace (Z.min (Z.of_nat (length v) - 1) (Z.of_nat i + 0)) with (Z.of_nat i) by lia.
    rewrite (Zrange_cons (Z.of_nat i) (Z.of_nat i)), Zrange_nil by lia.
    replace (Z.of_nat i - Z.of_nat i + 1)%Z with 1%Z by lia.
    simpl. rewrite Nat2Z.id. lra.
  - unfold applyMovingAverage.
    replace (window <=? 1)%Z with false by (symmetry; apply Z.leb_gt; lia).
    exact_arith.
    replace (length v =? 0)%nat with false by (symmetry; apply Nat.eqb_neq; lia).
    cbn [orb].
    rewrite nth_map_Zrange by lia.
    rewrite Z.add_0_l.
    apply (windowed_element v (window / 2) (Z.of_nat i)).
    + apply Z.div_pos; lia.
    + lia.
Qed.

(** ** The normalizer in exact arithmetic *)

Lemma Req_bool_true (a b : R) : a = b -> Req_bool a b = true.
Proof. intros H. unfold Req_bool. destruct (Req_dec_T a b); [reflexivity | contradiction]. Qed.

Lemma Req_bool_false (a b : R) : a <> b -> Req_bool a b = false.
Proof. intros H. unfold Req_bool. destruct (Req_dec_T a b); [contradiction | reflexivity]. Qed.

Lemma Rle_bool_true (a b : R) : (a <= b)%R -> Rle_bool a b = true.
Proof. intros H. unfold Rle_bool. destruct (Rle_dec a b); [reflexivity | contradiction]. Qed.

Lemma Rle_bool_false (a b : R) : (b < a)%R -> Rle_bool a b = false.
Proof. intros H. unfold Rle_bool. destruct (Rle_dec a b); [lra | reflexivity]. Qed.

Lemma l1norm_nonneg (v : list R) : (0 <= l1norm v)%R.
Proof.
  unfold l1norm. apply Rsum_nonneg, Forall_forall.
  intros t Ht. apply in_map_iff in Ht. destruct Ht as [u [<- _]]. apply Rabs_pos.
Qed.

Lemma l1norm_scale (v : list R) (s : R) :
  (0 < s)%R -> l1norm (map (fun t => t / s)%R v) = (l1norm v / s)%R.
Proof.
  intros Hs. unfold l1norm. rewrite map_map.
  rewrite (map_ext (fun t => Rabs (t / s)) (fun t => Rabs t * / s)%R).
  - rewrite <- (map_map Rabs (fun t => t * / s)%R), Rsum_map_scale. reflexivity.
  - intros t. unfold Rdiv. rewrite Rabs_mult, (Rabs_right (/ s)); [reflexivity|].
    apply Rle_ge, Rlt_le, Rinv_0_lt_compat, Hs.
Qed.

Lemma normalizeValues_area_eq (v : list R) :
  normalizeValues ExactR v area =
  if Req_bool (l1norm v) 0 then v else map (fun t => t / l1norm v)%R v.
Proof.
  destruct v as [|v0 vs].
  - simpl. now destruct (Req_bool _ _).
  - unfold normalizeValues. exact_arith.
    rewrite (fold_left_Rsum Rabs), Rplus_0_l. reflexivity.
Qed.

(** C4: area normalization divides every element by the L1 norm of the input
    and yields a sequence of L1 norm 1, unless the L1 norm of the input is 0,
    in which case the input is returned as it is. *)
Theorem normalizeValues_area_unit_norm (v : list R) :
  (l1norm v <> 0%R ->
     normalizeValues ExactR v area = map (fun t => t / l1norm v)%R v
     /\ l1norm (normalizeValues ExactR v area) = 1%R)
  /\ (l1norm v = 0%R -> normalizeValues ExactR v area = v).
Proof.
  rewrite normalizeValues_area_eq. split.
  - intros Hs. rewrite Req_bool_false by assumption. split; [reflexivity|].
    pose proof (l1norm_nonneg v).
    rewrite l1norm_scale by lra. now field.
  - intros Hs. now rewrite Req_bool_true.
Qed.

Lemma minOf_spec (v0 : R) (vs : list R) : isMin (v0 :: vs) (minOf ExactR v0 vs).
Proof.
  unfold minOf. exact_arith. revert v0.
  induction vs as [|a vs IH]; intros v0.
  - simpl. split; [now left|]. intros t [<-|[]]. lra.
  - cbn [fold_left]. destruct (IH (Rmin v0 a)) as [Hin Hle]. split.
    + destruct Hin as [Hin|Hin]; [|now right; right].
      rewrite <- Hin. unfold Rmin. destruct (Rle_dec v0 a); [now left|now right; left].
    + intros t Ht.
      assert (Hm : (fold_left Rmin vs (Rmin v0 a) <= Rmin v0 a)%R) by (apply Hle; now left).
      destruct Ht as [<-|[<-|Ht]].
      * pose proof (Rmin_l v0 a). lra.
      * pose proof (Rmin_r v0 a). lra.
      * apply Hle. now right.
Qed.

Lemma maxOf_spec (v0 : R) (vs : list R) : isMax (v0 :: vs) (maxOf ExactR v0 vs).
Proof.
  unfold maxOf. exact_arith. revert v0.
  induction vs as [|a vs IH]; intros v0.
  - simpl. split; [now left|]. intros t [<-|[]]. lra.
  - cbn [fold_left]. destruct (IH (Rmax v0 a)) as [Hin Hle]. split.
    + destruct Hin as [Hin|Hin]; [|now right; right].
      rewrite <- Hin. unfold Rmax. destruct (Rle_dec v0 a); [now right; left|now left].
    + intros t Ht.
      assert (Hm : (Rmax v0 a <= fold_left Rmax vs (Rmax v0 a))%R) by (apply Hle; now left).
      destruct Ht as [<-|[<-|Ht]].
      * pose proof (Rmax_l v0 a). lra.
      * pose proof (Rmax_r v0 a). lra.
      * apply Hle. now right.
Qed.

Lemma isMin_unique (v : list R) (m m' : R) : isMin v m -> isMin v m' -> m = m'.
Proof. intros [Hi Hl] [Hi' Hl']. apply Rle_antisym; auto. Qed.

Lemma isMax_unique (v : list R) (m m' : R) : isMax v m -> isMax v m' -> m = m'.
Proof. intros [Hi Hl] [Hi' Hl']. apply Rle_antisym; auto. Qed.

Lemma normalizeValues_minmax_eq (v0 : R) (vs : list R) :
  let mn := minOf ExactR v0 vs in
  let mx := maxOf ExactR v0 vs in
  normalizeValues ExactR (v0 :: vs) minmax =
  if Req_bool (mx - mn) 0 then map (fun _ => 0%R) (v0 :: vs)
  else map (fun t => (t - mn) / (mx - mn))%R (v0 :: vs).
Proof. reflexivity. Qed.

(** C5: on a non-empty sequence with least element [mn] and greatest element
    [mx], min-max normalization maps every element [t] to
    [(t - mn) / (mx - mn)] when [mx <> mn], and the output then lies in
    [[0, 1]] and contains both 0 and 1; when [mx = mn] every output element
    is 0. *)
Theorem normalizeValues_minmax_range (v : list R) (mn mx : R) :
  v <> [] -> isMin v mn -> isMax v mx ->
  (mx <> mn ->
     normalizeValues ExactR v minmax = map (fun t => (t - mn) / (mx - mn))%R v
     /\ isMin (normalizeValues ExactR v minmax) 0%R
     /\ isMax (normalizeValues ExactR v minmax) 1%R)
  /\ (mx = mn -> normalizeValues ExactR v minmax = map (fun _ => 0%R) v).
Proof.
  intros Hne Hmin Hmax. destruct v as [|v0 vs]; [congruence|].
  rewrite normalizeValues_minmax_eq.
  rewrite <- (isMin_unique _ _ _ Hmin (minOf_spec v0 vs)).
  rewrite <- (isMax_unique _ _ _ Hmax (maxOf_spec v0 vs)).
  split.
  - intros Hd. rewrite Req_bool_false by lra.
    assert (Hlt : (mn < mx)%R).
    { destruct Hmin as [Hin Hle]. destruct Hmax as [_ Hge].
      pose proof (Hge mn Hin). lra. }
    split; [reflexivity|]. split; split.
    + apply in_map_iff. exists mn. split; [field; lra | apply Hmin].
    + intros y Hy. apply in_map_iff in Hy. destruct Hy as [t [<- Ht]].
      apply Rmult_le_pos.
      * destruct Hmin as [_ Hle]. specialize (Hle t Ht). lra.
      * apply Rlt_le, Rinv_0_lt_compat. lra.
    + apply in_map_iff. exists mx. split; [field; lra | apply Hmax].
    + intros y Hy. apply in_map_iff in Hy. destruct Hy as [t [<- Ht]].
      destruct Hmax as [_ Hge]. specialize (Hge t Ht).
      apply Rmult_le_reg_r with (r := (mx - mn)%R); [lra|].
      unfold Rdiv. rewrite Rmult_assoc, Rinv_l by lra. lra.
  - intros ->. rewrite Req_bool_true by lra. reflexivity.
Qed.

(** ** Sums of squares *)

Lemma Rsum_sq_dist (a : R) (l : list R) :
  Rsum (map (fun t => (t - a) * (t - a))%R l) =
  (Rsum (map (fun t => t * t) l) - 2 * a * Rsum l + INR (length l) * (a * a))%R.
Proof.
  induction l as [|t l IH].
  - simpl. lra.
  - cbn [map Rsum fold_right length]. fold (Rsum (map (fun t => (t - a) * (t - a))%R l)).
    fold (Rsum (map (fun t => t * t)%R l)). fold (Rsum l).
    rewrite IH, S_INR. ring.
Qed.

Lemma sq_dist_nonneg (a : R) (l : list R) :
  Forall (fun v => 0 <= v)%R (map (fun t => (t - a) * (t - a))%R l).
Proof.
  apply Forall_forall. intros v Hv. apply in_map_iff in Hv.
  destruct Hv as [t [<- _]]. apply Rle_0_sqr.
Qed.

Lemma spread_cons (a : R) (l : list R) :
  spread (a :: l) = (spread l + Rsum (map (fun t => (t - a) * (t - a)) l))%R.
Proof.
  rewrite Rsum_sq_dist. unfold spread.
  cbn [map Rsum fold_right length].
  fold (Rsum (map (fun t => t * t)%R l)). fold (Rsum l).
  rewrite S_INR. ring.
Qed.

Lemma spread_nonneg (l : list R) : (0 <= spread l)%R.
Proof.
  induction l as [|a l IH].
  - unfold spread. simpl. lra.
  - rewrite spread_cons.
    pose proof (Rsum_nonneg _ (sq_dist_nonneg a l)). lra.
Qed.

Lemma spread_zero_constant (l : list R) :
  spread l = 0%R -> forall s t, In s l -> In t l -> s = t.
Proof.
  induction l as [|a l IH]; intros Hz s t Hs Ht; [contradiction|].
  rewrite spread_cons in Hz.
  pose proof (spread_nonneg l) as Hl.
  pose proof (Rsum_nonneg _ (sq_dist_nonneg a l)) as Hd.
  assert (Hall : forall u, In u l -> u = a).
  { intros u Hu.
    assert (Hzero : Rsum (map (fun t => (t - a) * (t - a))%R l) = 0%R) by lra.
    pose proof (Rsum_nonneg_zero _ (sq_dist_nonneg a l) Hzero) as Hf.
    rewrite Forall_forall in Hf.
    assert (Hsq : ((u - a) * (u - a) = 0)%R).
    { apply Hf. apply in_map_iff. now exists u. }
    destruct (Rmult_integral _ _ Hsq); lra. }
  destruct Hs as [<-|Hs]; destruct Ht as [<-|Ht].
  - reflexivity.
  - symmetry. now apply Hall.
  - now apply Hall.
  - rewrite (Hall s Hs), (Hall t Ht). reflexivity.
Qed.

Lemma sum_squares_nonneg (l : list R) : (0 <= Rsum (map (fun t => t * t) l))%R.
Proof.
  apply Rsum_nonneg, Forall_forall. intros v Hv. apply in_map_iff in Hv.
  destruct Hv as [t [<- _]]. cbv beta. nra.
Qed.

Lemma sum_squares_zero (l : list R) :
  Rsum (map (fun t => t * t)%R l) = 0%R -> forall t, In t l -> t = 0%R.
Proof.
  intros Hz t Ht.
  assert (Hf : Forall (fun v => 0 <= v)%R (map (fun t => t * t)%R l)).
  { apply Forall_forall. intros v Hv. apply in_map_iff in Hv.
    destruct Hv as [u [<- _]]. cbv beta. nra. }
  pose proof (Rsum_nonneg_zero _ Hf Hz) as Hall. rewrite Forall_forall in Hall.
  assert (Hsq : (t * t = 0)%R) by (apply Hall, in_map_iff; now exists t).
  nra.
Qed.

(** ** The metrics in exact arithmetic *)

Lemma calculatePearson_eq (common : list (AlignedPair ExactR)) :
  calculatePearson ExactR common =
  pearsonFormula (length common)
    (Rsum (map yA common)) (Rsum (map yB common))
    (Rsum (map (fun p : AlignedPair ExactR => yA p * yA p)%R common))
    (Rsum (map (fun p : AlignedPair ExactR => yB p * yB p)%R common))
    (Rsum (map (fun p : AlignedPair ExactR => yA p * yB p)%R common)).
Proof.
  unfold calculatePearson, pearsonFormula. exact_arith.
  rewrite (fold_left_Rsum (fun p : AlignedPair ExactR => yA p)).
  rewrite (fold_left_Rsum (fun p : AlignedPair ExactR => yB p)).
  rewrite (fold_left_Rsum (fun p : AlignedPair ExactR => yA p * yA p)%R).
  rewrite (fold_left_Rsum (fun p : AlignedPair ExactR => yB p * yB p)%R).
  rewrite (fold_left_Rsum (fun p : AlignedPair ExactR => yA p * yB p)%R).
  rewrite !Rplus_0_l. reflexivity.
Qed.

Lemma calculateCosineSimilarity_eq (common : list (AlignedPair ExactR)) :
  calculateCosineSimilarity ExactR common =
  cosineFormula
    (Rsum (map (fun p : AlignedPair ExactR => yA p * yA p)%R common))
    (Rsum (map (fun p : AlignedPair ExactR => yB p * yB p)%R common))
    (Rsum (map (fun p : AlignedPair ExactR => yA p * yB p)%R common)).
Proof.
  unfold calculateCosineSimilarity, cosineFormula. exact_arith.
  rewrite (fold_left_Rsum (fun p : AlignedPair ExactR => yA p * yA p)%R).
  rewrite (fold_left_Rsum (fun p : AlignedPair ExactR => yB p * yB p)%R).
  rewrite (fold_left_Rsum (fun p : AlignedPair ExactR => yA p * yB p)%R).
  rewrite !Rplus_0_l. reflexivity.
Qed.

Lemma pearsonFormula_sym (n : nat) (sA sB sAA sBB sAB : R) :
  pearsonFormula n sB sA sBB sAA sAB = pearsonFormula n sA sB sAA sBB sAB.
Proof.
  unfold pearsonFormula.
  rewrite (Rmult_comm (INR n * sBB - sB * sB)), (Rmult_comm sB sA). reflexivity.
Qed.

Lemma cosineFormula_sym (sAA sBB sAB : R) :
  cosineFormula sBB sAA sAB = cosineFormula sAA sBB sAB.
Proof.
  unfold cosineFormula.
  rewrite orb_comm, (Rmult_comm (R_sqrt.sqrt sBB)). reflexivity.
Qed.

Section SelfComparison.

Variable common : list (AlignedPair ExactR).
Hypothesis same : Forall (fun p : AlignedPair ExactR => yA p = yB p) common.

Lemma same_series : map yB common = map yA common.
Proof.
  apply map_ext_in. intros p Hp. rewrite Forall_forall in same.
  symmetry. now apply same.
Qed.

Lemma same_squares :
  map (fun p : AlignedPair ExactR => yB p * yB p)%R common
  = map (fun p : AlignedPair ExactR => yA p * yA p)%R common.
Proof.
  apply map_ext_in. intros p Hp. rewrite Forall_forall in same.
  now rewrite (same p Hp).
Qed.

Lemma same_products :
  map (fun p : AlignedPair ExactR => yA p * yB p)%R common
  = map (fun p : AlignedPair ExactR => yA p * yA p)%R common.
Proof.
  apply map_ext_in. intros p Hp. rewrite Forall_forall in same.
  now rewrite (same p Hp).
Qed.

Lemma spread_series :
  (INR (length common)
   * Rsum (map (fun p : AlignedPair ExactR => yA p * yA p)%R common)
   - Rsum (map yA common) * Rsum (map yA common))%R
  = spread (map yA common).
Proof. unfold spread. now rewrite map_map, length_map. Qed.

Lemma calculatePearson_self :
  (2 <= length common)%nat ->
  (exists p q, In p common /\ In q common /\ yA p <> yA q) ->
  calculatePearson ExactR common = 1%R.
Proof.
  intros Hn [p [q [Hp [Hq Hpq]]]].
  rewrite calculatePearson_eq. unfold pearsonFormula.
  replace (length common <? 2)%nat with false by (symmetry; apply Nat.ltb_ge; lia).
  rewrite same_series, same_squares, same_products, spread_series.
  pose proof (spread_nonneg (map yA common)) as Hpos.
  assert (Hnz : spread (map yA common) <> 0%R).
  { intros Hz. apply Hpq.
    apply (spread_zero_constant _ Hz); now apply in_map. }
  rewrite sqrt_square by assumption.
  rewrite Req_bool_false by assumption.
  exact_arith. now field.
Qed.

Lemma calculateCosineSimilarity_self :
  (exists p, In p common /\ yA p <> 0%R) ->
  calculateCosineSimilarity ExactR common = 1%R.
Proof.
  intros [p [Hp Hnz]].
  rewrite calculateCosineSimilarity_eq. unfold cosineFormula.
  rewrite same_squares, same_products.
  set (Q := Rsum (map (fun p : AlignedPair ExactR => (yA p * yA p)%R) common)).
  assert (HQ : (0 < Q)%R).
  { assert (H0 : (0 <= Q)%R).
    { subst Q. rewrite <- (map_map (@yA ExactR) (fun t : R => t * t)%R).
      apply sum_squares_nonneg. }
    destruct H0 as [H0|H0]; [assumption|]. exfalso. apply Hnz.
    apply (sum_squares_zero (map yA common)).
    - rewrite map_map. now symmetry.
    - now apply in_map. }
  pose proof (sqrt_lt_R0 Q HQ) as Hs.
  rewrite Req_bool_false by lra. cbn [orb].
  rewrite sqrt_sqrt by lra. exact_arith. field. lra.
Qed.

End SelfComparison.

Lemma fold_left_zero_terms {T : Type} (f : T -> R) (l : list T) :
  (forall i, In i l -> f i = 0%R) ->
  fold_left (fun s i => s + f i)%R l 0%R = 0%R.
Proof.
  intros H. rewrite fold_left_Rsum, Rplus_0_l.
  apply Rsum_zero, Forall_forall. intros v Hv.
  apply in_map_iff in Hv. destruct Hv as [i [<- Hi]]. now apply H.
Qed.

Lemma combine_seq_nth {T : Type} (l : list T) (s : nat) (v : T) (i : nat) (d : T) :
  In (v, i) (combine l (seq s (length l))) -> nth (i - s) l d = v.
Proof.
  revert s. induction l as [|a l IH]; intros s Hin; [contradiction|].
  cbn [length seq combine] in Hin. destruct Hin as [Heq|Hin].
  - inversion Heq; subst. now rewrite Nat.sub_diag.
  - assert (Hi : (S s <= i)%nat).
    { apply in_combine_r in Hin. apply in_seq in Hin. lia. }
    specialize (IH (S s) Hin).
    replace (i - s)%nat with (S (i - S s)) by lia. exact IH.
Qed.

Section SelfDistance.

Variable common : list (AlignedPair ExactR).
Hypothesis same : Forall (fun p : AlignedPair ExactR => yA p = yB p) common.

Lemma calculateRMSE_self (m : NormalizationMethod) :
  calculateRMSE ExactR common m = 0%R.
Proof.
  unfold calculateRMSE.
  destruct (length common =? 0)%nat; [reflexivity|].
  rewrite (same_series common same). exact_arith.
  rewrite fold_left_zero_terms.
  - unfold Rdiv. rewrite Rmult_0_l. apply sqrt_0.
  - intros i _. ring.
Qed.

Lemma calculateEuclidean_self (m : NormalizationMethod) :
  calculateEuclidean ExactR common m = 0%R.
Proof.
  unfold calculateEuclidean.
  destruct (length common =? 0)%nat; [reflexivity|].
  rewrite (same_series common same). exact_arith.
  rewrite fold_left_zero_terms.
  - apply sqrt_0.
  - intros [v i] Hin. cbn [fst snd].
    apply combine_seq_nth with (d := 0%R) in Hin.
    rewrite Nat.sub_0_r in Hin. rewrite Hin. ring.
Qed.

Lemma calculateSID_self : calculateSID ExactR ln common = 0%R.
Proof.
  unfold calculateSID.
  replace (map (fun cp : AlignedPair ExactR => Math_max ExactR (epsilon ExactR) (yB cp)) common)
    with (map (fun cp : AlignedPair ExactR => Math_max ExactR (epsilon ExactR) (yA cp)) common).
  - exact_arith. apply fold_left_zero_terms. intros i _. ring.
  - apply map_ext_in. intros p Hp. rewrite Forall_forall in same.
    now rewrite (same p Hp).
Qed.

End SelfDistance.

Lemma calculatePearson_swap (common : list (AlignedPair ExactR)) :
  calculatePearson ExactR (swapSeries common) = calculatePearson ExactR common.
Proof.
  rewrite !calculatePearson_eq, <- pearsonFormula_sym. unfold swapSeries.
  rewrite !map_map, length_map. cbn [yA yB].
  rewrite (map_ext (fun p : AlignedPair ExactR => yB p * yA p)%R
                   (fun p : AlignedPair ExactR => yA p * yB p)%R)
    by (intros; apply Rmult_comm).
  reflexivity.
Qed.


Lemma calculateCosineSimilarity_swap (common : list (AlignedPair ExactR)) :
  calculateCosineSimilarity ExactR (swapSeries common)
  = calculateCosineSimilarity ExactR common.
Proof.
  rewrite !calculateCosineSimilarity_eq, <- cosineFormula_sym. unfold swapSeries.
  rewrite !map_map. cbn [yA yB].
  rewrite (map_ext (fun p : AlignedPair ExactR => yB p * yA p)%R
                   (fun p : AlignedPair ExactR => yA p * yB p)%R)
    by (intros; apply Rmult_comm).
  reflexivity.
Qed.

(** C8: when the two series coincide, Pearson is 1 (at least two points, not
    all equal), cosine is 1 (some point is not 0), and the Euclidean
    distance, the RMSE (under every policy) and the SID are 0; exchanging
    the two series changes neither Pearson nor cosine. *)
Theorem self_comparison_and_symmetry (common : list (AlignedPair ExactR)) :
  (Forall (fun p : AlignedPair ExactR => yA p = yB p) common ->
     ((2 <= length common)%nat ->
      (exists p q, In p common /\ In q common /\ yA p <> yA q) ->
      calculatePearson ExactR common = 1%R)
     /\ ((exists p, In p common /\ yA p <> 0%R) ->
         calculateCosineSimilarity ExactR common = 1%R)
     /\ (forall m, calculateEuclidean ExactR common m = 0%R)
     /\ (forall m, calculateRMSE ExactR common m = 0%R)
     /\ calculateSID ExactR ln common = 0%R)
  /\ calculatePearson ExactR (swapSeries common) = calculatePearson ExactR common
  /\ calculateCosineSimilarity ExactR (swapSeries common)
     = calculateCosineSimilarity ExactR common.
Proof.
  split; [|split].
  - intros same. repeat split.
    + now apply calculatePearson_self.
    + now apply calculateCosineSimilarity_self.
    + intros m. now apply calculateEuclidean_self.
    + intros m. now apply calculateRMSE_self.
    + now apply calculateSID_self.
  - apply calculatePearson_swap.
  - apply calculateCosineSimilarity_swap.
Qed.

(** ** The divergence is not negative *)

Lemma normalizeValues_length (A : Arith) (v : list (num A)) (m : NormalizationMethod) :
  length (normalizeValues A v m) = length v.
Proof.
  destruct m; destruct v as [|v0 vs]; try reflexivity; unfold normalizeValues.
  - destruct (eqb A _ _); [reflexivity | apply length_map].
  - destruct (eqb A _ _); apply length_map.
Qed.

Lemma epsilon_positive : (0 < epsilon ExactR)%R.
Proof. cbn [epsilon ExactR]. apply Rinv_0_lt_compat, pow_lt. lra. Qed.

Lemma floored_positive {T : Type} (f : T -> R) (l : list T) :
  Forall (fun t => 0 < t)%R (map (fun cp => Rmax (epsilon ExactR) (f cp)) l).
Proof.
  apply Forall_forall. intros t Ht. apply in_map_iff in Ht.
  destruct Ht as [cp [<- _]].
  pose proof epsilon_positive. pose proof (Rmax_l (epsilon ExactR) (f cp)). lra.
Qed.

Lemma normalizeValues_area_positive (v : list R) :
  Forall (fun t => 0 < t)%R v ->
  Forall (fun t => 0 < t)%R (normalizeValues ExactR v area).
Proof.
  intros Hv. rewrite normalizeValues_area_eq. unfold Req_bool.
  destruct (Req_dec_T (l1norm v) 0) as [_|Hnz]; [assumption|].
  pose proof (l1norm_nonneg v).
  apply Forall_forall. intros t Ht. apply in_map_iff in Ht.
  destruct Ht as [u [<- Hu]]. rewrite Forall_forall in Hv.
  apply Rdiv_lt_0_compat; [now apply Hv | lra].
Qed.

Lemma divergence_term_nonneg (a b : R) :
  (0 < a)%R -> (0 < b)%R -> (0 <= (a - b) * (ln a - ln b))%R.
Proof.
  intros Ha Hb. destruct (Rtotal_order a b) as [Hlt|[->|Hgt]].
  - pose proof (ln_increasing a b Ha Hlt).
    replace ((a - b) * (ln a - ln b))%R with ((b - a) * (ln b - ln a))%R by ring.
    apply Rmult_le_pos; lra.
  - replace ((b - b) * (ln b - ln b))%R with 0%R by ring. lra.
  - pose proof (ln_increasing b a Hb Hgt). apply Rmult_le_pos; lra.
Qed.

Lemma nth_positive (l : list R) (i : nat) :
  Forall (fun t => 0 < t)%R l -> (i < length l)%nat -> (0 < nth i l 0)%R.
Proof.
  intros Hl Hi. rewrite Forall_forall in Hl. now apply Hl, nth_In.
Qed.

(** C9: after flooring at [1e-10] and area normalization both series are
    strictly positive, and the divergence computed from them is not
    negative. *)
Theorem calculateSID_nonneg (common : list (AlignedPair ExactR)) :
  let p := normalizeValues ExactR
             (map (fun cp : AlignedPair ExactR => Rmax (epsilon ExactR) (yA cp)) common)
             area in
  let q := normalizeValues ExactR
             (map (fun cp : AlignedPair ExactR => Rmax (epsilon ExactR) (yB cp)) common)
             area in
  Forall (fun t => 0 < t)%R p
  /\ Forall (fun t => 0 < t)%R q
  /\ (0 <= calculateSID ExactR ln common)%R.
Proof.
  intros p q.
  assert (Hp : Forall (fun t => 0 < t)%R p)
    by apply normalizeValues_area_positive, floored_positive.
  assert (Hq : Forall (fun t => 0 < t)%R q)
    by apply normalizeValues_area_positive, floored_positive.
  split; [assumption|]. split; [assumption|].
  unfold calculateSID. exact_arith. fold p. fold q.
  rewrite (fold_left_Rsum
             (fun i => (nth i p 0 - nth i q 0) * (ln (nth i p 0) - ln (nth i q 0)))%R).
  rewrite Rplus_0_l. apply Rsum_nonneg, Forall_forall.
  intros t Ht. apply in_map_iff in Ht. destruct Ht as [i [<- Hi]].
  apply in_seq in Hi.
  assert (Hlen : length q = length p).
  { transitivity (length common).
    - etransitivity; [apply (normalizeValues_length ExactR) | apply length_map].
    - symmetry.
      etransitivity; [apply (normalizeValues_length ExactR) | apply length_map]. }
  apply divergence_term_nonneg; apply nth_positive; try assumption; lia.
Qed.

(** ** The interpolation of the aligner *)

Lemma findIndexFrom_none {T : Type} (P : T -> bool) (i : Z) (l : list T) :
  (forall p, In p l -> P p = false) -> findIndexFrom P i l = (-1)%Z.
Proof.
  revert i. induction l as [|p l IH]; intros i H; [reflexivity|].
  cbn [findIndexFrom]. rewrite (H p) by now left.
  apply IH. intros q Hq. apply H. now right.
Qed.

Lemma findIndexFrom_first {T : Type} (P : T -> bool) (i : Z) (l : list T) (d : T) :
  (exists p, In p l /\ P p = true) ->
  exists k : nat,
    (k < length l)%nat
    /\ findIndexFrom P i l = (i + Z.of_nat k)%Z
    /\ P (nth k l d) = true
    /\ forall j, (j < k)%nat -> P (nth j l d) = false.
Proof.
  revert i. induction l as [|p l IH]; intros i [q [Hq HP]]; [contradiction|].
  cbn [findIndexFrom]. destruct (P p) eqn:Hp.
  - exists 0%nat. cbn [length nth]. repeat split; try lia; try assumption.
  - destruct Hq as [->|Hq]; [congruence|].
    destruct (IH (i + 1)%Z) as [k [Hk [Hidx [Hat Hbefore]]]]; [now exists q|].
    exists (S k). cbn [length nth]. repeat split; try lia; try assumption.
    intros [|j] Hj; [assumption | apply Hbefore; lia].
Qed.

Section Interpolation.

Variable data : list (DataPoint ExactR).
Variable targetW : R.

(** At or below the first wavelength: the first point (clamp). *)
Lemma interpolate_at_or_below_first :
  data <> [] -> (targetW <= wavelength (point_at ExactR data 0))%R ->
  interpolate ExactR data targetW = absorption (point_at ExactR data 0).
Proof.
  intros Hne Hw. destruct data as [|p0 rest]; [congruence|].
  unfold interpolate, findIndex. cbn [findIndexFrom].
  unfold point_at in Hw. cbn [Z.to_nat nth] in Hw.
  exact_arith. now rewrite Rle_bool_true.
Qed.

(** Beyond every wavelength: [findIndex] answers [-1], which the first test
    [idx <= 0] catches, so the result is the first point again. *)
Lemma interpolate_beyond_last :
  (forall p, In p data -> (wavelength p < targetW)%R) ->
  interpolate ExactR data targetW = absorption (point_at ExactR data 0).
Proof.
  intros H. unfold interpolate, findIndex.
  rewrite findIndexFrom_none; [reflexivity|].
  intros p Hp. exact_arith. apply Rle_bool_false. now apply H.
Qed.

(** Strictly inside: linear interpolation between the last point below
    [targetW] and the first point at or above it. *)
Lemma interpolate_between :
  (wavelength (point_at ExactR data 0) < targetW)%R ->
  (exists p, In p data /\ (targetW <= wavelength p)%R) ->
  exists k : nat,
    (0 < k < length data)%nat
    /\ (forall j, (j < k)%nat -> (wavelength (point_at ExactR data (Z.of_nat j)) < targetW)%R)
    /\ (targetW <= wavelength (point_at ExactR data (Z.of_nat k)))%R
    /\ let p1 := point_at ExactR data (Z.of_nat k - 1) in
       let p2 := point_at ExactR data (Z.of_nat k) in
       interpolate ExactR data targetW =
       (absorption p1
        + (targetW - wavelength p1) / (wavelength p2 - wavelength p1)
          * (absorption p2 - absorption p1))%R.
Proof.
  intros Hfirst [q [Hq Hw]].
  set (P := fun p : DataPoint ExactR => Rle_bool targetW (wavelength p)).
  destruct (findIndexFrom_first P 0%Z data
              (Build_DataPoint ExactR 0%R 0%R)) as [k [Hk [Hidx [Hat Hbefore]]]].
  { exists q. split; [assumption|]. now apply Rle_bool_true. }
  assert (Hlt : forall j, (j < k)%nat ->
                  (wavelength (point_at ExactR data (Z.of_nat j)) < targetW)%R).
  { intros j Hj. specialize (Hbefore j Hj). unfold P, Rle_bool in Hbefore.
    unfold point_at. rewrite Nat2Z.id.
    destruct (Rle_dec targetW _) as [|Hn]; [discriminate | apply Rnot_le_lt, Hn]. }
  assert (Hge : (targetW <= wavelength (point_at ExactR data (Z.of_nat k)))%R).
  { unfold P, Rle_bool in Hat. unfold point_at. rewrite Nat2Z.id.
    destruct (Rle_dec targetW _); [assumption | discriminate]. }
  assert (Hk0 : (0 < k)%nat).
  { destruct k; [|lia]. cbn [Z.of_nat] in Hge. lra. }
  exists k. split; [lia|]. split; [assumption|]. split; [assumption|].
  cbv zeta. unfold interpolate, findIndex. exact_arith. fold P.
  rewrite Hidx, Z.add_0_l.
  replace (Z.of_nat k <=? 0)%Z with false by (symmetry; apply Z.leb_gt; lia).
  replace (Z.of_nat k >=? Z.of_nat (length data))%Z with false
    by (symmetry; rewrite Z.geb_leb; apply Z.leb_gt; lia).
  reflexivity.
Qed.

End Interpolation.

(** Inside [getOverlapData] the query never exceeds [maxW], hence never the
    last wavelength of either spectrum, and [findIndex] finds a point. *)
Lemma alignLoop_within (fuel : nat) (dataA dataB : list (DataPoint ExactR))
      (maxW w : R) (common : list (AlignedPair ExactR)) :
  alignLoop ExactR fuel dataA dataB maxW w = Some common ->
  Forall (fun p : AlignedPair ExactR => (x p <= maxW)%R) common.
Proof.
  revert w common. induction fuel as [|fuel IH]; intros w common H;
    cbn [alignLoop] in H; exact_arith.
  - destruct (Rle_bool w maxW); [discriminate|]. inversion H. constructor.
  - destruct (Rle_bool w maxW) eqn:Hw; [|inversion H; constructor].
    destruct (alignLoop ExactR fuel dataA dataB maxW (w + / 2)%R) as [rest|] eqn:Hr;
      [|discriminate].
    inversion H; subst. constructor.
    + cbn [x]. unfold Rle_bool in Hw. now destruct (Rle_dec w maxW).
    + now apply (IH (w + / 2)%R).
Qed.

Lemma findIndex_within_last (data : list (DataPoint ExactR)) (d : DataPoint ExactR)
      (w : R) :
  data <> [] -> (w <= wavelength (last data d))%R ->
  (0 <= findIndex (fun p : DataPoint ExactR => Rle_bool w (wavelength p)) data)%Z.
Proof.
  intros Hne Hw. unfold findIndex.
  destruct (findIndexFrom_first
              (fun p : DataPoint ExactR => Rle_bool w (wavelength p)) 0%Z data d)
    as [k [_ [Hidx _]]].
  - exists (last data d). split.
    + destruct (exists_last Hne) as [l [a ->]]. rewrite last_last.
      apply in_or_app. right. now left.
    + now apply Rle_bool_true.
  - rewrite Hidx. lia.
Qed.


(** ** Non-overlapping domains and the report *)

Lemma alignLoop_stops (A : Arith) (fuel : nat) (dataA dataB : list (DataPoint A))
      (maxW w : num A) :
  leb A w maxW = false -> alignLoop A fuel dataA dataB maxW w = Some [].
Proof. intros H. destruct fuel; cbn [alignLoop]; now rewrite H. Qed.

Lemma pairEntries_none (A : Arith) (ln : num A -> num A) (cfg : Settings A)
      (sA sB : WaterSample A) (common : list (AlignedPair A)) :
  filterCommon A cfg common = [] -> pairEntries A ln cfg sA sB common = [].
Proof. intros H. unfold pairEntries. now rewrite H. Qed.

Lemma pairEntries_length (A : Arith) (ln : num A -> num A) (cfg : Settings A)
      (sA sB : WaterSample A) (common : list (AlignedPair A)) :
  length (pairEntries A ln cfg sA sB common)
  = if (0 <? length (filterCommon A cfg common))%nat then 1%nat else 0%nat.
Proof. unfold pairEntries. now destruct (0 <? _)%nat. Qed.

(** C7: two non-empty spectra whose domains do not overlap align to the
    empty sequence, on any fuel; and a pair whose aligned points are all
    removed by the range filter pushes no entry: a report on just that pair
    is empty. *)
Theorem no_overlap_no_entry :
  (forall (fuel : nat) (a0 b0 : DataPoint ExactR) (ta tb : list (DataPoint ExactR)),
      (Rmin (wavelength (last (a0 :: ta) a0)) (wavelength (last (b0 :: tb) b0))
       < Rmax (wavelength a0) (wavelength b0))%R ->
      getOverlapData ExactR fuel (a0 :: ta) (b0 :: tb) = Some [])
  /\ (forall (fuel : nat) (cfg : Settings ExactR) (sA sB : WaterSample ExactR)
             (common : list (AlignedPair ExactR)),
         getOverlapData ExactR fuel (data sA) (data sB) = Some common ->
         filterCommon ExactR cfg common = [] ->
         pairEntries ExactR ln cfg sA sB common = []
         /\ (forall later,
                innerLoop ExactR ln fuel cfg sA (sB :: later)
                = innerLoop ExactR ln fuel cfg sA later)
         /\ similarityMatrix ExactR ln fuel cfg [sA; sB] = Some []).
Proof.
  split.
  - intros fuel a0 b0 ta tb H. unfold getOverlapData.
    apply alignLoop_stops. exact_arith. now apply Rle_bool_false.
  - intros fuel cfg sA sB common Hc Hf.
    split; [now apply pairEntries_none|]. split.
    + intros later. cbn [innerLoop]. rewrite Hc, pairEntries_none by assumption.
      now destruct (innerLoop ExactR ln fuel cfg sA later).
    + cbn [similarityMatrix innerLoop]. rewrite Hc.
      now rewrite pairEntries_none.
Qed.

(** ** The policy of the distance metrics *)

(** C2: in the report, RMSE and Euclidean distance of a pair are computed
    under [area] when the caller selected [none], so that the entries for
    [none] and for [area] coincide, and under the caller's policy otherwise.
    This holds in every number model. *)
Theorem distance_metrics_policy
  (A : Arith) (ln : num A -> num A) (cfg : Settings A)
  (sA sB : WaterSample A) (common : list (AlignedPair A)) :
  let sfc := smoothedFilteredCommon A cfg (filterCommon A cfg common) in
  pairEntries A ln (withMethod cfg none) sA sB common
  = pairEntries A ln (withMethod cfg area) sA sB common
  /\ Forall (fun e : SimilarityResult A =>
               rmse e = calculateRMSE A sfc (distancePolicy (normMethod cfg))
               /\ euclidean e
                  = calculateEuclidean A sfc (distancePolicy (normMethod cfg)))
            (pairEntries A ln cfg sA sB common)
  /\ length (pairEntries A ln cfg sA sB common)
     = (if (0 <? length (filterCommon A cfg common))%nat then 1%nat else 0%nat).
Proof.
  intros sfc. split; [reflexivity|]. split; [|apply pairEntries_length].
  unfold pairEntries. destruct (0 <? _)%nat; [|constructor].
  constructor; [|constructor]. cbn [rmse euclidean]. fold sfc.
  unfold calcMethod. now destruct (normMethod cfg).
Qed.

(** ** Every partial operation is applied inside its domain

    In the checked model a value is [Some r] exactly when no division by
    zero, no square root of a negative number and no logarithm of a
    non-positive number was met on the way.  On finite inputs every function
    of the core yields [Some] of its exact value. *)

Lemma fold_left_map {T U V : Type} (g : V -> U -> V) (h : T -> U) (l : list T) (a : V) :
  fold_left g (map h l) a = fold_left (fun s p => g s (h p)) l a.
Proof. revert a. induction l as [|p l IH]; intros a; [reflexivity | apply IH]. Qed.

Lemma fold_left_checked_sum {T : Type} (g : T -> option R) (f : T -> R)
      (l : list T) (s0 : R) :
  (forall p, In p l -> g p = Some (f p)) ->
  fold_left (fun s p => lift2 Rplus s (g p)) l (Some s0)
  = Some (fold_left (fun s p => s + f p)%R l s0).
Proof.
  revert s0. induction l as [|p l IH]; intros s0 H; [reflexivity|].
  cbn [fold_left]. rewrite (H p) by now left. cbn [lift2].
  apply IH. intros q Hq. apply H. now right.
Qed.

Lemma fold_left_checked_binop (op : R -> R -> R) (l : list R) (a : R) :
  fold_left (lift2 op) (map Some l) (Some a) = Some (fold_left op l a).
Proof. revert a. induction l as [|t l IH]; intros a; [reflexivity | apply IH]. Qed.

Lemma Req_bool_neq (a b : R) : Req_bool a b = false -> a <> b.
Proof. unfold Req_bool. now destruct (Req_dec_T a b). Qed.

Lemma normalizeValues_minmax_cons (A : Arith) (v0 : num A) (vs : list (num A)) :
  normalizeValues A (v0 :: vs) minmax =
  if eqb A (sub A (maxOf A v0 vs) (minOf A v0 vs)) (zero A)
  then map (fun _ => zero A) (v0 :: vs)
  else map (fun v => div A (sub A v (minOf A v0 vs))
                         (sub A (maxOf A v0 vs) (minOf A v0 vs))) (v0 :: vs).
Proof. reflexivity. Qed.

Lemma normalizeValues_checked (v : list R) (m : NormalizationMethod) :
  normalizeValues Checked (map Some v) m = map Some (normalizeValues ExactR v m).
Proof.
  destruct m; [reflexivity| |]; destruct v as [|v0 vs]; try reflexivity.
  - unfold normalizeValues. checked_arith. exact_arith.
    rewrite fold_left_map.
    rewrite (fold_left_checked_sum (fun b => lift1 Rabs (Some b)) Rabs)
      by reflexivity.
    cbn [liftb].
    destruct (Req_bool _ 0) eqn:Hs; [reflexivity|].
    rewrite !map_map. apply map_ext. intros t. cbn [checked_div].
    now rewrite Hs.
  - rewrite normalizeValues_minmax_eq.
    change (map Some (v0 :: vs)) with (Some v0 :: map Some vs) at 1.
    rewrite normalizeValues_minmax_cons.
    change (Some v0 :: map Some vs) with (map Some (v0 :: vs)).
    unfold minOf, maxOf. checked_arith. exact_arith.
    rewrite !fold_left_checked_binop. cbn [lift2 liftb].
    destruct (Req_bool _ 0) eqn:Hs.
    + now rewrite !map_map.
    + rewrite !map_map. apply map_ext. intros t. cbn [lift2 checked_div].
      now rewrite Hs.
Qed.

Lemma spread_map {T : Type} (f : T -> R) (l : list T) :
  (INR (length l) * Rsum (map (fun p => f p * f p)%R l)
   - Rsum (map f l) * Rsum (map f l))%R
  = spread (map f l).
Proof. unfold spread. now rewrite map_map, length_map. Qed.

Lemma map_finite_yA (common : list (AlignedPair ExactR)) :
  map yA (map finite common) = map Some (map yA common).
Proof. now rewrite !map_map. Qed.

Lemma map_finite_yB (common : list (AlignedPair ExactR)) :
  map yB (map finite common) = map Some (map yB common).
Proof. now rewrite !map_map. Qed.

Lemma calculatePearson_checked (common : list (AlignedPair ExactR)) :
  calculatePearson Checked (map finite common)
  = Some (calculatePearson ExactR common).
Proof.
  unfold calculatePearson. rewrite length_map.
  destruct (length common <? 2)%nat; [reflexivity|].
  rewrite !fold_left_map. cbn [yA yB finite]. checked_arith. exact_arith.
  rewrite (fold_left_checked_sum
             (fun p : AlignedPair ExactR => Some (yA p)) (fun p => yA p))
    by reflexivity.
  rewrite (fold_left_checked_sum
             (fun p : AlignedPair ExactR => Some (yB p)) (fun p => yB p))
    by reflexivity.
  rewrite (fold_left_checked_sum
             (fun p : AlignedPair ExactR => Some (yA p * yA p)%R)
             (fun p => yA p * yA p)%R) by reflexivity.
  rewrite (fold_left_checked_sum
             (fun p : AlignedPair ExactR => Some (yB p * yB p)%R)
             (fun p => yB p * yB p)%R) by reflexivity.
  rewrite (fold_left_checked_sum
             (fun p : AlignedPair ExactR => Some (yA p * yB p)%R)
             (fun p => yA p * yB p)%R) by reflexivity.
  cbn [lift2 checked_sqrt].
  rewrite Rle_bool_true.
  - cbn [liftb]. destruct (Req_bool _ 0) eqn:Hd; [reflexivity|].
    cbn [checked_div]. now rewrite Hd.
  - rewrite (fold_left_Rsum (fun p : AlignedPair ExactR => yA p)).
    rewrite (fold_left_Rsum (fun p : AlignedPair ExactR => yB p)).
    rewrite (fold_left_Rsum (fun p : AlignedPair ExactR => yA p * yA p)%R).
    rewrite (fold_left_Rsum (fun p : AlignedPair ExactR => yB p * yB p)%R).
    rewrite !Rplus_0_l.
    rewrite (spread_map (@yA ExactR)), (spread_map (@yB ExactR)).
    apply Rmult_le_pos; apply spread_nonneg.
Qed.

Lemma sum_squares_map_nonneg {T : Type} (f : T -> R) (l : list T) (s0 : R) :
  (0 <= s0)%R -> (0 <= fold_left (fun s p => s + f p * f p)%R l s0)%R.
Proof.
  intros H0. rewrite (fold_left_Rsum (fun p => f p * f p)%R).
  rewrite <- (map_map f (fun t => t * t)%R).
  pose proof (sum_squares_nonneg (map f l)). lra.
Qed.

Lemma calculateCosineSimilarity_checked (common : list (AlignedPair ExactR)) :
  calculateCosineSimilarity Checked (map finite common)
  = Some (calculateCosineSimilarity ExactR common).
Proof.
  unfold calculateCosineSimilarity.
  rewrite !fold_left_map. cbn [yA yB finite]. checked_arith. exact_arith.
  rewrite (fold_left_checked_sum
             (fun p : AlignedPair ExactR => Some (yA p * yA p)%R)
             (fun p => yA p * yA p)%R) by reflexivity.
  rewrite (fold_left_checked_sum
             (fun p : AlignedPair ExactR => Some (yB p * yB p)%R)
             (fun p => yB p * yB p)%R) by reflexivity.
  rewrite (fold_left_checked_sum
             (fun p : AlignedPair ExactR => Some (yA p * yB p)%R)
             (fun p => yA p * yB p)%R) by reflexivity.
  cbn [checked_sqrt].
  rewrite !Rle_bool_true
    by (apply (sum_squares_map_nonneg (@yA ExactR))
        || apply (sum_squares_map_nonneg (@yB ExactR)); lra).
  cbn [liftb lift2].
  set (magA := R_sqrt.sqrt
                 (fold_left (fun (s : R) (p : AlignedPair ExactR) => (s + yA p * yA p)%R)
                            common 0%R)).
  set (magB := R_sqrt.sqrt
                 (fold_left (fun (s : R) (p : AlignedPair ExactR) => (s + yB p * yB p)%R)
                            common 0%R)).
  destruct (Req_bool magA 0) eqn:Ha; [reflexivity|].
  destruct (Req_bool magB 0) eqn:Hb; [reflexivity|].
  cbn [orb checked_div].
  rewrite Req_bool_false; [reflexivity|].
  apply Req_bool_neq in Ha, Hb. now apply Rmult_integral_contrapositive.
Qed.

Lemma sum_pow2_nonneg {T : Type} (f : T -> R) (l : list T) :
  (0 <= fold_left (fun s p => s + f p ^ 2)%R l 0%R)%R.
Proof.
  rewrite (fold_left_Rsum (fun p => f p ^ 2)%R), Rplus_0_l.
  apply Rsum_nonneg, Forall_forall. intros v Hv.
  apply in_map_iff in Hv. destruct Hv as [p [<- _]]. apply pow2_ge_0.
Qed.

Lemma combine_map_l {T U V : Type} (f : T -> U) (l : list T) (l' : list V) :
  combine (map f l) l' = map (fun p => (f (fst p), snd p)) (combine l l').
Proof.
  revert l'. induction l as [|a l IH]; intros [|b l']; try reflexivity.
  cbn [map combine fst snd]. now rewrite IH.
Qed.

Lemma calculateRMSE_checked (common : list (AlignedPair ExactR))
      (m : NormalizationMethod) :
  calculateRMSE Checked (map finite common) m
  = Some (calculateRMSE ExactR common m).
Proof.
  unfold calculateRMSE. rewrite length_map.
  destruct (length common =? 0)%nat eqn:Hn; [reflexivity|].
  apply Nat.eqb_neq in Hn.
  rewrite map_finite_yA, map_finite_yB, !normalizeValues_checked.
  set (normA := normalizeValues ExactR (map yA common) m).
  set (normB := normalizeValues ExactR (map yB common) m).
  checked_arith. exact_arith.
  rewrite (fold_left_checked_sum
             (fun i => lift1 (fun v => v ^ 2)%R
                         (lift2 Rminus (nth i (map Some normA) (Some 0%R))
                                       (nth i (map Some normB) (Some 0%R))))
             (fun i => (nth i normA 0 - nth i normB 0) ^ 2)%R).
  - cbn [checked_div]. rewrite Req_bool_false by (apply not_0_INR; exact Hn).
    cbn [checked_sqrt]. rewrite Rle_bool_true; [reflexivity|].
    apply Rmult_le_pos.
    + apply (sum_pow2_nonneg (fun i => nth i normA 0 - nth i normB 0)%R).
    + apply Rlt_le, Rinv_0_lt_compat, lt_0_INR. lia.
  - intros i _. now rewrite !(map_nth Some).
Qed.

Lemma calculateEuclidean_checked (common : list (AlignedPair ExactR))
      (m : NormalizationMethod) :
  calculateEuclidean Checked (map finite common) m
  = Some (calculateEuclidean ExactR common m).
Proof.
  unfold calculateEuclidean. rewrite length_map.
  destruct (length common =? 0)%nat; [reflexivity|].
  rewrite map_finite_yA, map_finite_yB, !normalizeValues_checked.
  set (normA := normalizeValues ExactR (map yA common) m).
  set (normB := normalizeValues ExactR (map yB common) m).
  rewrite length_map, combine_map_l, fold_left_map.
  checked_arith. exact_arith. cbn [fst snd].
  rewrite (fold_left_checked_sum
             (fun vi : R * nat =>
                lift1 (fun v => v ^ 2)%R
                      (lift2 Rminus (Some (fst vi))
                                    (nth (snd vi) (map Some normB) (Some 0%R))))
             (fun vi => (fst vi - nth (snd vi) normB 0) ^ 2)%R).
  - cbn [checked_sqrt]. rewrite Rle_bool_true; [reflexivity|].
    apply (sum_pow2_nonneg (fun vi : R * nat => fst vi - nth (snd vi) normB 0)%R).
  - intros vi _. now rewrite !(map_nth Some).
Qed.

Lemma floored_finite (f : AlignedPair ExactR -> R)
      (g : AlignedPair Checked -> option R) (common : list (AlignedPair ExactR)) :
  (forall cp, g (finite cp) = Some (f cp)) ->
  map (fun cp => Math_max Checked (epsilon Checked) (g cp)) (map finite common)
  = map Some (map (fun cp => Rmax (epsilon ExactR) (f cp)) common).
Proof.
  intros H. rewrite !map_map. apply map_ext. intros cp. now rewrite H.
Qed.

Lemma calculateSID_checked (common : list (AlignedPair ExactR)) :
  calculateSID Checked checked_ln (map finite common)
  = Some (calculateSID ExactR ln common).
Proof.
  unfold calculateSID.
  rewrite (floored_finite (@yA ExactR) (@yA Checked)) by reflexivity.
  rewrite (floored_finite (@yB ExactR) (@yB Checked)) by reflexivity.
  rewrite !normalizeValues_checked, length_map.
  set (p := normalizeValues ExactR
              (map (fun cp : AlignedPair ExactR => Rmax (epsilon ExactR) (yA cp)) common)
              area).
  set (q := normalizeValues ExactR
              (map (fun cp : AlignedPair ExactR => Rmax (epsilon ExactR) (yB cp)) common)
              area).
  assert (Hp : Forall (fun t => 0 < t)%R p)
    by apply normalizeValues_area_positive, floored_positive.
  assert (Hq : Forall (fun t => 0 < t)%R q)
    by apply normalizeValues_area_positive, floored_positive.
  assert (Hlen : length q = length p).
  { transitivity (length common).
    - etransitivity; [apply (normalizeValues_length ExactR) | now rewrite !length_map].
    - symmetry.
      etransitivity; [apply (normalizeValues_length ExactR) | now rewrite !length_map]. }
  checked_arith. exact_arith.
  apply (fold_left_checked_sum
           (fun i => lift2 Rmult
                       (lift2 Rminus (nth i (map Some p) (Some 0%R))
                                     (nth i (map Some q) (Some 0%R)))
                       (lift2 Rminus (checked_ln (nth i (map Some p) (Some 0%R)))
                                     (checked_ln (nth i (map Some q) (Some 0%R)))))
           (fun i => (nth i p 0 - nth i q 0) * (ln (nth i p 0) - ln (nth i q 0)))%R).
  intros i Hi. apply in_seq in Hi. fold p in Hi.
  rewrite !(map_nth Some). cbn [checked_ln lift2].
  rewrite !Rle_bool_false; [reflexivity| |]; apply nth_positive; try assumption; lia.
Qed.

(** In exact arithmetic every function of the core is defined on every
    finite input: the guards of the source keep each division, square root
    and logarithm inside its domain. *)
Theorem core_defined_in_exact_arithmetic :
  (forall (v : list R) (m : NormalizationMethod),
      normalizeValues Checked (map Some v) m
      = map Some (normalizeValues ExactR v m))
  /\ (forall common : list (AlignedPair ExactR),
         calculatePearson Checked (map finite common)
         = Some (calculatePearson ExactR common)
         /\ calculateCosineSimilarity Checked (map finite common)
            = Some (calculateCosineSimilarity ExactR common)
         /\ (forall m, calculateRMSE Checked (map finite common) m
                       = Some (calculateRMSE ExactR common m))
         /\ (forall m, calculateEuclidean Checked (map finite common) m
                       = Some (calculateEuclidean ExactR common m))
         /\ calculateSID Checked checked_ln (map finite common)
            = Some (calculateSID ExactR ln common)).
Proof.
  split; [apply normalizeValues_checked|].
  intros common. repeat split.
  - apply calculatePearson_checked.
  - apply calculateCosineSimilarity_checked.
  - intros m. apply calculateRMSE_checked.
  - intros m. apply calculateEuclidean_checked.
  - apply calculateSID_checked.
Qed.

(** ** The metrics in binary64 *)

Lemma spread_constant (a : R) (l : list R) :
  (forall t, In t l -> t = a) -> spread l = 0%R.
Proof.
  induction l as [|b l IH]; intros H.
  - unfold spread. simpl. lra.
  - rewrite spread_cons, IH by (intros t Ht; apply H; now right).
    rewrite Rsum_zero; [lra|].
    apply Forall_forall. intros v Hv. apply in_map_iff in Hv.
    destruct Hv as [t [<- Ht]].
    rewrite (H t) by now right. rewrite (H b) by now left. ring.
Qed.

(** In exact arithmetic a flat first series has Pearson correlation 0: the
    denominator is 0 and the guard [den === 0] applies. *)
Lemma calculatePearson_flat_series (a : R) (common : list (AlignedPair ExactR)) :
  (forall p, In p common -> yA p = a) -> calculatePearson ExactR common = 0%R.
Proof.
  intros H. rewrite calculatePearson_eq. unfold pearsonFormula.
  destruct (length common <? 2)%nat; [reflexivity|].
  rewrite (spread_map (@yA ExactR)), (spread_constant a).
  - now rewrite Rmult_0_l, sqrt_0, Req_bool_true.
  - intros t Ht. apply in_map_iff in Ht. destruct Ht as [p [<- Hp]]. now apply H.
Qed.

(** C3: in binary64 the guard of [calculatePearson] does not keep the result
    finite.  A flat spectrum (0.07 at 200 and at 201) and a rising one (0 at
    200, 0.2 at 201) align to three points that all pass the range filter;
    every value is finite and the first series has no variance, yet the
    rounded [n * sumASq - sumA * sumA] is negative, its square root is NaN,
    [den === 0] is false and the result is NaN. *)
Theorem calculatePearson_binary64_nan :
  getOverlapData Binary64 3 flat_spectrum rising_spectrum = Some flat_against_rising
  /\ smoothedFilteredCommon Binary64 initial_settings
       (filterCommon Binary64 initial_settings flat_against_rising)
     = flat_against_rising
  /\ forallb float_finite
             (map yA flat_against_rising ++ map yB flat_against_rising) = true
  /\ (forall p q, In p flat_against_rising -> In q flat_against_rising ->
                  yA p = yA q)
  /\ PrimFloat.is_nan (calculatePearson Binary64 flat_against_rising) = true.
Proof.
  split; [vm_compute; reflexivity|]. split; [vm_compute; reflexivity|].
  split; [vm_compute; reflexivity|]. split; [|vm_compute; reflexivity].
  intros p q [<-|[<-|[<-|[]]]] [<-|[<-|[<-|[]]]]; reflexivity.
Qed.

(** ** Concrete instances *)

Lemma Rabs_of_nonneg (r : R) : (0 <= r)%R -> Rabs r = r.
Proof. intros H. apply Rabs_right. lra. Qed.

Lemma Rabs_of_neg (r : R) : (r < 0)%R -> Rabs r = (- r)%R.
Proof. intros H. apply Rabs_left. lra. Qed.

Lemma applyMovingAverage_even_window_witness :
  Z.even 4 = true /\ (2 <= 4)%Z
  /\ applyMovingAverage ExactR [1; 2; 4]%R 4
     = applyMovingAverage ExactR [1; 2; 4]%R (4 + 1).
Proof.
  split; [reflexivity|]. split; [lia|].
  apply applyMovingAverage_even_window; [reflexivity | lia].
Defined.

Lemma applyMovingAverage_clipped_mean_witness :
  (0 <= 3)%Z /\ (1 < length [1; 2; 4]%R)%nat
  /\ nth 1 (applyMovingAverage ExactR [1; 2; 4]%R 3) 0%R
     = clippedMean [1; 2; 4]%R (3 / 2) (Z.of_nat 1)
  /\ ((1 <= 1)%Z -> applyMovingAverage ExactR [1; 2; 4]%R 1 = [1; 2; 4]%R).
Proof.
  split; [lia|]. split; [simpl; lia|]. split.
  - apply (proj1 (proj2 (applyMovingAverage_clipped_mean [1; 2; 4]%R 3)));
      [lia | simpl; lia].
  - apply (proj1 (proj2 (proj2 (applyMovingAverage_clipped_mean [1; 2; 4]%R 1)))).
Defined.

Lemma normalizeValues_area_unit_norm_witness :
  (l1norm [1; -3]%R <> 0%R
   /\ normalizeValues ExactR [1; -3]%R area
      = map (fun t => t / l1norm [1; -3])%R [1; -3]%R
   /\ l1norm (normalizeValues ExactR [1; -3]%R area) = 1%R)
  /\ (l1norm [0; 0]%R = 0%R /\ normalizeValues ExactR [0; 0]%R area = [0; 0]%R).
Proof.
  assert (H1 : l1norm [1; -3]%R <> 0%R).
  { unfold l1norm. simpl. rewrite (Rabs_of_nonneg 1), (Rabs_of_neg (-3)); lra. }
  assert (H0 : l1norm [0; 0]%R = 0%R).
  { unfold l1norm. simpl. rewrite Rabs_R0. lra. }
  split.
  - split; [exact H1|].
    exact (proj1 (normalizeValues_area_unit_norm [1; -3]%R) H1).
  - split; [exact H0|].
    exact (proj2 (normalizeValues_area_unit_norm [0; 0]%R) H0).
Defined.

Lemma normalizeValues_minmax_range_witness :
  ([1; 3; 2]%R <> [] /\ isMin [1; 3; 2]%R 1%R /\ isMax [1; 3; 2]%R 3%R
   /\ 3%R <> 1%R
   /\ normalizeValues ExactR [1; 3; 2]%R minmax
      = map (fun t => (t - 1) / (3 - 1))%R [1; 3; 2]%R
   /\ isMin (normalizeValues ExactR [1; 3; 2]%R minmax) 0%R
   /\ isMax (normalizeValues ExactR [1; 3; 2]%R minmax) 1%R)
  /\ ([2; 2]%R <> [] /\ isMin [2; 2]%R 2%R /\ isMax [2; 2]%R 2%R
      /\ normalizeValues ExactR [2; 2]%R minmax = [0; 0]%R).
Proof.
  assert (Hne : [1; 3; 2]%R <> []) by discriminate.
  assert (Hmin : isMin [1; 3; 2]%R 1%R).
  { split; [now left|]. intros t [<-|[<-|[<-|[]]]]; lra. }
  assert (Hmax : isMax [1; 3; 2]%R 3%R).
  { split; [now right; left|]. intros t [<-|[<-|[<-|[]]]]; lra. }
  assert (Hd : 3%R <> 1%R) by lra.
  assert (Hne' : [2; 2]%R <> []) by discriminate.
  assert (Hmin' : isMin [2; 2]%R 2%R).
  { split; [now left|]. intros t [<-|[<-|[]]]; lra. }
  assert (Hmax' : isMax [2; 2]%R 2%R).
  { split; [now left|]. intros t [<-|[<-|[]]]; lra. }
  split.
  - split; [exact Hne|]. split; [exact Hmin|]. split; [exact Hmax|].
    split; [exact Hd|].
    exact (proj1 (normalizeValues_minmax_range _ _ _ Hne Hmin Hmax) Hd).
  - split; [exact Hne'|]. split; [exact Hmin'|]. split; [exact Hmax'|].
    exact (proj2 (normalizeValues_minmax_range _ _ _ Hne' Hmin' Hmax') eq_refl).
Defined.

Lemma self_comparison_and_symmetry_witness :
  Forall (fun p : AlignedPair ExactR => yA p = yB p) identical_series
  /\ (2 <= length identical_series)%nat
  /\ (exists p q, In p identical_series /\ In q identical_series /\ yA p <> yA q)
  /\ (exists p, In p identical_series /\ yA p <> 0%R)
  /\ calculatePearson ExactR identical_series = 1%R
  /\ calculateCosineSimilarity ExactR identical_series = 1%R
  /\ (forall m, calculateEuclidean ExactR identical_series m = 0%R)
  /\ (forall m, calculateRMSE ExactR identical_series m = 0%R)
  /\ calculateSID ExactR ln identical_series = 0%R.
Proof.
  assert (Hsame : Forall (fun p : AlignedPair ExactR => yA p = yB p) identical_series)
    by (repeat constructor).
  assert (Hn : (2 <= length identical_series)%nat) by (simpl; lia).
  assert (Hvar : exists p q, In p identical_series /\ In q identical_series
                             /\ yA p <> yA q).
  { exists (Build_AlignedPair ExactR 200%R 0%R 0%R),
           (Build_AlignedPair ExactR (401 / 2)%R 1%R 1%R).
    split; [now left|]. split; [now right; left|]. cbn [yA]. lra. }
  assert (Hmag : exists p, In p identical_series /\ yA p <> 0%R).
  { exists (Build_AlignedPair ExactR (401 / 2)%R 1%R 1%R).
    split; [now right; left|]. cbn [yA]. lra. }
  destruct (proj1 (self_comparison_and_symmetry identical_series) Hsame)
    as [Hp [Hc [He [Hr Hs]]]].
  repeat (split; [assumption|]).
  split; [exact (Hp Hn Hvar)|]. split; [exact (Hc Hmag)|].
  split; [exact He|]. split; [exact Hr | exact Hs].
Defined.

Lemma no_overlap_no_entry_witness :
  (Rmin (wavelength (last spectrum_200_210 (Build_DataPoint ExactR 200 (1 / 10))))
        (wavelength (last spectrum_250_260 (Build_DataPoint ExactR 250 (2 / 10))))
   < Rmax 200 250)%R
  /\ getOverlapData ExactR 10 spectrum_200_210 spectrum_250_260 = Some []
  /\ filterCommon ExactR default_settings [] = []
  /\ pairEntries ExactR ln default_settings sample_low sample_high [] = []
  /\ similarityMatrix ExactR ln 10 default_settings [sample_low; sample_high]
     = Some [].
Proof.
  assert (H : (Rmin (wavelength (last spectrum_200_210
                                      (Build_DataPoint ExactR 200 (1 / 10))))
                    (wavelength (last spectrum_250_260
                                      (Build_DataPoint ExactR 250 (2 / 10))))
               < Rmax 200 250)%R).
  { cbn [last spectrum_200_210 spectrum_250_260 wavelength].
    unfold Rmin, Rmax.
    destruct (Rle_dec 210 260); destruct (Rle_dec 200 250); lra. }
  pose proof (proj1 no_overlap_no_entry 10%nat
                (Build_DataPoint ExactR 200%R (1 / 10)%R)
                (Build_DataPoint ExactR 250%R (2 / 10)%R)
                [Build_DataPoint ExactR 210%R (3 / 10)%R]
                [Build_DataPoint ExactR 260%R (4 / 10)%R] H) as Hempty.
  split; [exact H|]. split; [exact Hempty|]. split; [reflexivity|].
  destruct (proj2 no_overlap_no_entry 10%nat default_settings sample_low sample_high
                  [] Hempty eq_refl) as [Hpair [_ Hreport]].
  split; [exact Hpair | exact Hreport].
Defined.

(** * Further properties *)

(** ** The aligner: termination and the grid *)

Lemma up_pred (r : R) : up (r - 1) = (up r - 1)%Z.
Proof.
  symmetry. destruct (archimed r) as [H1 H2].
  apply tech_up; rewrite minus_IZR; lra.
Qed.

Lemma gridSize_stop (w maxW : R) : (maxW < w)%R -> gridSize w maxW = 0%nat.
Proof.
  intros H. unfold gridSize.
  destruct (archimed (2 * (maxW - w))) as [_ H2].
  assert (Hlt : (IZR (up (2 * (maxW - w))) < IZR 1)%R) by lra.
  apply lt_IZR in Hlt. lia.
Qed.

Lemma gridSize_step (w maxW : R) :
  (w <= maxW)%R -> gridSize w maxW = S (gridSize (w + / 2) maxW).
Proof.
  intros H. unfold gridSize.
  replace (2 * (maxW - (w + / 2)))%R with (2 * (maxW - w) - 1)%R by lra.
  rewrite up_pred.
  destruct (archimed (2 * (maxW - w))) as [H1 _].
  assert (Hlt : (IZR 0 < IZR (up (2 * (maxW - w))))%R) by lra.
  apply lt_IZR in Hlt. lia.
Qed.

Lemma gridSize_enough (w maxW : R) (fuel : nat) :
  (2 * (maxW - w) < INR fuel)%R -> (gridSize w maxW <= fuel)%nat.
Proof.
  intros H. unfold gridSize.
  destruct (archimed (2 * (maxW - w))) as [_ H2].
  rewrite INR_IZR_INZ in H.
  assert (Hlt : (IZR (up (2 * (maxW - w))) < IZR (Z.of_nat fuel + 1))%R)
    by (rewrite plus_IZR; lra).
  apply lt_IZR in Hlt. lia.
Qed.

Lemma gridPoints_S (dataA dataB : list (DataPoint ExactR)) (w : R) (n : nat) :
  gridPoints dataA dataB w (S n)
  = gridPoint dataA dataB w :: gridPoints dataA dataB (w + / 2) n.
Proof.
  unfold gridPoints. rewrite <- cons_seq, <- seq_shift, map_cons, map_map.
  f_equal.
  - f_equal. simpl. lra.
  - apply map_ext. intros k. f_equal. rewrite S_INR. lra.
Qed.

Lemma alignLoop_closed_form (dataA dataB : list (DataPoint ExactR)) (maxW : R)
      (fuel : nat) (w : R) :
  (gridSize w maxW <= fuel)%nat ->
  alignLoop ExactR fuel dataA dataB maxW w
  = Some (gridPoints dataA dataB w (gridSize w maxW)).
Proof.
  revert w. induction fuel as [|fuel IH]; intros w Hf; cbn [alignLoop]; exact_arith.
  - destruct (Rle_dec w maxW) as [Hle|Hgt].
    + rewrite gridSize_step in Hf by assumption. lia.
    + rewrite Rle_bool_false, gridSize_stop by lra. reflexivity.
  - destruct (Rle_dec w maxW) as [Hle|Hgt].
    + rewrite Rle_bool_true by assumption.
      rewrite gridSize_step in * by assumption.
      rewrite IH by lia. now rewrite gridPoints_S.
    + rewrite Rle_bool_false, gridSize_stop by lra. reflexivity.
Qed.

Lemma gridPoints_nth (dataA dataB : list (DataPoint ExactR)) (w : R) (n k : nat)
      (d : AlignedPair ExactR) :
  (k < n)%nat ->
  nth k (gridPoints dataA dataB w n) d = gridPoint dataA dataB (w + INR k * / 2)%R.
Proof.
  intros H. unfold gridPoints.
  rewrite nth_indep with (d' := gridPoint dataA dataB (w + INR 0 * / 2)%R)
    by now rewrite length_map, length_seq.
  now rewrite (map_nth (fun k => gridPoint dataA dataB (w + INR k * / 2)%R)), seq_nth.
Qed.

Lemma gridSize_inside (w maxW : R) (k : nat) :
  (k < gridSize w maxW)%nat -> (w + INR k * / 2 <= maxW)%R.
Proof.
  unfold gridSize. intros H.
  destruct (archimed (2 * (maxW - w))) as [_ H2].
  assert (Hk : (IZR (Z.of_nat k + 1) <= IZR (up (2 * (maxW - w))))%R)
    by (apply IZR_le; lia).
  rewrite plus_IZR, <- INR_IZR_INZ in Hk. lra.
Qed.

Lemma getOverlapData_closed_form
      (fuel : nat) (a0 b0 : DataPoint ExactR) (ta tb : list (DataPoint ExactR)) :
  let dataA := a0 :: ta in
  let dataB := b0 :: tb in
  let minW := Rmax (wavelength a0) (wavelength b0) in
  let maxW := Rmin (wavelength (last dataA a0)) (wavelength (last dataB b0)) in
  (2 * (maxW - minW) < INR fuel)%R ->
  getOverlapData ExactR fuel dataA dataB
  = Some (gridPoints dataA dataB minW (gridSize minW maxW)).
Proof.
  intros dataA dataB minW maxW Hfuel.
  unfold getOverlapData. fold dataA dataB. exact_arith. fold minW maxW.
  apply alignLoop_closed_form, gridSize_enough, Hfuel.
Qed.

(** X1: On non-empty spectra the alignment loop ends: with fuel above
    [2 * (maxW - minW)] the result is the grid [minW, minW + 0.5, ...] of
    [gridSize minW maxW] points, each carrying the two interpolated values;
    the grid is empty exactly when [maxW < minW]. *)
Theorem getOverlapData_grid
  (fuel : nat) (a0 b0 : DataPoint ExactR) (ta tb : list (DataPoint ExactR)) :
  let dataA := a0 :: ta in
  let dataB := b0 :: tb in
  let minW := Rmax (wavelength a0) (wavelength b0) in
  let maxW := Rmin (wavelength (last dataA a0)) (wavelength (last dataB b0)) in
  (2 * (maxW - minW) < INR fuel)%R ->
  getOverlapData ExactR fuel dataA dataB
  = Some (gridPoints dataA dataB minW (gridSize minW maxW))
  /\ (gridSize minW maxW = 0%nat <-> (maxW < minW)%R).
Proof.
  intros dataA dataB minW maxW Hfuel. split.
  - now apply getOverlapData_closed_form.
  - split.
    + intros Hz. destruct (Rle_dec minW maxW) as [Hle|Hgt]; [|lra].
      rewrite gridSize_step in Hz by assumption. discriminate.
    + apply gridSize_stop.
Qed.

Lemma alignLoop_is_grid (dataA dataB : list (DataPoint ExactR)) (maxW : R)
      (fuel : nat) (w : R) (common : list (AlignedPair ExactR)) :
  alignLoop ExactR fuel dataA dataB maxW w = Some common ->
  common = gridPoints dataA dataB w (gridSize w maxW).
Proof.
  revert w common. induction fuel as [|fuel IH]; intros w common H;
    cbn [alignLoop] in H; exact_arith.
  - destruct (Rle_dec w maxW) as [Hle|Hgt].
    + rewrite Rle_bool_true in H by assumption. discriminate.
    + rewrite Rle_bool_false in H by lra. rewrite gridSize_stop by lra.
      now inversion H.
  - destruct (Rle_dec w maxW) as [Hle|Hgt].
    + rewrite Rle_bool_true in H by assumption.
      destruct (alignLoop ExactR fuel dataA dataB maxW (w + / 2)%R) as [rest|] eqn:Hr;
        [|discriminate].
      inversion H; subst common.
      rewrite gridSize_step, gridPoints_S by assumption.
      f_equal. now apply IH.
    + rewrite Rle_bool_false in H by lra. rewrite gridSize_stop by lra.
      now inversion H.
Qed.

(** X2: In exact arithmetic, whatever the fuel, a result of the aligner is
    strictly increasing in [x] with steps of 0.5, stays inside
    [[minW, maxW]], and carries at each [x] the interpolation of either
    spectrum at [x].  (In binary64 the sum [w + 0.5] is rounded, so the
    steps are 0.5 only up to rounding.) *)
Theorem getOverlapData_increasing
  (fuel : nat) (a0 b0 : DataPoint ExactR) (ta tb : list (DataPoint ExactR))
  (common : list (AlignedPair ExactR)) (d : AlignedPair ExactR) :
  let dataA := a0 :: ta in
  let dataB := b0 :: tb in
  let minW := Rmax (wavelength a0) (wavelength b0) in
  let maxW := Rmin (wavelength (last dataA a0)) (wavelength (last dataB b0)) in
  getOverlapData ExactR fuel dataA dataB = Some common ->
  (forall i j : nat, (i < j < length common)%nat ->
      (x (nth i common d) < x (nth j common d))%R
      /\ (x (nth j common d) - x (nth i common d) = (INR j - INR i) * / 2)%R)
  /\ Forall (fun p : AlignedPair ExactR =>
               (minW <= x p <= maxW)%R
               /\ yA p = interpolate ExactR dataA (x p)
               /\ yB p = interpolate ExactR dataB (x p)) common.
Proof.
  intros dataA dataB minW maxW H.
  unfold getOverlapData in H. fold dataA dataB in H. exact_arith. fold minW maxW in H.
  apply alignLoop_is_grid in H. subst common. fold minW. fold maxW.
  set (n := gridSize minW maxW).
  assert (Hlen : length (gridPoints dataA dataB minW n) = n)
    by (unfold gridPoints; now rewrite length_map, length_seq).
  split.
  - rewrite Hlen. intros i j Hij.
    rewrite !gridPoints_nth by lia. cbn [gridPoint x].
    assert (Hlt : (INR i < INR j)%R) by (apply lt_INR; lia).
    split; lra.
  - apply Forall_forall. intros p Hp. unfold gridPoints in Hp.
    apply in_map_iff in Hp. destruct Hp as [k [<- Hk]]. apply in_seq in Hk.
    cbn [gridPoint x yA yB]. split; [|split; reflexivity].
    pose proof (pos_INR k). split; [lra|].
    apply gridSize_inside. fold n. lia.
Qed.

(** ** The interpolation: sample points and bounds *)

Lemma point_at_In (data : list (DataPoint ExactR)) (k : nat) :
  (k < length data)%nat -> In (point_at ExactR data (Z.of_nat k)) data.
Proof. intros H. unfold point_at. rewrite Nat2Z.id. now apply nth_In. Qed.

Lemma point_at_pred (data : list (DataPoint ExactR)) (k : nat) :
  (0 < k)%nat ->
  point_at ExactR data (Z.of_nat k - 1) = point_at ExactR data (Z.of_nat (k - 1)).
Proof. intros H. f_equal. lia. Qed.

(** X3: At the wavelength of one of its own points a spectrum with strictly
    increasing wavelengths is reproduced exactly. *)
Theorem interpolate_reproduces_samples (data : list (DataPoint ExactR)) (k : nat) :
  strictlyIncreasing data -> (k < length data)%nat ->
  interpolate ExactR data (wavelength (point_at ExactR data (Z.of_nat k)))
  = absorption (point_at ExactR data (Z.of_nat k)).
Proof.
  intros Hinc Hk. destruct k as [|k].
  - apply interpolate_at_or_below_first.
    + intros ->. simpl in Hk. lia.
    + apply Rle_refl.
  - set (w := wavelength (point_at ExactR data (Z.of_nat (S k)))).
    destruct (interpolate_between data w) as [k' [Hk' [Hbefore [Hat Heq]]]].
    + apply (Hinc 0%nat (S k)). lia.
    + exists (point_at ExactR data (Z.of_nat (S k))).
      split; [now apply point_at_In | apply Rle_refl].
    + assert (Hsame : k' = S k).
      { destruct (Nat.lt_trichotomy k' (S k)) as [Hlt|[He|Hgt]]; [|exact He|].
        - pose proof (Hinc k' (S k) (conj Hlt Hk)) as Hw. fold w in Hw. lra.
        - pose proof (Hbefore (S k) Hgt) as Hw. fold w in Hw. lra. }
      subst k'. cbv zeta in Heq. rewrite Heq.
      rewrite point_at_pred by lia.
      pose proof (Hinc (S k - 1)%nat (S k)) as Hstep. fold w in Hstep.
      assert (Hd : (wavelength (point_at ExactR data (Z.of_nat (S k - 1))) < w)%R)
        by (apply Hstep; lia).
      fold w. exact_arith. field. lra.
Qed.

(** X4: In exact arithmetic the interpolation never leaves the range of the
    absorptions of the spectrum, whatever the query and whatever the order
    of the points.  (In binary64 the rounding of [p1 + t * (p2 - p1)] can
    leave it by a few units in the last place.) *)
Theorem interpolate_within_bounds
  (data : list (DataPoint ExactR)) (targetW lo hi : R) :
  data <> [] ->
  (forall p, In p data -> (lo <= absorption p <= hi)%R) ->
  (lo <= interpolate ExactR data targetW <= hi)%R.
Proof.
  intros Hne Hb.
  assert (Hfirst : In (point_at ExactR data 0) data).
  { apply (point_at_In data 0). destruct data; [congruence | simpl; lia]. }
  destruct (Rle_dec targetW (wavelength (point_at ExactR data 0))) as [Hle|Hgt].
  - rewrite interpolate_at_or_below_first by assumption. now apply Hb.
  - destruct (Exists_dec (fun p : DataPoint ExactR => (targetW <= wavelength p)%R)
                         data (fun p => Rle_dec targetW (wavelength p)))
      as [Hex|Hnone].
    + apply Exists_exists in Hex.
      destruct (interpolate_between data targetW) as [k [Hk [Hbefore [Hat Heq]]]];
        [lra | exact Hex |].
      cbv zeta in Heq. rewrite Heq. rewrite point_at_pred by lia.
      set (p1 := point_at ExactR data (Z.of_nat (k - 1))).
      set (p2 := point_at ExactR data (Z.of_nat k)).
      assert (H1 : (lo <= absorption p1 <= hi)%R) by (apply Hb, point_at_In; lia).
      assert (H2 : (lo <= absorption p2 <= hi)%R) by (apply Hb, point_at_In; lia).
      assert (Hw1 : (wavelength p1 < targetW)%R) by (apply Hbefore; lia).
      fold p2 in Hat.
      set (t := ((targetW - wavelength p1) / (wavelength p2 - wavelength p1))%R).
      assert (Ht : (0 <= t <= 1)%R).
      { subst t. split.
        - apply Rmult_le_pos; [lra|]. apply Rlt_le, Rinv_0_lt_compat. lra.
        - apply Rmult_le_reg_r with (r := (wavelength p2 - wavelength p1)%R); [lra|].
          unfold Rdiv. rewrite Rmult_assoc, Rinv_l by lra. lra. }
      exact_arith. split; nra.
    + rewrite interpolate_beyond_last; [now apply Hb|].
      intros p Hp. apply Rnot_le_lt. intros Hle. apply Hnone.
      apply Exists_exists. now exists p.
Qed.

(** ** The smoother: bounds, constants, and no division by zero *)

Lemma In_Zrange (lo hi k : Z) : In k (Zrange lo hi) <-> (lo <= k <= hi)%Z.
Proof.
  unfold Zrange. rewrite in_map_iff. split.
  - intros [n [<- Hn]]. apply in_seq in Hn. lia.
  - intros H. exists (Z.to_nat (k - lo)). split; [lia|]. apply in_seq. lia.
Qed.

Lemma mean_within_bounds (l : list R) (lo hi : R) :
  l <> [] -> (forall t, In t l -> (lo <= t <= hi)%R) ->
  (lo <= Rsum l / INR (length l) <= hi)%R.
Proof.
  intros Hne Hb.
  assert (Hsum : (lo * INR (length l) <= Rsum l <= hi * INR (length l))%R).
  { clear Hne. induction l as [|a l IH].
    - simpl. lra.
    - cbn [Rsum fold_right length]. fold (Rsum l). rewrite S_INR.
      assert (Ha : (lo <= a <= hi)%R) by (apply Hb; now left).
      assert (Hl : (lo * INR (length l) <= Rsum l <= hi * INR (length l))%R)
        by (apply IH; intros t Ht; apply Hb; now right).
      lra. }
  assert (Hn : (0 < INR (length l))%R).
  { apply lt_0_INR. destruct l; [congruence | simpl; lia]. }
  split.
  - apply Rmult_le_reg_r with (r := INR (length l)); [assumption|].
    unfold Rdiv. rewrite Rmult_assoc, Rinv_l by lra. lra.
  - apply Rmult_le_reg_r with (r := INR (length l)); [assumption|].
    unfold Rdiv. rewrite Rmult_assoc, Rinv_l by lra. lra.
Qed.

(** The window of element [i]: the values averaged and their number. *)
Lemma window_contents (v : list R) (h i : Z) :
  (0 <= h)%Z -> (0 <= i < Z.of_nat (length v))%Z ->
  exists l : list R,
    l <> [] /\ (forall t, In t l -> In t v)
    /\ fold_left (windowStep ExactR v) (Zrange (i - h) (i + h)) (0%R, 0%nat)
       = (Rsum l, length l).
Proof.
  intros Hh Hi.
  set (lo := Z.max 0 (i - h)). set (hi := Z.min (Z.of_nat (length v) - 1) (i + h)).
  exists (map (fun j => nth (Z.to_nat j) v 0%R) (Zrange lo hi)).
  split; [|split].
  - intros Hnil. apply (f_equal (@length R)) in Hnil.
    rewrite length_map, Zrange_length in Hnil. simpl in Hnil. lia.
  - intros t Ht. apply in_map_iff in Ht. destruct Ht as [j [<- Hj]].
    apply In_Zrange in Hj. apply nth_In. lia.
  - rewrite windowStep_fold, filter_inBounds_Zrange. fold lo hi.
    rewrite length_map, Rplus_0_l. reflexivity.
Qed.

Lemma applyMovingAverage_elements (v : list R) (window : Z) (y : R) :
  In y (applyMovingAverage ExactR v window) ->
  In y v
  \/ exists l : list R,
       l <> [] /\ (forall t, In t l -> In t v) /\ y = (Rsum l / INR (length l))%R.
Proof.
  unfold applyMovingAverage. exact_arith.
  destruct ((window <=? 1)%Z || (length v =? 0)%nat)%bool eqn:Hc;
    [intros Hy; now left|].
  apply orb_false_iff in Hc. destruct Hc as [Hw Hn].
  apply Z.leb_gt in Hw. apply Nat.eqb_neq in Hn.
  intros Hy. right. apply in_map_iff in Hy. destruct Hy as [i [<- Hi]].
  apply In_Zrange in Hi.
  destruct (window_contents v (window / 2) i) as [l [Hne [Hsub Hfold]]].
  - apply Z.div_pos; lia.
  - exact_arith. lia.
  - exists l. split; [assumption|]. split; [assumption|].
    exact_arith. now rewrite Hfold.
Qed.

Lemma constant_lists_equal (c : R) (l1 l2 : list R) :
  length l1 = length l2 ->
  (forall t, In t l1 -> t = c) -> (forall t, In t l2 -> t = c) -> l1 = l2.
Proof.
  revert l2. induction l1 as [|a l1 IH]; intros [|b l2] Hlen H1 H2;
    try discriminate; [reflexivity|].
  f_equal.
  - rewrite (H1 a), (H2 b); auto using in_eq.
  - apply IH; [simpl in Hlen; lia | |]; intros t Ht; [apply H1 | apply H2];
      now right.
Qed.

(** X5: Smoothing never leaves the range of its input, for every window; in
    particular a constant sequence is returned as it is. *)
Theorem applyMovingAverage_within_bounds (v : list R) (window : Z) :
  (forall lo hi : R,
      (forall t, In t v -> (lo <= t <= hi)%R) ->
      forall y, In y (applyMovingAverage ExactR v window) -> (lo <= y <= hi)%R)
  /\ (forall c : R, (forall t, In t v -> t = c) ->
                    applyMovingAverage ExactR v window = v).
Proof.
  assert (Hb : forall lo hi : R,
             (forall t, In t v -> (lo <= t <= hi)%R) ->
             forall y, In y (applyMovingAverage ExactR v window) -> (lo <= y <= hi)%R).
  { intros lo hi Hv y Hy.
    destruct (applyMovingAverage_elements v window y Hy) as [Hin|[l [Hne [Hsub ->]]]].
    - now apply Hv.
    - apply mean_within_bounds; [assumption|]. intros t Ht. now apply Hv, Hsub. }
  split; [exact Hb|].
  intros c Hc. apply (constant_lists_equal c).
  - exact (applyMovingAverage_length ExactR v window).
  - intros y Hy.
    assert (Hy' : (c <= y <= c)%R).
    { apply (Hb c c); [|exact Hy]. intros t Ht. rewrite (Hc t Ht). lra. }
    lra.
  - exact Hc.
Qed.

Lemma windowStep_checked_fold (v : list R) (l : list Z) (s : R) (c : nat) :
  fold_left (windowStep Checked (map Some v)) l (Some s, c)
  = (Some (fst (fold_left (windowStep ExactR v) l (s, c))),
     snd (fold_left (windowStep ExactR v) l (s, c))).
Proof.
  revert s c. induction l as [|j l IH]; intros s c; [reflexivity|].
  cbn [fold_left].
  replace (windowStep Checked (map Some v) (Some s, c) j)
    with (if inBounds (length v) j
          then (Some (s + nth (Z.to_nat j) v 0)%R, S c) else (Some s, c)).
  - replace (windowStep ExactR v (s, c) j)
      with (if inBounds (length v) j
            then ((s + nth (Z.to_nat j) v 0)%R, S c) else (s, c))
      by reflexivity.
    destruct (inBounds (length v) j); apply IH.
  - unfold windowStep, inBounds. rewrite length_map.
    destruct ((0 <=? j)%Z && (j <? Z.of_nat (length v))%Z)%bool; [|reflexivity].
    cbn [fst snd]. checked_arith. now rewrite (map_nth Some).
Qed.

(** In exact arithmetic the smoother never divides by zero: every window
    holds at least the element it is centred on. *)
Lemma applyMovingAverage_checked (v : list R) (window : Z) :
  applyMovingAverage Checked (map Some v) window
  = map Some (applyMovingAverage ExactR v window).
Proof.
  unfold applyMovingAverage. rewrite length_map. exact_arith.
  destruct ((window <=? 1)%Z || (length v =? 0)%nat)%bool eqn:Hc; [reflexivity|].
  apply orb_false_iff in Hc. destruct Hc as [Hw Hn].
  apply Z.leb_gt in Hw. apply Nat.eqb_neq in Hn.
  rewrite map_map. apply map_ext_in. intros i Hi. apply In_Zrange in Hi.
  checked_arith. rewrite windowStep_checked_fold. cbn [fst snd].
  destruct (window_contents v (window / 2) i) as [l [Hne [_ Hfold]]].
  - apply Z.div_pos; lia.
  - lia.
  - exact_arith. rewrite Hfold. cbn [fst snd checked_div].
    rewrite Req_bool_false; [reflexivity|].
    apply not_0_INR. destruct l; [congruence | discriminate].
Qed.

(** ** The normalizer: idempotence and invariance *)

Lemma l1norm_zero_all (v : list R) : l1norm v = 0%R -> forall t, In t v -> t = 0%R.
Proof.
  intros Hz t Ht. unfold l1norm in Hz.
  assert (Hf : Forall (fun u => 0 <= u)%R (map Rabs v)).
  { apply Forall_forall. intros u Hu. apply in_map_iff in Hu.
    destruct Hu as [w [<- _]]. apply Rabs_pos. }
  pose proof (Rsum_nonneg_zero _ Hf Hz) as Hall. rewrite Forall_forall in Hall.
  assert (Habs : Rabs t = 0%R) by (apply Hall, in_map_iff; now exists t).
  destruct (Req_dec_T t 0) as [|Hn]; [assumption|].
  now apply Rabs_no_R0 in Hn.
Qed.

Lemma minmax_output_extrema (v : list R) (mn mx : R) :
  isMin v mn -> isMax v mx -> mx <> mn ->
  isMin (map (fun t => (t - mn) / (mx - mn))%R v) 0%R
  /\ isMax (map (fun t => (t - mn) / (mx - mn))%R v) 1%R.
Proof.
  intros [Hin Hle] [Hin' Hge] Hd.
  assert (Hlt : (mn < mx)%R) by (pose proof (Hge mn Hin); lra).
  split; split.
  - apply in_map_iff. exists mn. split; [field; lra | assumption].
  - intros y Hy. apply in_map_iff in Hy. destruct Hy as [t [<- Ht]].
    apply Rmult_le_pos; [specialize (Hle t Ht); lra|].
    apply Rlt_le, Rinv_0_lt_compat. lra.
  - apply in_map_iff. exists mx. split; [field; lra | assumption].
  - intros y Hy. apply in_map_iff in Hy. destruct Hy as [t [<- Ht]].
    specialize (Hge t Ht).
    apply Rmult_le_reg_r with (r := (mx - mn)%R); [lra|].
    unfold Rdiv. rewrite Rmult_assoc, Rinv_l by lra. lra.
Qed.

Lemma minOf_is (v0 : R) (vs : list R) (m : R) :
  isMin (v0 :: vs) m -> minOf ExactR v0 vs = m.
Proof. intros H. exact (isMin_unique _ _ _ (minOf_spec v0 vs) H). Qed.

Lemma maxOf_is (v0 : R) (vs : list R) (m : R) :
  isMax (v0 :: vs) m -> maxOf ExactR v0 vs = m.
Proof. intros H. exact (isMax_unique _ _ _ (maxOf_spec v0 vs) H). Qed.

Lemma normalizeValues_minmax_by_extrema (v0 : R) (vs : list R) (mn mx : R) :
  isMin (v0 :: vs) mn -> isMax (v0 :: vs) mx ->
  normalizeValues ExactR (v0 :: vs) minmax =
  if Req_bool (mx - mn) 0 then map (fun _ => 0%R) (v0 :: vs)
  else map (fun t => (t - mn) / (mx - mn))%R (v0 :: vs).
Proof.
  intros Hmin Hmax. rewrite normalizeValues_minmax_eq.
  now rewrite (minOf_is _ _ _ Hmin), (maxOf_is _ _ _ Hmax).
Qed.

Lemma map_const_extrema (v0 : R) (vs : list R) (c : R) :
  isMin (map (fun _ => c) (v0 :: vs)) c /\ isMax (map (fun _ => c) (v0 :: vs)) c.
Proof.
  split; (split; [now left|]); intros t Ht; apply in_map_iff in Ht;
    destruct Ht as [u [<- _]]; lra.
Qed.

(** X6: Normalizing twice is normalizing once, under each of the three
    policies. *)
Theorem normalizeValues_idempotent (v : list R) (m : NormalizationMethod) :
  normalizeValues ExactR (normalizeValues ExactR v m) m = normalizeValues ExactR v m.
Proof.
  destruct m.
  - reflexivity.
  - rewrite (normalizeValues_area_eq v).
    destruct (Req_bool (l1norm v) 0) eqn:Hs.
    + rewrite normalizeValues_area_eq. now rewrite Hs.
    + apply Req_bool_neq in Hs. pose proof (l1norm_nonneg v).
      rewrite normalizeValues_area_eq, l1norm_scale by lra.
      replace (l1norm v / l1norm v)%R with 1%R by (field; assumption).
      rewrite Req_bool_false by lra.
      rewrite <- (map_id (map (fun t => t / l1norm v)%R v)) at 2.
      apply map_ext. intros t. field.
  - destruct v as [|v0 vs]; [reflexivity|].
    rewrite (normalizeValues_minmax_eq v0 vs).
    set (mn := minOf ExactR v0 vs). set (mx := maxOf ExactR v0 vs).
    destruct (Req_bool (mx - mn) 0) eqn:Hs.
    + destruct (map_const_extrema v0 vs 0) as [Hmin Hmax].
      cbn [map] in *.
      rewrite (normalizeValues_minmax_by_extrema _ _ 0 0 Hmin Hmax).
      rewrite Req_bool_true by lra. cbn [map]. now rewrite map_map.
    + apply Req_bool_neq in Hs.
      destruct (minmax_output_extrema (v0 :: vs) mn mx) as [Hmin Hmax];
        [apply minOf_spec | apply maxOf_spec | lra |].
      cbn [map] in *.
      rewrite (normalizeValues_minmax_by_extrema _ _ 0 1 Hmin Hmax).
      rewrite Req_bool_false by lra.
      set (out := ((v0 - mn) / (mx - mn))%R :: map (fun t => (t - mn) / (mx - mn))%R vs).
      rewrite <- (map_id out) at 2.
      apply map_ext. intros t. field.
Qed.

Lemma l1norm_map_scale (c : R) (v : list R) :
  (0 < c)%R -> l1norm (map (fun t => c * t)%R v) = (c * l1norm v)%R.
Proof.
  intros Hc. unfold l1norm. rewrite map_map.
  rewrite (map_ext (fun t => Rabs (c * t)) (fun t => Rabs t * c)%R).
  - rewrite <- (map_map Rabs (fun t => t * c)%R), Rsum_map_scale. ring.
  - intros t. rewrite Rabs_mult, (Rabs_right c) by lra. ring.
Qed.

Lemma isMin_affine (c d : R) (v : list R) (m : R) :
  (0 < c)%R -> isMin v m -> isMin (map (fun t => c * t + d)%R v) (c * m + d)%R.
Proof.
  intros Hc [Hin Hle]. split.
  - apply in_map_iff. now exists m.
  - intros y Hy. apply in_map_iff in Hy. destruct Hy as [t [<- Ht]].
    specialize (Hle t Ht). nra.
Qed.

Lemma isMax_affine (c d : R) (v : list R) (m : R) :
  (0 < c)%R -> isMax v m -> isMax (map (fun t => c * t + d)%R v) (c * m + d)%R.
Proof.
  intros Hc [Hin Hge]. split.
  - apply in_map_iff. now exists m.
  - intros y Hy. apply in_map_iff in Hy. destruct Hy as [t [<- Ht]].
    specialize (Hge t Ht). nra.
Qed.

(** X7: Normalization removes the scale of a signal: area normalization is
    unchanged by a positive gain, min-max normalization by a positive gain
    and any offset. *)
Theorem normalizeValues_gain_invariant (v : list R) (c : R) :
  (0 < c)%R ->
  normalizeValues ExactR (map (fun t => c * t)%R v) area = normalizeValues ExactR v area
  /\ forall d : R,
       normalizeValues ExactR (map (fun t => c * t + d)%R v) minmax
       = normalizeValues ExactR v minmax.
Proof.
  intros Hc. split.
  - rewrite !normalizeValues_area_eq, l1norm_map_scale by assumption.
    pose proof (l1norm_nonneg v).
    destruct (Req_dec_T (l1norm v) 0) as [Hz|Hnz].
    + rewrite Hz, Rmult_0_r, Req_bool_true by reflexivity.
      rewrite <- (map_id v) at 2. apply map_ext_in. intros t Ht.
      rewrite (l1norm_zero_all v Hz t Ht). ring.
    + rewrite !Req_bool_false by nra.
      rewrite map_map. apply map_ext. intros t. field. split; lra.
  - intros d. destruct v as [|v0 vs]; [reflexivity|].
    pose proof (minOf_spec v0 vs) as Hmin. pose proof (maxOf_spec v0 vs) as Hmax.
    set (mn := minOf ExactR v0 vs) in *. set (mx := maxOf ExactR v0 vs) in *.
    pose proof (isMin_affine c d _ _ Hc Hmin) as Hmin'.
    pose proof (isMax_affine c d _ _ Hc Hmax) as Hmax'.
    cbn [map] in Hmin', Hmax'. cbn [map].
    rewrite (normalizeValues_minmax_by_extrema _ _ _ _ Hmin' Hmax').
    rewrite (normalizeValues_minmax_by_extrema _ _ _ _ Hmin Hmax).
    assert (Hle : (mn <= mx)%R) by (destruct Hmin as [Hi _]; now apply Hmax).
    destruct (Req_dec_T (mx - mn) 0) as [Hz|Hnz].
    + rewrite !Req_bool_true by nra.
      cbn [map]. now rewrite map_map.
    + assert (Hlt : (mn < mx)%R).
      { destruct Hle as [Hlt|Heq]; [assumption|]. exfalso. apply Hnz. lra. }
      rewrite !Req_bool_false by nra.
      cbn [map]. rewrite map_map. f_equal; [field; split; nra|].
      apply map_ext. intros t. field. split; nra.
Qed.

(** ** The correlations lie between -1 and 1 *)

Lemma quadratic_discriminant (X Y Z : R) :
  (0 <= X)%R -> (forall t : R, 0 <= X * (t * t) - 2 * Y * t + Z)%R ->
  (Y * Y <= X * Z)%R.
Proof.
  intros HX H. destruct HX as [HX|HX].
  - specialize (H (Y / X)%R).
    replace (X * (Y / X * (Y / X)) - 2 * Y * (Y / X) + Z)%R
      with (Z - Y * Y / X)%R in H by (field; lra).
    assert (Hdiv : (Y * Y / X <= Z)%R) by lra.
    apply Rmult_le_compat_l with (r := X) in Hdiv; [|lra].
    replace (X * (Y * Y / X))%R with (Y * Y)%R in Hdiv by (field; lra). lra.
  - subst X. destruct (Req_dec_T Y 0) as [->|HY]; [lra|].
    specialize (H ((Z + 1) / (2 * Y))%R).
    replace (0 * ((Z + 1) / (2 * Y) * ((Z + 1) / (2 * Y)))
             - 2 * Y * ((Z + 1) / (2 * Y)) + Z)%R
      with (-1)%R in H by (field; assumption).
    lra.
Qed.

Lemma Rsum_cons (a : R) (l : list R) : Rsum (a :: l) = (a + Rsum l)%R.
Proof. reflexivity. Qed.

Section Combinations.

Context {T : Type}.
Variables f g : T -> R.
Variable t : R.

Lemma Rsum_combination (l : list T) :
  Rsum (map (fun p => t * f p - g p)%R l)
  = (t * Rsum (map f l) - Rsum (map g l))%R.
Proof.
  induction l as [|p l IH]; [simpl; lra|].
  rewrite !map_cons, !Rsum_cons, IH. ring.
Qed.

Lemma Rsum_combination_sq (l : list T) :
  Rsum (map (fun p => (t * f p - g p) * (t * f p - g p))%R l)
  = (Rsum (map (fun p => f p * f p) l) * (t * t)
     - 2 * Rsum (map (fun p => f p * g p) l) * t
     + Rsum (map (fun p => g p * g p) l))%R.
Proof.
  induction l as [|p l IH]; [simpl; lra|].
  rewrite !map_cons, !Rsum_cons, IH. ring.
Qed.

Lemma spread_combination (l : list T) :
  spread (map (fun p => t * f p - g p)%R l)
  = (spread (map f l) * (t * t)
     - 2 * (INR (length l) * Rsum (map (fun p => f p * g p) l)
            - Rsum (map f l) * Rsum (map g l)) * t
     + spread (map g l))%R.
Proof.
  rewrite <- !spread_map.
  rewrite Rsum_combination, Rsum_combination_sq. ring.
Qed.

End Combinations.

Lemma cauchy_schwarz_sums {T : Type} (f g : T -> R) (l : list T) :
  (Rsum (map (fun p => f p * g p) l) * Rsum (map (fun p => f p * g p) l)
   <= Rsum (map (fun p => f p * f p) l) * Rsum (map (fun p => g p * g p) l))%R.
Proof.
  apply quadratic_discriminant.
  - rewrite <- (map_map f (fun u => u * u)%R). apply sum_squares_nonneg.
  - intros t. rewrite <- (Rsum_combination_sq f g t l).
    rewrite <- (map_map (fun p => t * f p - g p)%R (fun u => u * u)%R).
    apply sum_squares_nonneg.
Qed.

Lemma cauchy_schwarz_spread {T : Type} (f g : T -> R) (l : list T) :
  let cov := (INR (length l) * Rsum (map (fun p => f p * g p) l)
              - Rsum (map f l) * Rsum (map g l))%R in
  (cov * cov <= spread (map f l) * spread (map g l))%R.
Proof.
  intros cov. apply quadratic_discriminant.
  - apply spread_nonneg.
  - intros t. fold cov. unfold cov. rewrite <- (spread_combination f g t l).
    apply spread_nonneg.
Qed.

Lemma ratio_within_unit (num den : R) :
  (0 < den)%R -> (num * num <= den * den)%R -> (-1 <= num / den <= 1)%R.
Proof.
  intros Hd Hsq.
  assert (Hn : (- den <= num <= den)%R) by (split; nra).
  split.
  - apply Rmult_le_reg_r with (r := den); [assumption|].
    unfold Rdiv. rewrite Rmult_assoc, Rinv_l by lra. lra.
  - apply Rmult_le_reg_r with (r := den); [assumption|].
    unfold Rdiv. rewrite Rmult_assoc, Rinv_l by lra. lra.
Qed.

(** X9: In exact arithmetic the Pearson correlation always lies in [[-1, 1]]
    (the code does not clamp it: this is the Cauchy-Schwarz inequality). *)
Theorem calculatePearson_range (common : list (AlignedPair ExactR)) :
  (-1 <= calculatePearson ExactR common <= 1)%R.
Proof.
  rewrite calculatePearson_eq. unfold pearsonFormula. cbv zeta.
  destruct (length common <? 2)%nat; [lra|].
  rewrite (spread_map (@yA ExactR)), (spread_map (@yB ExactR)).
  pose proof (spread_nonneg (map (@yA ExactR) common)) as HA.
  pose proof (spread_nonneg (map (@yB ExactR) common)) as HB.
  exact_arith.
  match goal with
  | |- context [R_sqrt.sqrt (?a * ?b)] => set (XA := a) in *; set (XB := b) in *
  end.
  destruct (Req_bool (R_sqrt.sqrt (XA * XB)) 0) eqn:Hd; [lra|].
  apply Req_bool_neq in Hd.
  assert (Hprod : (0 <= XA * XB)%R) by now apply Rmult_le_pos.
  assert (Hpos : (0 < R_sqrt.sqrt (XA * XB))%R).
  { pose proof (sqrt_pos (XA * XB)). lra. }
  apply ratio_within_unit; [assumption|].
  rewrite sqrt_sqrt by assumption.
  exact (cauchy_schwarz_spread (@yA ExactR) (@yB ExactR) common).
Qed.

(** X10: In exact arithmetic the cosine similarity always lies in [[-1, 1]]. *)
Theorem calculateCosineSimilarity_range (common : list (AlignedPair ExactR)) :
  (-1 <= calculateCosineSimilarity ExactR common <= 1)%R.
Proof.
  rewrite calculateCosineSimilarity_eq. unfold cosineFormula.
  set (sAA := Rsum (map (fun p : AlignedPair ExactR => (yA p * yA p)%R) common)).
  set (sBB := Rsum (map (fun p : AlignedPair ExactR => (yB p * yB p)%R) common)).
  assert (HA : (0 <= sAA)%R).
  { subst sAA. rewrite <- (map_map (@yA ExactR) (fun u : R => u * u)%R).
    apply sum_squares_nonneg. }
  assert (HB : (0 <= sBB)%R).
  { subst sBB. rewrite <- (map_map (@yB ExactR) (fun u : R => u * u)%R).
    apply sum_squares_nonneg. }
  destruct (Req_bool (R_sqrt.sqrt sAA) 0) eqn:Ha; [cbn [orb]; lra|].
  destruct (Req_bool (R_sqrt.sqrt sBB) 0) eqn:Hb; [cbn [orb]; lra|].
  cbn [orb]. apply Req_bool_neq in Ha, Hb.
  pose proof (sqrt_pos sAA). pose proof (sqrt_pos sBB).
  apply ratio_within_unit; [apply Rmult_lt_0_compat; lra|].
  replace (R_sqrt.sqrt sAA * R_sqrt.sqrt sBB * (R_sqrt.sqrt sAA * R_sqrt.sqrt sBB))%R
    with ((R_sqrt.sqrt sAA * R_sqrt.sqrt sAA) * (R_sqrt.sqrt sBB * R_sqrt.sqrt sBB))%R
    by ring.
  rewrite !sqrt_sqrt by assumption.
  exact (cauchy_schwarz_sums (@yA ExactR) (@yB ExactR) common).
Qed.

(** ** The two distances *)

Lemma combine_seq_map {T : Type} (l : list T) (s : nat) (d : T) :
  combine l (seq s (length l)) = map (fun i => (nth (i - s) l d, i)) (seq s (length l)).
Proof.
  revert s. induction l as [|a l IH]; intros s; [reflexivity|].
  cbn [length seq combine map]. rewrite Nat.sub_diag. cbn [nth]. f_equal.
  rewrite IH. apply map_ext_in. intros i Hi. apply in_seq in Hi.
  replace (i - s)%nat with (S (i - S s)) by lia. reflexivity.
Qed.

Lemma calculateRMSE_eq (common : list (AlignedPair ExactR)) (m : NormalizationMethod) :
  calculateRMSE ExactR common m =
  if (length common =? 0)%nat then 0%R
  else R_sqrt.sqrt
         (sumSquaredDiff (normalizeValues ExactR (map yA common) m)
                         (normalizeValues ExactR (map yB common) m)
                         (length common)
          / INR (length common)).
Proof.
  unfold calculateRMSE, sumSquaredDiff.
  destruct (length common =? 0)%nat; [reflexivity|]. exact_arith.
  rewrite fold_left_Rsum, Rplus_0_l. reflexivity.
Qed.

Lemma calculateEuclidean_eq (common : list (AlignedPair ExactR))
      (m : NormalizationMethod) :
  calculateEuclidean ExactR common m =
  if (length common =? 0)%nat then 0%R
  else R_sqrt.sqrt
         (sumSquaredDiff (normalizeValues ExactR (map yA common) m)
                         (normalizeValues ExactR (map yB common) m)
                         (length common)).
Proof.
  unfold calculateEuclidean, sumSquaredDiff.
  destruct (length common =? 0)%nat; [reflexivity|]. exact_arith.
  match goal with
  | |- context [combine ?a (seq 0 (length ?a))] => set (normA := a)
  end.
  match goal with
  | |- context [nth _ ?b _] => set (normB := b)
  end.
  assert (Hlen : length normA = length common).
  { etransitivity; [apply (normalizeValues_length ExactR) | apply length_map]. }
  rewrite (@combine_seq_map R normA 0 0%R), fold_left_map.
  change (@length R normA) with (@length (num ExactR) normA). rewrite Hlen.
  cbn [fst snd].
  rewrite (fold_left_Rsum (fun i => (nth (i - 0) normA 0 - nth i normB 0) ^ 2)%R),
    Rplus_0_l.
  f_equal. f_equal. apply map_ext. intros i. now rewrite Nat.sub_0_r.
Qed.

Lemma sumSquaredDiff_nonneg (a b : list R) (n : nat) : (0 <= sumSquaredDiff a b n)%R.
Proof.
  unfold sumSquaredDiff. apply Rsum_nonneg, Forall_forall. intros v Hv.
  apply in_map_iff in Hv. destruct Hv as [i [<- _]]. apply pow2_ge_0.
Qed.

Lemma sumSquaredDiff_sym (a b : list R) (n : nat) :
  sumSquaredDiff a b n = sumSquaredDiff b a n.
Proof.
  unfold sumSquaredDiff. f_equal. apply map_ext. intros i. ring.
Qed.

Lemma sumSquaredDiff_zero (a b : list R) :
  length a = length b -> (sumSquaredDiff a b (length a) = 0%R <-> a = b).
Proof.
  intros Hlen. split.
  - intros Hz. unfold sumSquaredDiff in Hz.
    assert (Hf : Forall (fun v => 0 <= v)%R
                        (map (fun i => (nth i a 0 - nth i b 0) ^ 2)%R (seq 0 (length a)))).
    { apply Forall_forall. intros v Hv. apply in_map_iff in Hv.
      destruct Hv as [i [<- _]]. apply pow2_ge_0. }
    pose proof (Rsum_nonneg_zero _ Hf Hz) as Hall. rewrite Forall_forall in Hall.
    apply (nth_ext a b 0%R 0%R Hlen). intros i Hi.
    assert (Hsq : ((nth i a 0 - nth i b 0) ^ 2 = 0)%R).
    { apply Hall, in_map_iff. exists i. split; [reflexivity|]. apply in_seq. lia. }
    simpl in Hsq. rewrite Rmult_1_r in Hsq.
    destruct (Rmult_integral _ _ Hsq); lra.
  - intros ->. unfold sumSquaredDiff. apply Rsum_zero, Forall_forall.
    intros v Hv. apply in_map_iff in Hv. destruct Hv as [i [<- _]]. ring.
Qed.

(** X13: The Euclidean distance is the RMSE times the square root of the number
    of points, under every policy. *)
Theorem calculateEuclidean_scaled_RMSE
  (common : list (AlignedPair ExactR)) (m : NormalizationMethod) :
  calculateEuclidean ExactR common m
  = (R_sqrt.sqrt (INR (length common)) * calculateRMSE ExactR common m)%R.
Proof.
  rewrite calculateEuclidean_eq, calculateRMSE_eq.
  destruct (length common =? 0)%nat eqn:Hn; [now rewrite Rmult_0_r|].
  apply Nat.eqb_neq in Hn.
  assert (Hpos : (0 < INR (length common))%R) by (apply lt_0_INR; lia).
  set (S := sumSquaredDiff _ _ _). pose proof (sumSquaredDiff_nonneg
    (normalizeValues ExactR (map yA common) m)
    (normalizeValues ExactR (map yB common) m) (length common)) as HS. fold S in HS.
  rewrite <- sqrt_mult.
  - f_equal. field. lra.
  - lra.
  - apply Rmult_le_pos; [assumption|]. apply Rlt_le, Rinv_0_lt_compat, Hpos.
Qed.

Lemma normalized_lengths (common : list (AlignedPair ExactR)) (m : NormalizationMethod) :
  length (normalizeValues ExactR (map yA common) m) = length common
  /\ length (normalizeValues ExactR (map yB common) m) = length common.
Proof.
  split; (etransitivity; [apply (normalizeValues_length ExactR) | apply length_map]).
Qed.

(** X14: Either distance is 0 exactly when the two normalized series coincide. *)
Theorem distances_zero_iff
  (common : list (AlignedPair ExactR)) (m : NormalizationMethod) :
  let normA := normalizeValues ExactR (map yA common) m in
  let normB := normalizeValues ExactR (map yB common) m in
  (calculateEuclidean ExactR common m = 0%R <-> normA = normB)
  /\ (calculateRMSE ExactR common m = 0%R <-> normA = normB).
Proof.
  intros normA normB.
  destruct (normalized_lengths common m) as [HlenA HlenB].
  fold normA in HlenA. fold normB in HlenB.
  assert (Hlen : length normA = length normB) by congruence.
  assert (Hz : sumSquaredDiff normA normB (length common) = 0%R <-> normA = normB).
  { rewrite <- HlenA. exact (sumSquaredDiff_zero normA normB Hlen). }
  pose proof (sumSquaredDiff_nonneg normA normB (length common)) as HS.
  rewrite calculateEuclidean_eq, calculateRMSE_eq. fold normA normB.
  destruct (length common =? 0)%nat eqn:Hn.
  - apply Nat.eqb_eq in Hn.
    assert (Heq : normA = normB).
    { destruct normA, normB; try reflexivity; simpl in *; lia. }
    split; split; auto.
  - apply Nat.eqb_neq in Hn.
    assert (Hpos : (0 < INR (length common))%R) by (apply lt_0_INR; lia).
    split; (split; [intros H0 | intros Heq]).
    + apply Hz. now apply sqrt_eq_0.
    + apply Hz in Heq. rewrite Heq. apply sqrt_0.
    + apply Hz. apply sqrt_eq_0 in H0.
      * apply Rmult_eq_compat_r with (r := INR (length common)) in H0.
        unfold Rdiv in H0. rewrite Rmult_assoc, Rinv_l, Rmult_0_l in H0 by lra. lra.
      * apply Rmult_le_pos; [assumption|]. apply Rlt_le, Rinv_0_lt_compat, Hpos.
    + apply Hz in Heq. rewrite Heq. unfold Rdiv. rewrite Rmult_0_l. apply sqrt_0.
Qed.

(** ** Symmetry of the distances and of the divergence *)

Lemma swapSeries_yA (common : list (AlignedPair ExactR)) :
  map yA (swapSeries common) = map yB common.
Proof. unfold swapSeries. now rewrite map_map. Qed.

Lemma swapSeries_yB (common : list (AlignedPair ExactR)) :
  map yB (swapSeries common) = map yA common.
Proof. unfold swapSeries. now rewrite map_map. Qed.

(** X15: Exchanging the two series changes none of RMSE, Euclidean distance and
    SID. *)
Theorem distances_symmetric (common : list (AlignedPair ExactR)) :
  (forall m, calculateRMSE ExactR (swapSeries common) m = calculateRMSE ExactR common m)
  /\ (forall m, calculateEuclidean ExactR (swapSeries common) m
                = calculateEuclidean ExactR common m)
  /\ calculateSID ExactR ln (swapSeries common) = calculateSID ExactR ln common.
Proof.
  assert (Hlen : length (swapSeries common) = length common) by apply length_map.
  split; [|split].
  - intros m. rewrite !calculateRMSE_eq, swapSeries_yA, swapSeries_yB, Hlen.
    now rewrite sumSquaredDiff_sym.
  - intros m. rewrite !calculateEuclidean_eq, swapSeries_yA, swapSeries_yB, Hlen.
    now rewrite sumSquaredDiff_sym.
  - unfold calculateSID.
    replace (map (fun cp : AlignedPair ExactR =>
                    Math_max ExactR (epsilon ExactR) (yA cp)) (swapSeries common))
      with (map (fun cp : AlignedPair ExactR =>
                   Math_max ExactR (epsilon ExactR) (yB cp)) common)
      by (unfold swapSeries; now rewrite map_map).
    replace (map (fun cp : AlignedPair ExactR =>
                    Math_max ExactR (epsilon ExactR) (yB cp)) (swapSeries common))
      with (map (fun cp : AlignedPair ExactR =>
                   Math_max ExactR (epsilon ExactR) (yA cp)) common)
      by (unfold swapSeries; now rewrite map_map).
    set (p := normalizeValues ExactR
                (map (fun cp : AlignedPair ExactR =>
                        Math_max ExactR (epsilon ExactR) (yA cp)) common) area).
    set (q := normalizeValues ExactR
                (map (fun cp : AlignedPair ExactR =>
                        Math_max ExactR (epsilon ExactR) (yB cp)) common) area).
    assert (Hpq : length q = length p).
    { transitivity (length common).
      - etransitivity; [apply (normalizeValues_length ExactR) | apply length_map].
      - symmetry.
        etransitivity; [apply (normalizeValues_length ExactR) | apply length_map]. }
    rewrite Hpq. exact_arith.
    rewrite (fold_left_Rsum
               (fun i => (nth i q 0 - nth i p 0) * (ln (nth i q 0) - ln (nth i p 0)))%R).
    rewrite (fold_left_Rsum
               (fun i => (nth i p 0 - nth i q 0) * (ln (nth i p 0) - ln (nth i q 0)))%R).
    f_equal. f_equal. apply map_ext. intros i. ring.
Qed.

(** ** Gain and offset *)

Section GainOffsetSums.

Context {T : Type}.
Variables f g : T -> R.
Variables c d : R.

Lemma Rsum_gain_offset (l : list T) :
  Rsum (map (fun p => c * f p + d)%R l)
  = (c * Rsum (map f l) + INR (length l) * d)%R.
Proof.
  induction l as [|p l IH]; [simpl; lra|].
  cbn [length]. rewrite !map_cons, !Rsum_cons, IH, S_INR. ring.
Qed.

Lemma Rsum_gain_offset_sq (l : list T) :
  Rsum (map (fun p => (c * f p + d) * (c * f p + d))%R l)
  = (c * c * Rsum (map (fun p => f p * f p) l) + 2 * c * d * Rsum (map f l)
     + INR (length l) * (d * d))%R.
Proof.
  induction l as [|p l IH]; [simpl; lra|].
  cbn [length]. rewrite !map_cons, !Rsum_cons, IH, S_INR. ring.
Qed.

Lemma Rsum_gain_offset_prod (l : list T) :
  Rsum (map (fun p => (c * f p + d) * g p)%R l)
  = (c * Rsum (map (fun p => f p * g p) l) + d * Rsum (map g l))%R.
Proof.
  induction l as [|p l IH]; [simpl; lra|].
  rewrite !map_cons, !Rsum_cons, IH. ring.
Qed.

End GainOffsetSums.

Lemma sqrt_gain (c X : R) :
  (0 < c)%R -> (0 <= X)%R -> R_sqrt.sqrt (c * c * X) = (c * R_sqrt.sqrt X)%R.
Proof.
  intros Hc HX. rewrite sqrt_mult by nra. now rewrite sqrt_square by lra.
Qed.

Lemma pearsonFormula_gain (n : nat) (c d sA sB sAA sBB sAB : R) :
  (0 < c)%R ->
  (0 <= INR n * sAA - sA * sA)%R -> (0 <= INR n * sBB - sB * sB)%R ->
  pearsonFormula n (c * sA + INR n * d) sB
                 (c * c * sAA + 2 * c * d * sA + INR n * (d * d)) sBB
                 (c * sAB + d * sB)
  = pearsonFormula n sA sB sAA sBB sAB.
Proof.
  intros Hc HA HB. unfold pearsonFormula.
  destruct (n <? 2)%nat; [reflexivity|]. cbv zeta.
  set (XA := (INR n * sAA - sA * sA)%R) in *.
  set (XB := (INR n * sBB - sB * sB)%R) in *.
  replace ((INR n * (c * c * sAA + 2 * c * d * sA + INR n * (d * d))
            - (c * sA + INR n * d) * (c * sA + INR n * d)) * XB)%R
    with (c * c * (XA * XB))%R by (unfold XA; ring).
  rewrite sqrt_gain by (try assumption; now apply Rmult_le_pos).
  replace (INR n * (c * sAB + d * sB) - (c * sA + INR n * d) * sB)%R
    with (c * (INR n * sAB - sA * sB))%R by ring.
  destruct (Req_dec_T (R_sqrt.sqrt (XA * XB)) 0) as [Hz|Hnz].
  - rewrite Hz, Rmult_0_r, Req_bool_true by reflexivity. reflexivity.
  - rewrite !Req_bool_false by nra. field. split; lra.
Qed.

Lemma cosineFormula_gain (c sAA sBB sAB : R) :
  (0 < c)%R -> (0 <= sAA)%R ->
  cosineFormula (c * c * sAA) sBB (c * sAB) = cosineFormula sAA sBB sAB.
Proof.
  intros Hc HA. unfold cosineFormula. rewrite sqrt_gain by assumption.
  destruct (Req_dec_T (R_sqrt.sqrt sAA) 0) as [Hz|Hnz].
  - rewrite Hz, Rmult_0_r, Req_bool_true by reflexivity. reflexivity.
  - rewrite (Req_bool_false (c * _)), (Req_bool_false (R_sqrt.sqrt sAA)) by nra.
    cbn [orb]. destruct (Req_bool (R_sqrt.sqrt sBB) 0) eqn:Hb; [reflexivity|].
    apply Req_bool_neq in Hb. field. repeat split; lra.
Qed.

Lemma gainOffset_sums (c d : R) (common : list (AlignedPair ExactR)) :
  length (gainOffset c d common) = length common
  /\ map yB (gainOffset c d common) = map yB common
  /\ map yA (gainOffset c d common)
     = map (fun p : AlignedPair ExactR => c * yA p + d)%R common
  /\ map (fun p : AlignedPair ExactR => yA p * yA p)%R (gainOffset c d common)
     = map (fun p : AlignedPair ExactR => (c * yA p + d) * (c * yA p + d))%R common
  /\ map (fun p : AlignedPair ExactR => yB p * yB p)%R (gainOffset c d common)
     = map (fun p : AlignedPair ExactR => yB p * yB p)%R common
  /\ map (fun p : AlignedPair ExactR => yA p * yB p)%R (gainOffset c d common)
     = map (fun p : AlignedPair ExactR => (c * yA p + d) * yB p)%R common.
Proof.
  unfold gainOffset. rewrite length_map, !map_map. repeat split.
Qed.

(** X11: The Pearson correlation ignores a positive gain and any offset applied
    to one series, and the cosine similarity a positive gain. *)
Theorem correlations_gain_invariant
  (common : list (AlignedPair ExactR)) (c d : R) :
  (0 < c)%R ->
  calculatePearson ExactR (gainOffset c d common) = calculatePearson ExactR common
  /\ calculateCosineSimilarity ExactR (gainOffset c 0 common)
     = calculateCosineSimilarity ExactR common.
Proof.
  intros Hc. split.
  - rewrite !calculatePearson_eq.
    destruct (gainOffset_sums c d common) as [Hn [HB [HA [HAA [HBB HAB]]]]].
    rewrite Hn, HB, HA, HAA, HBB, HAB.
    rewrite (Rsum_gain_offset (@yA ExactR)), (Rsum_gain_offset_sq (@yA ExactR)),
      (Rsum_gain_offset_prod (@yA ExactR) (@yB ExactR)).
    apply pearsonFormula_gain; [assumption| |].
    + rewrite (spread_map (@yA ExactR)). apply spread_nonneg.
    + rewrite (spread_map (@yB ExactR)). apply spread_nonneg.
  - rewrite !calculateCosineSimilarity_eq.
    destruct (gainOffset_sums c 0 common) as [_ [_ [_ [HAA [HBB HAB]]]]].
    rewrite HAA, HBB, HAB.
    rewrite (Rsum_gain_offset_sq (@yA ExactR)),
      (Rsum_gain_offset_prod (@yA ExactR) (@yB ExactR)).
    match goal with
    | |- cosineFormula ?a _ ?b = cosineFormula ?q _ ?r =>
        replace a with (c * c * q)%R by ring; replace b with (c * r)%R by ring
    end.
    apply cosineFormula_gain; [assumption|].
    rewrite <- (map_map (@yA ExactR) (fun u : R => u * u)%R).
    apply sum_squares_nonneg.
Qed.

(** ** Degenerate inputs of the correlations *)

Lemma sum_squares_of_zeros {T : Type} (f : T -> R) (l : list T) :
  (forall p, In p l -> f p = 0%R) -> Rsum (map (fun p => f p * f p)%R l) = 0%R.
Proof.
  intros H. apply Rsum_zero, Forall_forall. intros v Hv.
  apply in_map_iff in Hv. destruct Hv as [p [<- Hp]]. rewrite (H p Hp). ring.
Qed.

(** X12: The fallbacks of the two correlations in exact arithmetic: Pearson is 0
    on fewer than two points and whenever one of the series is flat; cosine
    is 0 whenever one of the series is identically 0. *)
Theorem correlation_fallbacks (common : list (AlignedPair ExactR)) :
  ((length common < 2)%nat -> calculatePearson ExactR common = 0%R)
  /\ (forall a : R, (forall p, In p common -> yA p = a) ->
                    calculatePearson ExactR common = 0%R)
  /\ (forall b : R, (forall p, In p common -> yB p = b) ->
                    calculatePearson ExactR common = 0%R)
  /\ ((forall p, In p common -> yA p = 0%R) ->
      calculateCosineSimilarity ExactR common = 0%R)
  /\ ((forall p, In p common -> yB p = 0%R) ->
      calculateCosineSimilarity ExactR common = 0%R).
Proof.
  split; [|split; [|split; [|split]]].
  - intros Hn. unfold calculatePearson.
    replace (length common <? 2)%nat with true by (symmetry; now apply Nat.ltb_lt).
    reflexivity.
  - intros a Ha. now apply (calculatePearson_flat_series a).
  - intros b Hb. rewrite <- calculatePearson_swap.
    apply (calculatePearson_flat_series b). intros p Hp.
    unfold swapSeries in Hp. apply in_map_iff in Hp.
    destruct Hp as [q [<- Hq]]. cbn [yA]. now apply Hb.
  - intros Hz. rewrite calculateCosineSimilarity_eq. unfold cosineFormula.
    rewrite (sum_squares_of_zeros (@yA ExactR)) by assumption.
    now rewrite sqrt_0, Req_bool_true.
  - intros Hz. rewrite calculateCosineSimilarity_eq. unfold cosineFormula.
    rewrite (sum_squares_of_zeros (@yB ExactR)) by assumption.
    rewrite sqrt_0, (Req_bool_true 0 0) by reflexivity.
    now rewrite orb_true_r.
Qed.

(** ** The report: which pairs, how many entries *)

Section ReportShape.

Variable A : Arith.
Variable ln : num A -> num A.
Variable fuel : nat.
Variable cfg : Settings A.

Lemma innerLoop_shape (sA : WaterSample A) (later : list (WaterSample A))
      (row : list (SimilarityResult A)) :
  innerLoop A ln fuel cfg sA later = Some row ->
  (length row <= length later)%nat
  /\ Forall (fun e => sampleA e = name sA
                      /\ exists l2 sB l3, later = l2 ++ sB :: l3
                                          /\ sampleB e = name sB) row.
Proof.
  revert row. induction later as [|sB later IH]; intros row H; cbn [innerLoop] in H.
  - inversion H. split; [reflexivity | constructor].
  - destruct (getOverlapData A fuel (data sA) (data sB)) as [common|]; [|discriminate].
    destruct (innerLoop A ln fuel cfg sA later) as [more|]; [|discriminate].
    inversion H; subst row. destruct (IH more eq_refl) as [Hlen Hall].
    split.
    + rewrite length_app, pairEntries_length. cbn [length].
      destruct (0 <? _)%nat; lia.
    + apply Forall_app. split.
      * unfold pairEntries. destruct (0 <? _)%nat; [|constructor].
        constructor; [|constructor]. cbn [sampleA sampleB].
        split; [reflexivity|]. now exists [], sB, later.
      * eapply Forall_impl; [|exact Hall].
        intros e [Ha [l2 [sB' [l3 [-> Hb]]]]]. split; [assumption|].
        now exists (sB :: l2), sB', l3.
Qed.

Lemma similarityMatrix_shape (samples : list (WaterSample A))
      (res : list (SimilarityResult A)) :
  similarityMatrix A ln fuel cfg samples = Some res ->
  (2 * length res <= length samples * (length samples - 1))%nat
  /\ Forall (fun e => exists sA sB, standsBefore samples sA sB
                                    /\ sampleA e = name sA /\ sampleB e = name sB)
            res.
Proof.
  revert res. induction samples as [|sA later IH]; intros res H;
    cbn [similarityMatrix] in H.
  - inversion H. split; [simpl; lia | constructor].
  - destruct (innerLoop A ln fuel cfg sA later) as [row|] eqn:Hrow; [|discriminate].
    destruct (similarityMatrix A ln fuel cfg later) as [more|]; [|discriminate].
    inversion H; subst res.
    destruct (innerLoop_shape sA later row Hrow) as [Hlen Hall].
    destruct (IH more eq_refl) as [Hlen' Hall'].
    split.
    + rewrite length_app. cbn [length]. nia.
    + apply Forall_app. split.
      * eapply Forall_impl; [|exact Hall].
        intros e [Ha [l2 [sB [l3 [-> Hb]]]]]. exists sA, sB.
        split; [now exists [], l2, l3 | now split].
      * eapply Forall_impl; [|exact Hall'].
        intros e [sA' [sB [[l1 [l2 [l3 ->]]] [Ha Hb]]]]. exists sA', sB.
        split; [now exists (sA :: l1), l2, l3 | now split].
Qed.

End ReportShape.

(** X16: In every number model no report on [n] samples has more than
    [n * (n - 1) / 2] entries, and each entry names a sample that stands
    strictly before the other one in the input: no pair is reported twice or
    in reverse, and no sample is compared with itself.  On fewer than two
    samples the report is returned whatever the fuel, since the aligner is
    never called, and it is empty. *)
Theorem similarityMatrix_pairs
  (A : Arith) (ln : num A -> num A) (fuel : nat) (cfg : Settings A)
  (samples : list (WaterSample A)) :
  (forall res : list (SimilarityResult A),
      similarityMatrix A ln fuel cfg samples = Some res ->
      (2 * length res <= length samples * (length samples - 1))%nat
      /\ Forall (fun e => exists sA sB, standsBefore samples sA sB
                                        /\ sampleA e = name sA /\ sampleB e = name sB)
                res)
  /\ ((length samples < 2)%nat -> similarityMatrix A ln fuel cfg samples = Some []).
Proof.
  split.
  - intros res H. exact (similarityMatrix_shape A ln fuel cfg samples res H).
  - intros Hn. destruct samples as [|s [|s' samples]]; [reflexivity | reflexivity |].
    cbn [length] in Hn. lia.
Qed.

(** ** The report: termination in exact arithmetic *)

Lemma getOverlapData_total (dataA dataB : list (DataPoint ExactR)) :
  exists (n : nat) (common : list (AlignedPair ExactR)),
    forall fuel, (n <= fuel)%nat -> getOverlapData ExactR fuel dataA dataB = Some common.
Proof.
  destruct dataA as [|a0 ta]; [now exists 0%nat, []|].
  destruct dataB as [|b0 tb]; [now exists 0%nat, []|].
  set (minW := Rmax (wavelength a0) (wavelength b0)).
  set (maxW := Rmin (wavelength (last (a0 :: ta) a0)) (wavelength (last (b0 :: tb) b0))).
  exists (gridSize minW maxW), (gridPoints (a0 :: ta) (b0 :: tb) minW (gridSize minW maxW)).
  intros fuel Hf. unfold getOverlapData. exact_arith. fold minW maxW.
  now apply alignLoop_closed_form.
Qed.

Lemma innerLoop_total (cfg : Settings ExactR) (sA : WaterSample ExactR)
      (later : list (WaterSample ExactR)) :
  exists (n : nat) (row : list (SimilarityResult ExactR)),
    forall fuel, (n <= fuel)%nat -> innerLoop ExactR ln fuel cfg sA later = Some row.
Proof.
  induction later as [|sB later [n [row IH]]]; [now exists 0%nat, []|].
  destruct (getOverlapData_total (data sA) (data sB)) as [n' [common Hc]].
  exists (Nat.max n n'), (pairEntries ExactR ln cfg sA sB common ++ row).
  intros fuel Hf. cbn [innerLoop]. rewrite Hc, IH by lia. reflexivity.
Qed.

Lemma similarityMatrix_total
      (cfg : Settings ExactR) (samples : list (WaterSample ExactR)) :
  exists (fuel0 : nat) (res : list (SimilarityResult ExactR)),
    forall fuel, (fuel0 <= fuel)%nat ->
      similarityMatrix ExactR ln fuel cfg samples = Some res.
Proof.
  induction samples as [|sA later [n [more IH]]]; [now exists 0%nat, []|].
  destruct (innerLoop_total cfg sA later) as [n' [row Hrow]].
  exists (Nat.max n n'), (row ++ more).
  intros fuel Hf. cbn [similarityMatrix]. rewrite Hrow, IH by lia. reflexivity.
Qed.

Lemma getOverlapData_unique (dataA dataB : list (DataPoint ExactR)) (f1 f2 : nat)
      (c1 c2 : list (AlignedPair ExactR)) :
  getOverlapData ExactR f1 dataA dataB = Some c1 ->
  getOverlapData ExactR f2 dataA dataB = Some c2 -> c1 = c2.
Proof.
  destruct dataA as [|a0 ta]; [cbn; congruence|].
  destruct dataB as [|b0 tb]; [cbn; congruence|].
  unfold getOverlapData. intros H1 H2.
  apply alignLoop_is_grid in H1. apply alignLoop_is_grid in H2. congruence.
Qed.

Lemma innerLoop_unique (cfg : Settings ExactR) (sA : WaterSample ExactR)
      (later : list (WaterSample ExactR)) (f1 f2 : nat)
      (r1 r2 : list (SimilarityResult ExactR)) :
  innerLoop ExactR ln f1 cfg sA later = Some r1 ->
  innerLoop ExactR ln f2 cfg sA later = Some r2 -> r1 = r2.
Proof.
  revert r1 r2. induction later as [|sB later IH]; intros r1 r2 H1 H2;
    cbn [innerLoop] in H1, H2; [congruence|].
  destruct (getOverlapData ExactR f1 (data sA) (data sB)) as [c1|] eqn:E1; [|discriminate].
  destruct (getOverlapData ExactR f2 (data sA) (data sB)) as [c2|] eqn:E2; [|discriminate].
  destruct (innerLoop ExactR ln f1 cfg sA later) as [m1|]; [|discriminate].
  destruct (innerLoop ExactR ln f2 cfg sA later) as [m2|]; [|discriminate].
  rewrite (getOverlapData_unique _ _ _ _ _ _ E1 E2) in H1.
  rewrite (IH m1 m2 eq_refl eq_refl) in H1. congruence.
Qed.

Lemma similarityMatrix_unique (cfg : Settings ExactR) (samples : list (WaterSample ExactR))
      (f1 f2 : nat) (r1 r2 : list (SimilarityResult ExactR)) :
  similarityMatrix ExactR ln f1 cfg samples = Some r1 ->
  similarityMatrix ExactR ln f2 cfg samples = Some r2 -> r1 = r2.
Proof.
  revert r1 r2. induction samples as [|sA later IH]; intros r1 r2 H1 H2;
    cbn [similarityMatrix] in H1, H2; [congruence|].
  destruct (innerLoop ExactR ln f1 cfg sA later) as [w1|] eqn:E1; [|discriminate].
  destruct (innerLoop ExactR ln f2 cfg sA later) as [w2|] eqn:E2; [|discriminate].
  destruct (similarityMatrix ExactR ln f1 cfg later) as [m1|]; [|discriminate].
  destruct (similarityMatrix ExactR ln f2 cfg later) as [m2|]; [|discriminate].
  rewrite (innerLoop_unique _ _ _ _ _ _ _ E1 E2) in H1.
  rewrite (IH m1 m2 eq_refl eq_refl) in H1. congruence.
Qed.

(** ** The queries of the aligner *)





(** X17: In exact arithmetic every report is computed: from some fuel on the
    report is defined, and a run that ends on less fuel gives the same
    report. *)
Theorem similarityMatrix_terminates
  (cfg : Settings ExactR) (samples : list (WaterSample ExactR)) :
  exists (fuel0 : nat) (res : list (SimilarityResult ExactR)),
    (forall fuel, (fuel0 <= fuel)%nat ->
       similarityMatrix ExactR ln fuel cfg samples = Some res)
    /\ (forall fuel res',
          similarityMatrix ExactR ln fuel cfg samples = Some res' -> res' = res).
Proof.
  destruct (similarityMatrix_total cfg samples) as [fuel0 [res H]].
  exists fuel0, res. split; [exact H|].
  intros fuel res' H'.
  apply (similarityMatrix_unique cfg samples fuel fuel0); [exact H'|].
  apply H. lia.
Qed.

(** ** The report: what the metrics are given *)

Lemma map_nth_seq {T : Type} (l : list T) (d : T) :
  map (fun i => nth i l d) (seq 0 (length l)) = l.
Proof.
  apply (nth_ext _ _ d d).
  - now rewrite length_map, length_seq.
  - intros i Hi. rewrite length_map, length_seq in Hi.
    rewrite nth_indep with (d' := nth 0 l d) by now rewrite length_map, length_seq.
    now rewrite (map_nth (fun i => nth i l d)), seq_nth.
Qed.

Section RePair.

Variable A : Arith.

Lemma rePair_series (fc : list (AlignedPair A)) (ysA ysB : list (num A)) :
  length ysA = length fc -> length ysB = length fc ->
  map x (rePair A fc ysA ysB) = map x fc
  /\ map yA (rePair A fc ysA ysB) = ysA
  /\ map yB (rePair A fc ysA ysB) = ysB.
Proof.
  intros HA HB. unfold rePair.
  rewrite (combine_seq_map fc 0 (Build_AlignedPair A (zero A) (zero A) (zero A))).
  rewrite !map_map. cbn [fst snd x yA yB]. split; [|split].
  - rewrite <- (map_map (fun i => nth (i - 0) fc _) x).
    f_equal.
    transitivity (map (fun i => nth i fc (Build_AlignedPair A (zero A) (zero A) (zero A)))
                      (seq 0 (length fc))); [|apply map_nth_seq].
    apply map_ext. intros i. now rewrite Nat.sub_0_r.
  - rewrite <- HA. apply map_nth_seq.
  - rewrite <- HB. apply map_nth_seq.
Qed.

Lemma rePair_same (fc : list (AlignedPair A)) :
  rePair A fc (map yA fc) (map yB fc) = fc.
Proof.
  unfold rePair.
  rewrite (combine_seq_map fc 0 (Build_AlignedPair A (zero A) (zero A) (zero A))).
  rewrite map_map. cbn [fst snd].
  set (d := Build_AlignedPair A (zero A) (zero A) (zero A)).
  transitivity (map (fun i => nth i fc d) (seq 0 (length fc)));
    [|apply map_nth_seq].
  apply map_ext. intros i. rewrite Nat.sub_0_r.
  change (zero A) with (yA d) at 1. change (zero A) with (yB d).
  rewrite !map_nth. now destruct (nth i fc d).
Qed.

End RePair.

(** X18: In every number model the sequence handed to the five metrics keeps the
    wavelengths of the filtered aligned points and pairs them with the two
    series, smoothed when smoothing is enabled; with smoothing disabled, or
    with a window of at most 1, it is the filtered sequence itself. *)
Theorem smoothedFilteredCommon_series
  (A : Arith) (cfg : Settings A) (fc : list (AlignedPair A)) :
  let sfc := smoothedFilteredCommon A cfg fc in
  map x sfc = map x fc
  /\ map yA sfc = (if smoothingEnabled cfg
                   then applyMovingAverage A (map yA fc) (smoothingWindow cfg)
                   else map yA fc)
  /\ map yB sfc = (if smoothingEnabled cfg
                   then applyMovingAverage A (map yB fc) (smoothingWindow cfg)
                   else map yB fc)
  /\ (smoothingEnabled cfg = false \/ (smoothingWindow cfg <= 1)%Z -> sfc = fc).
Proof.
  intros sfc. subst sfc. unfold smoothedFilteredCommon.
  assert (HA : length (if smoothingEnabled cfg
                       then applyMovingAverage A (map yA fc) (smoothingWindow cfg)
                       else map yA fc) = length fc).
  { destruct (smoothingEnabled cfg);
      [rewrite applyMovingAverage_length|]; apply length_map. }
  assert (HB : length (if smoothingEnabled cfg
                       then applyMovingAverage A (map yB fc) (smoothingWindow cfg)
                       else map yB fc) = length fc).
  { destruct (smoothingEnabled cfg);
      [rewrite applyMovingAverage_length|]; apply length_map. }
  destruct (rePair_series A fc _ _ HA HB) as [Hx [Ha Hb]].
  split; [exact Hx|]. split; [exact Ha|]. split; [exact Hb|].
  intros [Hoff|Hw].
  - rewrite Hoff. apply rePair_same.
  - destruct (smoothingEnabled cfg); [|apply rePair_same].
    rewrite !applyMovingAverage_small_window by assumption. apply rePair_same.
Qed.

Lemma INR_300 : INR 300 = 300%R.
Proof. rewrite INR_IZR_INZ. reflexivity. Qed.

(** X19: Whatever upper bound the caller sets, no aligned point outside
    [[rangeMin, rangeMax]] and none above wavelength 300 reaches the
    metrics. *)
Theorem metrics_input_in_range
  (cfg : Settings ExactR) (common : list (AlignedPair ExactR)) :
  Forall (fun w : R => (rangeMin cfg <= w <= rangeMax cfg)%R /\ (w <= 300)%R)
         (map x (smoothedFilteredCommon ExactR cfg (filterCommon ExactR cfg common))).
Proof.
  set (fc := filterCommon ExactR cfg common).
  assert (Hx : map x (smoothedFilteredCommon ExactR cfg fc) = map x fc).
  { unfold smoothedFilteredCommon. apply rePair_series.
    - destruct (smoothingEnabled cfg);
        [rewrite applyMovingAverage_length|]; apply length_map.
    - destruct (smoothingEnabled cfg);
        [rewrite applyMovingAverage_length|]; apply length_map. }
  rewrite Hx. apply Forall_forall. intros w Hw.
  apply in_map_iff in Hw. destruct Hw as [p [<- Hp]].
  unfold fc, filterCommon in Hp. apply filter_In in Hp. destruct Hp as [_ Hp].
  apply andb_prop in Hp. destruct Hp as [H1 H2].
  unfold MAX_ALLOWED_WAVELENGTH in H2. exact_arith. rewrite INR_300 in H2.
  unfold Rle_bool in H1, H2.
  destruct (Rle_dec (rangeMin cfg) (x p)); [|discriminate].
  destruct (Rle_dec (x p) (Rmin (rangeMax cfg) 300)); [|discriminate].
  pose proof (Rmin_l (rangeMax cfg) 300). pose proof (Rmin_r (rangeMax cfg) 300).
  repeat split; lra.
Qed.

(** ** The whole pipeline stays inside the finite reals *)

Lemma findIndexFrom_map {T U : Type} (P : U -> bool) (g : T -> U) (i : Z) (l : list T) :
  findIndexFrom P i (map g l) = findIndexFrom (fun p => P (g p)) i l.
Proof.
  revert i. induction l as [|p l IH]; intros i; [reflexivity|].
  cbn [map findIndexFrom]. now rewrite IH.
Qed.

Lemma findIndex_bracket {T : Type} (P : T -> bool) (l : list T) (d : T) :
  (0 < findIndex P l)%Z ->
  (findIndex P l < Z.of_nat (length l))%Z
  /\ P (nth (Z.to_nat (findIndex P l)) l d) = true
  /\ P (nth (Z.to_nat (findIndex P l - 1)) l d) = false.
Proof.
  unfold findIndex. intros Hpos.
  destruct (existsb P l) eqn:He.
  - apply existsb_exists in He.
    destruct (findIndexFrom_first P 0%Z l d He) as [k [Hk [Hidx [Hat Hbefore]]]].
    rewrite Hidx in *. rewrite Z.add_0_l in *.
    split; [lia|]. rewrite Nat2Z.id. split; [assumption|].
    apply Hbefore. lia.
  - rewrite findIndexFrom_none in Hpos; [lia|].
    intros p Hp. destruct (P p) eqn:HP; [|reflexivity].
    assert (Hex : existsb P l = true) by (apply existsb_exists; now exists p).
    congruence.
Qed.

Lemma point_at_finite (data : list (DataPoint ExactR)) (i : Z) :
  point_at Checked (map finitePoint data) i = finitePoint (point_at ExactR data i).
Proof.
  unfold point_at.
  change (Build_DataPoint Checked (zero Checked) (zero Checked))
    with (finitePoint (Build_DataPoint ExactR (zero ExactR) (zero ExactR))).
  apply map_nth.
Qed.

Lemma interpolate_checked (data : list (DataPoint ExactR)) (w : R) :
  interpolate Checked (map finitePoint data) (Some w)
  = Some (interpolate ExactR data w).
Proof.
  set (P := fun p : DataPoint ExactR => Rle_bool w (wavelength p)).
  assert (Hidx : findIndex (fun p : DataPoint Checked => leb Checked (Some w) (wavelength p))
                           (map finitePoint data)
                 = findIndex P data).
  { unfold findIndex. now rewrite findIndexFrom_map. }
  unfold interpolate. cbv zeta. rewrite Hidx, length_map.
  change (findIndex (fun p : DataPoint ExactR => leb ExactR w (wavelength p)) data)
    with (findIndex P data).
  rewrite !point_at_finite.
  destruct (findIndex P data <=? 0)%Z eqn:H0; [reflexivity|].
  destruct (findIndex P data >=? Z.of_nat (length data))%Z; [reflexivity|].
  apply Z.leb_gt in H0.
  destruct (findIndex_bracket P data (Build_DataPoint ExactR (zero ExactR) (zero ExactR)) H0)
    as [_ [Hat Hbefore]].
  fold (point_at ExactR data (findIndex P data)) in Hat.
  fold (point_at ExactR data (findIndex P data - 1)) in Hbefore.
  set (p1 := point_at ExactR data (findIndex P data - 1)) in *.
  set (p2 := point_at ExactR data (findIndex P data)) in *.
  unfold P, Rle_bool in Hat, Hbefore.
  destruct (Rle_dec w (wavelength p2)) as [H2|]; [|discriminate].
  destruct (Rle_dec w (wavelength p1)) as [|H1]; [discriminate|].
  cbn [finitePoint wavelength absorption]. checked_arith. exact_arith.
  cbn [checked_div]. rewrite Req_bool_false by lra. reflexivity.
Qed.

Lemma alignLoop_checked (dataA dataB : list (DataPoint ExactR)) (maxW : R)
      (fuel : nat) (w : R) :
  alignLoop Checked fuel (map finitePoint dataA) (map finitePoint dataB)
            (Some maxW) (Some w)
  = option_map (map finite) (alignLoop ExactR fuel dataA dataB maxW w).
Proof.
  revert w. induction fuel as [|fuel IH]; intros w; cbn [alignLoop];
    checked_arith; exact_arith.
  - now destruct (Rle_bool w maxW).
  - destruct (Rle_bool w maxW); [|reflexivity].
    rewrite IH.
    destruct (alignLoop ExactR fuel dataA dataB maxW (w + / 2)%R) as [rest|];
      [|reflexivity].
    cbn [option_map map]. now rewrite !interpolate_checked.
Qed.

Lemma last_map_default {T U : Type} (g : T -> U) (l : list T) (d : T) :
  last (map g l) (g d) = g (last l d).
Proof.
  induction l as [|a l IH]; [reflexivity|].
  destruct l as [|b l]; [reflexivity|]. exact IH.
Qed.

Lemma getOverlapData_checked (dataA dataB : list (DataPoint ExactR)) (fuel : nat) :
  getOverlapData Checked fuel (map finitePoint dataA) (map finitePoint dataB)
  = option_map (map finite) (getOverlapData ExactR fuel dataA dataB).
Proof.
  destruct dataA as [|a0 ta]; [reflexivity|].
  destruct dataB as [|b0 tb]; [reflexivity|].
  unfold getOverlapData. cbn [map].
  change (finitePoint a0 :: map finitePoint ta) with (map finitePoint (a0 :: ta)).
  change (finitePoint b0 :: map finitePoint tb) with (map finitePoint (b0 :: tb)).
  rewrite !last_map_default. cbn [finitePoint wavelength]. checked_arith.
  apply alignLoop_checked.
Qed.

Lemma filter_map_commute {T U : Type} (P : U -> bool) (g : T -> U) (l : list T) :
  filter P (map g l) = map g (filter (fun p => P (g p)) l).
Proof.
  induction l as [|a l IH]; [reflexivity|].
  cbn [map filter]. destruct (P (g a)); cbn [map]; now rewrite IH.
Qed.

Lemma filterCommon_checked (cfg : Settings ExactR) (common : list (AlignedPair ExactR)) :
  filterCommon Checked (finiteSettings cfg) (map finite common)
  = map finite (filterCommon ExactR cfg common).
Proof. unfold filterCommon. now rewrite filter_map_commute. Qed.

Lemma rePair_checked (fc : list (AlignedPair ExactR)) (ysA ysB : list R) :
  rePair Checked (map finite fc) (map Some ysA) (map Some ysB)
  = map finite (rePair ExactR fc ysA ysB).
Proof.
  unfold rePair. rewrite length_map, combine_map_l, !map_map.
  apply map_ext. intros [p i]. cbn [fst snd finite x yA yB].
  checked_arith. now rewrite !(map_nth Some).
Qed.

Lemma smoothedFilteredCommon_checked (cfg : Settings ExactR)
      (fc : list (AlignedPair ExactR)) :
  smoothedFilteredCommon Checked (finiteSettings cfg) (map finite fc)
  = map finite (smoothedFilteredCommon ExactR cfg fc).
Proof.
  unfold smoothedFilteredCommon. cbn [finiteSettings smoothingEnabled smoothingWindow].
  rewrite map_finite_yA, map_finite_yB.
  destruct (smoothingEnabled cfg).
  - rewrite !applyMovingAverage_checked. apply rePair_checked.
  - apply rePair_checked.
Qed.

Lemma pairEntries_checked (cfg : Settings ExactR) (sA sB : WaterSample ExactR)
      (common : list (AlignedPair ExactR)) :
  pairEntries Checked checked_ln (finiteSettings cfg) (finiteSample sA)
              (finiteSample sB) (map finite common)
  = map finiteResult (pairEntries ExactR ln cfg sA sB common).
Proof.
  unfold pairEntries. rewrite filterCommon_checked, length_map.
  destruct (0 <? length (filterCommon ExactR cfg common))%nat; [|reflexivity].
  rewrite smoothedFilteredCommon_checked.
  rewrite calculatePearson_checked, calculateCosineSimilarity_checked,
    calculateRMSE_checked, calculateEuclidean_checked, calculateSID_checked.
  reflexivity.
Qed.

Lemma innerLoop_checked (fuel : nat) (cfg : Settings ExactR) (sA : WaterSample ExactR)
      (later : list (WaterSample ExactR)) :
  innerLoop Checked checked_ln fuel (finiteSettings cfg) (finiteSample sA)
            (map finiteSample later)
  = option_map (map finiteResult) (innerLoop ExactR ln fuel cfg sA later).
Proof.
  induction later as [|sB later IH]; [reflexivity|].
  cbn [map innerLoop].
  change (data (finiteSample sA)) with (map finitePoint (data sA)).
  change (data (finiteSample sB)) with (map finitePoint (data sB)).
  rewrite getOverlapData_checked.
  destruct (getOverlapData ExactR fuel (data sA) (data sB)) as [common|];
    [|reflexivity].
  cbn [option_map]. rewrite IH.
  destruct (innerLoop ExactR ln fuel cfg sA later) as [more|]; [|reflexivity].
  cbn [option_map]. now rewrite pairEntries_checked, map_app.
Qed.

(** X20: In exact arithmetic the interpolation, the aligner and the smoother stay
    inside the finite reals on every finite input, sorted or not: the
    interpolation divides by the difference of two wavelengths that lie on
    either side of the query, and every smoothing window holds at least the
    element it is centred on. *)
Theorem aligner_and_smoother_defined :
  (forall (data : list (DataPoint ExactR)) (w : R),
      interpolate Checked (map finitePoint data) (Some w)
      = Some (interpolate ExactR data w))
  /\ (forall (dataA dataB : list (DataPoint ExactR)) (fuel : nat),
         getOverlapData Checked fuel (map finitePoint dataA) (map finitePoint dataB)
         = option_map (map finite) (getOverlapData ExactR fuel dataA dataB))
  /\ (forall (v : list R) (window : Z),
         applyMovingAverage Checked (map Some v) window
         = map Some (applyMovingAverage ExactR v window)).
Proof.
  split; [|split].
  - intros data w. apply interpolate_checked.
  - intros dataA dataB fuel. apply getOverlapData_checked.
  - intros v window. apply applyMovingAverage_checked.
Qed.

(** X21: In exact arithmetic a whole report stays inside the finite reals: in the
    checked model it is the report of the exact model, entry by entry, so no
    division by zero, no square root of a negative number and no logarithm
    of a non-positive number occurs anywhere on the way. *)
Theorem similarityMatrix_defined
  (fuel : nat) (cfg : Settings ExactR) (samples : list (WaterSample ExactR)) :
  similarityMatrix Checked checked_ln fuel (finiteSettings cfg)
                   (map finiteSample samples)
  = option_map (map finiteResult) (similarityMatrix ExactR ln fuel cfg samples).
Proof.
  induction samples as [|sA later IH]; [reflexivity|].
  change (map finiteSample (sA :: later)) with (finiteSample sA :: map finiteSample later).
  cbn [similarityMatrix]. rewrite innerLoop_checked.
  destruct (innerLoop ExactR ln fuel cfg sA later) as [row|]; [|reflexivity].
  cbn [option_map]. rewrite IH.
  destruct (similarityMatrix ExactR ln fuel cfg later) as [more|]; [|reflexivity].
  cbn [option_map]. now rewrite map_app.
Qed.

(** ** The peak reported in the data summary *)

Lemma Req_bool_eq (a b : R) : Req_bool a b = true -> a = b.
Proof. unfold Req_bool. now destruct (Req_dec_T a b). Qed.

Lemma find_first {T : Type} (P : T -> bool) (l : list T) (d : T) (k : nat) :
  (k < length l)%nat -> P (nth k l d) = true ->
  (forall j, (j < k)%nat -> P (nth j l d) = false) ->
  find P l = Some (nth k l d).
Proof.
  revert k. induction l as [|a l IH]; intros k Hk Hat Hbefore; [simpl in Hk; lia|].
  destruct k as [|k].
  - cbn [nth] in *. cbn [find]. now rewrite Hat.
  - assert (H0 : P a = false) by (apply (Hbefore 0%nat); lia).
    cbn [find]. rewrite H0. cbn [nth] in Hat.
    apply IH; [simpl in Hk; lia | exact Hat |].
    intros j Hj. apply (Hbefore (S j)). lia.
Qed.

(** X22: For a non-empty spectrum the summary always names a peak: the wavelength
    of the first point whose absorption is the greatest; for an empty one
    there is none. *)
Theorem peakWavelength_first_maximum (data : list (DataPoint ExactR)) :
  (data <> [] ->
   exists k : nat,
     (k < length data)%nat
     /\ peakWavelength ExactR data = Some (wavelength (point_at ExactR data (Z.of_nat k)))
     /\ maxAbsorption ExactR data = Some (absorption (point_at ExactR data (Z.of_nat k)))
     /\ (forall q, In q data ->
           (absorption q <= absorption (point_at ExactR data (Z.of_nat k)))%R)
     /\ (forall j, (j < k)%nat ->
           (absorption (point_at ExactR data (Z.of_nat j))
            < absorption (point_at ExactR data (Z.of_nat k)))%R))
  /\ (data = [] -> peakWavelength ExactR data = None).
Proof.
  split; [|intros ->; reflexivity].
  intros Hne. destruct data as [|p0 rest]; [congruence|].
  set (data := p0 :: rest).
  set (m := maxOf ExactR (absorption p0) (map absorption rest)).
  destruct (maxOf_spec (absorption p0) (map absorption rest)) as [Hin Hge]. fold m in Hin, Hge.
  change (absorption p0 :: map absorption rest) with (map absorption data) in Hin, Hge.
  set (P := fun d : DataPoint ExactR => Req_bool (absorption d) m).
  set (dflt := Build_DataPoint ExactR (zero ExactR) (zero ExactR)).
  destruct (findIndexFrom_first P 0%Z data dflt) as [k [Hk [_ [Hat Hbefore]]]].
  { apply in_map_iff in Hin. destruct Hin as [q [Hq Hin]].
    exists q. split; [assumption|]. unfold P. now apply Req_bool_true. }
  assert (Hpt : forall i : nat, point_at ExactR data (Z.of_nat i) = nth i data dflt).
  { intros i. unfold point_at. now rewrite Nat2Z.id. }
  assert (Hmax : absorption (nth k data dflt) = m).
  { unfold P in Hat. now apply Req_bool_eq in Hat. }
  exists k. rewrite !Hpt. split; [exact Hk|]. split; [|split; [|split]].
  - unfold peakWavelength, maxAbsorption. cbn [data map]. fold m. fold data.
    change (fun d : DataPoint ExactR => eqb ExactR (absorption d) m) with P.
    now rewrite (find_first P data dflt k Hk Hat Hbefore).
  - unfold maxAbsorption. cbn [data map]. fold m. now rewrite Hmax.
  - intros q Hq. rewrite Hmax. apply Hge. now apply in_map.
  - intros j Hj. rewrite Hpt, Hmax.
    assert (Hle : (absorption (nth j data dflt) <= m)%R).
    { apply Hge, in_map, nth_In. lia. }
    specialize (Hbefore j Hj). unfold P in Hbefore. apply Req_bool_neq in Hbefore. lra.
Qed.

(** ** The wavelength axis of the chart *)

Lemma setOf_fold (ws acc : list R) :
  NoDup acc ->
  let res := fold_left (fun acc w => if existsb (Req_bool w) acc then acc else acc ++ [w])
                       ws acc in
  NoDup res /\ forall w, In w res <-> In w acc \/ In w ws.
Proof.
  revert acc. induction ws as [|v ws IH]; intros acc Hnd; cbn [fold_left].
  - split; [assumption|]. intros w. cbn [In]. tauto.
  - destruct (existsb (Req_bool v) acc) eqn:He.
    + destruct (IH acc Hnd) as [Hnd' Hin]. split; [assumption|].
      intros w. rewrite Hin. cbn [In]. split; [tauto|].
      intros [H|[<-|H]]; [now left| |now right].
      left. apply existsb_exists in He. destruct He as [u [Hu Heq]].
      apply Req_bool_eq in Heq. now subst u.
    + assert (Hnot : ~ In v acc).
      { intros Hin. assert (Hex : existsb (Req_bool v) acc = true).
        { apply existsb_exists. exists v. split; [assumption|]. now apply Req_bool_true. }
        congruence. }
      assert (Hnd2 : NoDup (acc ++ [v])).
      { apply NoDup_app; [assumption | repeat constructor; intros [] |].
        intros u Hu [<-|[]]. contradiction. }
      destruct (IH (acc ++ [v]) Hnd2) as [Hnd' Hin]. split; [assumption|].
      intros w. rewrite Hin, in_app_iff. cbn [In]. tauto.
Qed.

Lemma setOf_spec (ws : list R) :
  NoDup (setOf ws) /\ forall w, In w (setOf ws) <-> In w ws.
Proof.
  destruct (setOf_fold ws [] (NoDup_nil R)) as [Hnd Hin]. split; [exact Hnd|].
  intros w. unfold setOf. rewrite Hin. cbn [In]. tauto.
Qed.

Lemma insertSorted_In (w v : R) (l : list R) :
  In v (insertSorted w l) <-> v = w \/ In v l.
Proof.
  induction l as [|a l IH]; cbn [insertSorted In].
  - split; [intros [<-|[]]; now left | intros [->|[]]; now left].
  - destruct (Rle_bool w a); cbn [In]; [split; intuition congruence|].
    rewrite IH. tauto.
Qed.

Lemma insertSorted_ascending (w : R) (l : list R) :
  strictlyAscending l -> ~ In w l -> strictlyAscending (insertSorted w l).
Proof.
  induction l as [|a l IH]; intros Hs Hn; cbn [insertSorted].
  - cbn. split; [intros b []|exact I].
  - destruct Hs as [Ha Hs]. unfold Rle_bool. destruct (Rle_dec w a) as [Hle|Hgt].
    + assert (Hlt : (w < a)%R).
      { destruct Hle as [Hlt|Heq]; [assumption|]. exfalso. apply Hn. now left. }
      cbn [strictlyAscending]. split; [|split; assumption].
      intros b [<-|Hb]; [assumption|]. specialize (Ha b Hb). lra.
    + cbn [strictlyAscending]. split.
      * intros b Hb. apply insertSorted_In in Hb. destruct Hb as [->|Hb]; [lra|].
        now apply Ha.
      * apply IH; [assumption|]. intros Hin. apply Hn. now right.
Qed.

Lemma sortNumbers_spec (l : list R) :
  (forall w, In w (sortNumbers l) <-> In w l)
  /\ (NoDup l -> strictlyAscending (sortNumbers l)).
Proof.
  induction l as [|a l [IHin IHs]]; cbn [sortNumbers fold_right].
  - split; [tauto|]. intros _. exact I.
  - fold (sortNumbers l). split.
    + intros w. rewrite insertSorted_In, IHin. cbn [In]. split; intuition congruence.
    + intros Hnd. inversion Hnd as [|? ? Hn Hnd']; subst.
      apply insertSorted_ascending; [now apply IHs|]. now rewrite IHin.
Qed.

(** X23: The wavelength axis of the chart increases strictly, and holds exactly
    the wavelengths of the loaded samples that lie in
    [[rangeMin, rangeMax]] and do not exceed 300. *)
Theorem allWavelengths_axis
  (cfg : Settings ExactR) (samples : list (WaterSample ExactR)) :
  strictlyAscending (allWavelengths cfg samples)
  /\ forall w : R,
       In w (allWavelengths cfg samples)
       <-> ((rangeMin cfg <= w <= rangeMax cfg)%R /\ (w <= 300)%R)
           /\ exists s d, In s samples /\ In d (data s) /\ wavelength d = w.
Proof.
  unfold allWavelengths.
  set (ws := flat_map (fun s : WaterSample ExactR => map wavelength (data s)) samples).
  destruct (setOf_spec ws) as [Hnd Hset].
  set (keep := fun w : R =>
       (Rle_bool (rangeMin cfg) w
        && Rle_bool w (Rmin (rangeMax cfg) (MAX_ALLOWED_WAVELENGTH ExactR)))%bool).
  destruct (sortNumbers_spec (filter keep (setOf ws))) as [Hin Hasc].
  split; [apply Hasc, NoDup_filter, Hnd|].
  intros w. rewrite Hin, filter_In, Hset.
  assert (Hkeep : keep w = true
                  <-> (rangeMin cfg <= w <= rangeMax cfg)%R /\ (w <= 300)%R).
  { unfold keep, MAX_ALLOWED_WAVELENGTH. exact_arith. rewrite INR_300.
    unfold Rle_bool.
    pose proof (Rmin_l (rangeMax cfg) 300). pose proof (Rmin_r (rangeMax cfg) 300).
    destruct (Rle_dec (rangeMin cfg) w); destruct (Rle_dec w (Rmin (rangeMax cfg) 300));
      cbn [andb]; split; try discriminate; try (intros _; repeat split; lra).
    - intros [[_ H1] H2]. exfalso. apply n. unfold Rmin. destruct (Rle_dec _ _); lra.
    - intros [[H1 _] _]. contradiction.
    - intros [[H1 _] _]. contradiction. }
  rewrite Hkeep.
  assert (Hws : In w ws <-> exists s d, In s samples /\ In d (data s) /\ wavelength d = w).
  { unfold ws. rewrite in_flat_map. split.
    - intros [s [Hs Hw]]. apply in_map_iff in Hw. destruct Hw as [d [Hd Hin']].
      now exists s, d.
    - intros [s [d [Hs [Hd Hw]]]]. exists s. split; [assumption|].
      apply in_map_iff. now exists d. }
  rewrite Hws. tauto.
Qed.

(** ** The series of the chart *)

Lemma find_unique_wavelength (data : list (DataPoint ExactR)) (k : nat) :
  strictlyIncreasing data -> (k < length data)%nat ->
  find (fun d : DataPoint ExactR =>
          Req_bool (wavelength d) (wavelength (point_at ExactR data (Z.of_nat k)))) data
  = Some (point_at ExactR data (Z.of_nat k)).
Proof.
  intros Hinc Hk.
  set (dflt := Build_DataPoint ExactR (zero ExactR) (zero ExactR)).
  assert (Hpt : forall i : nat, point_at ExactR data (Z.of_nat i) = nth i data dflt).
  { intros i. unfold point_at. now rewrite Nat2Z.id. }
  rewrite Hpt. apply find_first; [assumption | now apply Req_bool_true |].
  intros j Hj. apply Req_bool_false.
  pose proof (Hinc j k (conj Hj Hk)) as Hlt. rewrite !Hpt in Hlt. lra.
Qed.

(** X24: Each series of the chart has one value per wavelength of the axis; the
    test [normMethod !== 'none'] before the normalization changes nothing;
    and on raw, unsmoothed settings a sample with strictly increasing
    wavelengths is charted at its own absorption at each of its wavelengths
    and at 0 at every wavelength it does not have. *)
Theorem chartSeries_values
  (cfg : Settings ExactR) (allW : list R) (s : WaterSample ExactR) :
  length (chartSeries cfg allW s) = length allW
  /\ chartSeries cfg allW s
     = normalizeValues ExactR
         (if smoothingEnabled cfg
          then applyMovingAverage ExactR (map (chartValue s) allW) (smoothingWindow cfg)
          else map (chartValue s) allW)
         (normMethod cfg)
  /\ (smoothingEnabled cfg = false -> normMethod cfg = none ->
      forall i : nat, (i < length allW)%nat ->
        (forall k : nat, strictlyIncreasing (data s) -> (k < length (data s))%nat ->
            wavelength (point_at ExactR (data s) (Z.of_nat k)) = nth i allW 0%R ->
            nth i (chartSeries cfg allW s) 0%R
            = absorption (point_at ExactR (data s) (Z.of_nat k)))
        /\ ((forall d, In d (data s) -> wavelength d <> nth i allW 0%R) ->
            nth i (chartSeries cfg allW s) 0%R = 0%R)).
Proof.
  assert (Heq : chartSeries cfg allW s
                = normalizeValues ExactR
                    (if smoothingEnabled cfg
                     then applyMovingAverage ExactR (map (chartValue s) allW)
                                             (smoothingWindow cfg)
                     else map (chartValue s) allW)
                    (normMethod cfg)).
  { unfold chartSeries. cbv zeta. now destruct (normMethod cfg). }
  split; [|split; [exact Heq|]].
  - rewrite Heq.
    etransitivity; [apply (normalizeValues_length ExactR)|].
    destruct (smoothingEnabled cfg);
      [rewrite applyMovingAverage_length|]; apply length_map.
  - intros Hoff Hnone i Hi. rewrite Heq, Hoff, Hnone. cbn [normalizeValues].
    exact_arith.
    rewrite (nth_indep (map (chartValue s) allW) 0%R (chartValue s 0%R))
      by now rewrite length_map.
    rewrite (map_nth (chartValue s)). unfold chartValue. split.
    + intros k Hinc Hk Hw. rewrite <- Hw.
      now rewrite find_unique_wavelength.
    + intros Hnone'.
      destruct (find _ (data s)) as [found|] eqn:Hf; [|reflexivity].
      apply find_some in Hf. destruct Hf as [Hin Heqw].
      apply Req_bool_eq in Heqw. exfalso. now apply (Hnone' found).
Qed.

(** X8: In every number model the normalizer returns a sequence of the length of
    its input, so that the metrics never index past the end of a normalized
    series; under [none] and on the empty sequence it returns its input. *)
Theorem normalizeValues_shape
  (A : Arith) (v : list (num A)) (m : NormalizationMethod) :
  length (normalizeValues A v m) = length v
  /\ normalizeValues A v none = v
  /\ normalizeValues A [] m = []
  /\ forall common : list (AlignedPair A),
       length (normalizeValues A (map yA common) m)
       = length (normalizeValues A (map yB common) m).
Proof.
  split; [apply normalizeValues_length|]. split; [reflexivity|].
  split; [now destruct m|].
  intros common. now rewrite !normalizeValues_length, !length_map.
Qed.

(** ** Further concrete instances *)

Lemma Rmin_same (r : R) : Rmin r r = r.
Proof. unfold Rmin. now destruct (Rle_dec r r). Qed.

Lemma Rmax_same (r : R) : Rmax r r = r.
Proof. unfold Rmax. now destruct (Rle_dec r r). Qed.

Lemma spectrum_200_202_increasing : strictlyIncreasing spectrum_200_202.
Proof.
  intros i j [Hij Hj]. simpl in Hj.
  destruct i as [|[|[|i]]]; destruct j as [|[|[|j]]]; try lia;
    unfold point_at; simpl; lra.
Qed.

Lemma spectrum_200_202_fuel :
  (2 * (Rmin 202 202 - Rmax 200 200) < INR 5)%R.
Proof. rewrite Rmin_same, Rmax_same. simpl. lra. Qed.

Lemma getOverlapData_grid_witness :
  (2 * (Rmin 202 202 - Rmax 200 200) < INR 5)%R
  /\ getOverlapData ExactR 5 spectrum_200_202 spectrum_200_202
     = Some (gridPoints spectrum_200_202 spectrum_200_202 (Rmax 200 200)
                        (gridSize (Rmax 200 200) (Rmin 202 202)))
  /\ (gridSize (Rmax 200 200) (Rmin 202 202) = 0%nat
      <-> (Rmin 202 202 < Rmax 200 200)%R).
Proof.
  split; [exact spectrum_200_202_fuel|].
  exact (getOverlapData_grid 5
           (Build_DataPoint ExactR 200%R (1 / 10)%R)
           (Build_DataPoint ExactR 200%R (1 / 10)%R)
           [Build_DataPoint ExactR 201%R (3 / 10)%R;
            Build_DataPoint ExactR 202%R (2 / 10)%R]
           [Build_DataPoint ExactR 201%R (3 / 10)%R;
            Build_DataPoint ExactR 202%R (2 / 10)%R]
           spectrum_200_202_fuel).
Defined.

Lemma getOverlapData_increasing_witness :
  let common := gridPoints spectrum_200_202 spectrum_200_202 (Rmax 200 200)
                           (gridSize (Rmax 200 200) (Rmin 202 202)) in
  let d := Build_AlignedPair ExactR 0%R 0%R 0%R in
  getOverlapData ExactR 5 spectrum_200_202 spectrum_200_202 = Some common
  /\ (forall i j : nat, (i < j < length common)%nat ->
        (x (nth i common d) < x (nth j common d))%R
        /\ (x (nth j common d) - x (nth i common d) = (INR j - INR i) * / 2)%R)
  /\ Forall (fun p : AlignedPair ExactR =>
               (Rmax 200 200 <= x p <= Rmin 202 202)%R
               /\ yA p = interpolate ExactR spectrum_200_202 (x p)
               /\ yB p = interpolate ExactR spectrum_200_202 (x p)) common.
Proof.
  intros common d.
  assert (H : getOverlapData ExactR 5 spectrum_200_202 spectrum_200_202 = Some common).
  { exact (getOverlapData_closed_form 5
             (Build_DataPoint ExactR 200%R (1 / 10)%R)
             (Build_DataPoint ExactR 200%R (1 / 10)%R)
             [Build_DataPoint ExactR 201%R (3 / 10)%R;
              Build_DataPoint ExactR 202%R (2 / 10)%R]
             [Build_DataPoint ExactR 201%R (3 / 10)%R;
              Build_DataPoint ExactR 202%R (2 / 10)%R]
             spectrum_200_202_fuel). }
  split; [exact H|].
  exact (getOverlapData_increasing 5
           (Build_DataPoint ExactR 200%R (1 / 10)%R)
           (Build_DataPoint ExactR 200%R (1 / 10)%R)
           [Build_DataPoint ExactR 201%R (3 / 10)%R;
            Build_DataPoint ExactR 202%R (2 / 10)%R]
           [Build_DataPoint ExactR 201%R (3 / 10)%R;
            Build_DataPoint ExactR 202%R (2 / 10)%R]
           common d H).
Defined.

Lemma interpolate_reproduces_samples_witness :
  strictlyIncreasing spectrum_200_202 /\ (1 < length spectrum_200_202)%nat
  /\ interpolate ExactR spectrum_200_202 201%R = (3 / 10)%R.
Proof.
  split; [exact spectrum_200_202_increasing|].
  assert (Hk : (1 < length spectrum_200_202)%nat) by (simpl; lia).
  split; [exact Hk|].
  exact (interpolate_reproduces_samples spectrum_200_202 1
           spectrum_200_202_increasing Hk).
Defined.

Lemma interpolate_within_bounds_witness :
  spectrum_200_202 <> []
  /\ (forall p, In p spectrum_200_202 -> (1 / 10 <= absorption p <= 3 / 10)%R)
  /\ (1 / 10 <= interpolate ExactR spectrum_200_202 (401 / 2) <= 3 / 10)%R.
Proof.
  assert (Hne : spectrum_200_202 <> []) by discriminate.
  assert (Hb : forall p, In p spectrum_200_202 -> (1 / 10 <= absorption p <= 3 / 10)%R).
  { intros p [<-|[<-|[<-|[]]]]; cbn [absorption]; lra. }
  split; [exact Hne|]. split; [exact Hb|].
  exact (interpolate_within_bounds spectrum_200_202 (401 / 2) (1 / 10) (3 / 10) Hne Hb).
Defined.

Lemma applyMovingAverage_within_bounds_witness :
  (forall t, In t [1; 2; 4]%R -> (1 <= t <= 4)%R)
  /\ (forall y, In y (applyMovingAverage ExactR [1; 2; 4]%R 3) -> (1 <= y <= 4)%R)
  /\ (forall t, In t [2; 2; 2]%R -> t = 2%R)
  /\ applyMovingAverage ExactR [2; 2; 2]%R 3 = [2; 2; 2]%R.
Proof.
  assert (Hb : forall t, In t [1; 2; 4]%R -> (1 <= t <= 4)%R).
  { intros t [<-|[<-|[<-|[]]]]; lra. }
  assert (Hc : forall t, In t [2; 2; 2]%R -> t = 2%R).
  { intros t [<-|[<-|[<-|[]]]]; reflexivity. }
  split; [exact Hb|]. split.
  - exact (proj1 (applyMovingAverage_within_bounds [1; 2; 4]%R 3) 1%R 4%R Hb).
  - split; [exact Hc|].
    exact (proj2 (applyMovingAverage_within_bounds [2; 2; 2]%R 3) 2%R Hc).
Defined.

Lemma normalizeValues_gain_invariant_witness :
  (0 < 2)%R
  /\ normalizeValues ExactR (map (fun t => 2 * t)%R [1; -3]%R) area
     = normalizeValues ExactR [1; -3]%R area
  /\ normalizeValues ExactR (map (fun t => 2 * t + 5)%R [1; -3]%R) minmax
     = normalizeValues ExactR [1; -3]%R minmax.
Proof.
  assert (Hc : (0 < 2)%R) by lra.
  split; [exact Hc|].
  destruct (normalizeValues_gain_invariant [1; -3]%R 2 Hc) as [Harea Hminmax].
  split; [exact Harea | exact (Hminmax 5%R)].
Defined.

Lemma correlations_gain_invariant_witness :
  (0 < 2)%R
  /\ calculatePearson ExactR (gainOffset 2 5 three_points)
     = calculatePearson ExactR three_points
  /\ calculateCosineSimilarity ExactR (gainOffset 2 0 three_points)
     = calculateCosineSimilarity ExactR three_points.
Proof.
  assert (Hc : (0 < 2)%R) by lra.
  split; [exact Hc|].
  split.
  - exact (proj1 (correlations_gain_invariant three_points 2 5 Hc)).
  - exact (proj2 (correlations_gain_invariant three_points 2 5 Hc)).
Defined.

Lemma correlation_fallbacks_witness :
  ((length single_point < 2)%nat /\ calculatePearson ExactR single_point = 0%R)
  /\ ((forall p, In p zero_first -> yA p = 0%R)
      /\ calculatePearson ExactR zero_first = 0%R
      /\ calculateCosineSimilarity ExactR zero_first = 0%R)
  /\ ((forall p, In p zero_second -> yB p = 0%R)
      /\ calculatePearson ExactR zero_second = 0%R
      /\ calculateCosineSimilarity ExactR zero_second = 0%R).
Proof.
  assert (H1 : (length single_point < 2)%nat) by (simpl; lia).
  assert (H2 : forall p, In p zero_first -> yA p = 0%R).
  { intros p [<-|[<-|[]]]; reflexivity. }
  assert (H3 : forall p, In p zero_second -> yB p = 0%R).
  { intros p [<-|[<-|[]]]; reflexivity. }
  split; [|split].
  - split; [exact H1|]. exact (proj1 (correlation_fallbacks single_point) H1).
  - split; [exact H2|]. split.
    + exact (proj1 (proj2 (correlation_fallbacks zero_first)) 0%R H2).
    + exact (proj1 (proj2 (proj2 (proj2 (correlation_fallbacks zero_first)))) H2).
  - split; [exact H3|]. split.
    + exact (proj1 (proj2 (proj2 (correlation_fallbacks zero_second))) 0%R H3).
    + exact (proj2 (proj2 (proj2 (proj2 (correlation_fallbacks zero_second)))) H3).
Defined.

Lemma similarityMatrix_pairs_witness :
  (exists (fuel : nat) (res : list (SimilarityResult ExactR)),
     similarityMatrix ExactR ln fuel default_settings [sample_a; sample_b] = Some res
     /\ (2 * length res <= length [sample_a; sample_b]
                           * (length [sample_a; sample_b] - 1))%nat
     /\ Forall (fun e => exists sA sB,
                    standsBefore [sample_a; sample_b] sA sB
                    /\ sampleA e = name sA /\ sampleB e = name sB) res)
  /\ ((length [sample_a] < 2)%nat
      /\ similarityMatrix ExactR ln 0 default_settings [sample_a] = Some []).
Proof.
  split.
  - destruct (similarityMatrix_total default_settings [sample_a; sample_b])
      as [fuel [res H]].
    exists fuel, res.
    assert (Hrun : similarityMatrix ExactR ln fuel default_settings [sample_a; sample_b]
                   = Some res) by (apply H; lia).
    split; [exact Hrun|].
    exact (proj1 (similarityMatrix_pairs ExactR ln fuel default_settings
                    [sample_a; sample_b]) res Hrun).
  - assert (Hn : (length [sample_a] < 2)%nat) by (cbn [length]; lia).
    split; [exact Hn|].
    exact (proj2 (similarityMatrix_pairs ExactR ln 0 default_settings [sample_a]) Hn).
Defined.

Lemma similarityMatrix_terminates_witness :
  exists (fuel0 : nat) (res : list (SimilarityResult ExactR)),
    (fuel0 <= fuel0)%nat
    /\ similarityMatrix ExactR ln fuel0 default_settings [sample_a; sample_b]
       = Some res.
Proof.
  destruct (similarityMatrix_terminates default_settings [sample_a; sample_b])
    as [fuel0 [res [H _]]].
  exists fuel0, res. split; [apply Nat.le_refl|]. apply H, Nat.le_refl.
Defined.

Lemma smoothedFilteredCommon_series_witness :
  (smoothingEnabled default_settings = false
   \/ (smoothingWindow default_settings <= 1)%Z)
  /\ smoothedFilteredCommon ExactR default_settings three_points = three_points.
Proof.
  assert (H : smoothingEnabled default_settings = false
              \/ (smoothingWindow default_settings <= 1)%Z) by (left; reflexivity).
  split; [exact H|].
  exact (proj2 (proj2 (proj2
           (smoothedFilteredCommon_series ExactR default_settings three_points))) H).
Defined.

Lemma peakWavelength_first_maximum_witness :
  spectrum_200_202 <> []
  /\ exists k : nat,
       (k < length spectrum_200_202)%nat
       /\ peakWavelength ExactR spectrum_200_202
          = Some (wavelength (point_at ExactR spectrum_200_202 (Z.of_nat k)))
       /\ maxAbsorption ExactR spectrum_200_202
          = Some (absorption (point_at ExactR spectrum_200_202 (Z.of_nat k))).
Proof.
  assert (Hne : spectrum_200_202 <> []) by discriminate.
  split; [exact Hne|].
  destruct (proj1 (peakWavelength_first_maximum spectrum_200_202) Hne)
    as [k [Hk [Hp [Hm _]]]].
  exists k. split; [exact Hk|]. split; [exact Hp | exact Hm].
Defined.

Lemma chartSeries_values_witness :
  smoothingEnabled default_settings = false
  /\ normMethod default_settings = none
  /\ strictlyIncreasing (data sample_a)
  /\ (forall d, In d (data sample_a) -> wavelength d <> 203%R)
  /\ nth 1 (chartSeries default_settings [200; 201; 203]%R sample_a) 0%R = (3 / 10)%R
  /\ nth 2 (chartSeries default_settings [200; 201; 203]%R sample_a) 0%R = 0%R.
Proof.
  assert (Hnone : forall d, In d (data sample_a) -> wavelength d <> 203%R).
  { intros d [<-|[<-|[<-|[]]]]; cbn [wavelength]; lra. }
  split; [reflexivity|]. split; [reflexivity|].
  split; [exact spectrum_200_202_increasing|]. split; [exact Hnone|].
  pose proof (proj2 (proj2 (chartSeries_values default_settings [200; 201; 203]%R
                                               sample_a)) eq_refl eq_refl) as H.
  split.
  - apply (proj1 (H 1%nat ltac:(simpl; lia)) 1%nat spectrum_200_202_increasing).
    + simpl; lia.
    + reflexivity.
  - apply (proj2 (H 2%nat ltac:(simpl; lia))). exact Hnone.
Defined.

Lemma distances_zero_iff_witness :
  normalizeValues ExactR (map yA identical_series) area
  = normalizeValues ExactR (map yB identical_series) area
  /\ calculateEuclidean ExactR identical_series area = 0%R
  /\ calculateRMSE ExactR identical_series area = 0%R.
Proof.
  assert (H : normalizeValues ExactR (map yA identical_series) area
              = normalizeValues ExactR (map yB identical_series) area) by reflexivity.
  split; [exact H|]. split.
  - exact (proj2 (proj1 (distances_zero_iff identical_series area)) H).
  - exact (proj2 (proj2 (distances_zero_iff identical_series area)) H).
Defined.

Lemma allWavelengths_axis_witness :
  (((rangeMin default_settings <= 201 <= rangeMax default_settings)%R /\ (201 <= 300)%R)
   /\ exists s d, In s [sample_a; sample_b] /\ In d (data s) /\ wavelength d = 201%R)
  /\ In 201%R (allWavelengths default_settings [sample_a; sample_b])
  /\ strictlyAscending (allWavelengths default_settings [sample_a; sample_b]).
Proof.
  assert (H : ((rangeMin default_settings <= 201 <= rangeMax default_settings)%R
               /\ (201 <= 300)%R)
              /\ exists s d, In s [sample_a; sample_b] /\ In d (data s)
                             /\ wavelength d = 201%R).
  { split; [cbn [rangeMin rangeMax default_settings]; lra|].
    exists sample_a, (Build_DataPoint ExactR 201%R (3 / 10)%R).
    split; [now left|]. split; [now right; left | reflexivity]. }
  split; [exact H|]. split.
  - exact (proj2 (proj2 (allWavelengths_axis default_settings [sample_a; sample_b])
                        201%R) H).
  - exact (proj1 (allWavelengths_axis default_settings [sample_a; sample_b])).
Defined.

